(** * Numerical-verification utilities: finite-difference checks and
      empirical complexity estimation

    Shallow embedding of [utils/finite_difference_checks.py],
    [utils/norms.py] and
    [00_numerical_foundations/computational_complexity_model/implementation.py].

    Conventions of the embedding.
    - A Python float is idealised as a real number ([R]); [np.inf] is a
      separate constructor where a function can return it.
    - A one-dimensional [ndarray] is a [list R], a two-dimensional one a
      [list (list R)] (rows); indexing out of range raises [IndexError]
      as numpy does.
    - Everything a call can do besides returning a value (evaluating the
      user's function, printing, reading the clock, drawing random
      numbers, raising) is threaded through the monad [M] over [world].
    - User callbacks ([f], [grad_f], [hess_f], [setup_func], [func]) are
      total and deterministic.
    - Division is the total division of [R]; what Python or numpy do on
      a division by zero is outside the model, and the statements that
      read a quotient take a nonzero step. *)

From Stdlib Require Import Reals Lra Lia List String Ascii.
From stdpp Require Import base list.
Import ListNotations.
Open Scope R_scope.

(** ** Values *)

Inductive exn : Type :=
  | ValueError (msg : string)
  | IndexError (msg : string).

Inductive result (A : Type) : Type :=
  | Ok (a : A)
  | Raise (e : exn).
Arguments Ok {A} a.
Arguments Raise {A} e.

(** A Python complex number, as (real part, imaginary part). *)
Definition complex : Type := (R * R)%type.

Definition RtoC (r : R) : complex := (r, 0).
Definition Ci : complex := (0, 1).
Definition Cadd (z w : complex) : complex := (fst z + fst w, snd z + snd w).
Definition Cmul (z w : complex) : complex :=
  (fst z * fst w - snd z * snd w, fst z * snd w + snd z * fst w).

(** The caller's function: what it returns on a float array and what it
    returns on a complex array (Python dispatches on the dtype). *)
Record ScalarFunction : Type := {
  on_real : list R -> R;
  on_complex : list complex -> complex
}.

(** One evaluation of the caller's function, as recorded in the world. *)
Inductive call : Type :=
  | EvalReal (x : list R)
  | EvalComplex (z : list complex).

(** A printed line is the sequence of the pieces of its f-string:
    literal text, a float printed with [{v}], a float printed with
    [{v:.6e}] or [{v:.2f}], an integer, a boolean. *)
Inductive fragment : Type :=
  | Lit (s : string)
  | Repr (r : R)
  | Sci6 (r : R)
  | Fix2 (r : R)
  | Int (n : Z)
  | Bool (b : bool).

Definition line : Type := list fragment.

(** ** The world and the monad *)

Record world : Type := mkWorld {
  evals : list call;        (* evaluations of the user's function so far *)
  stdout : list line;       (* lines printed so far *)
  perf : nat -> R;          (* readings of time.perf_counter, in order *)
  ticks : nat;              (* how many readings were taken *)
  gauss : nat -> R;         (* the draws of the global numpy generator *)
  drawn : nat               (* how many draws were consumed *)
}.

Definition M (A : Type) : Type := world -> result A * world.

Definition ret {A} (a : A) : M A := fun w => (Ok a, w).

Definition raise {A} (e : exn) : M A := fun w => (Raise e, w).

Definition bind {A B} (m : M A) (k : A -> M B) : M B :=
  fun w => match m w with
           | (Ok a, w') => k a w'
           | (Raise e, w') => (Raise e, w')
           end.

Notation "x <- m ;; k" := (bind m (fun x => k))
  (at level 100, m at next level, right associativity).
Notation "m ;;; k" := (bind m (fun _ => k))
  (at level 100, right associativity).

Definition add_evals (cs : list call) (w : world) : world :=
  mkWorld (evals w ++ cs) (stdout w) (perf w) (ticks w) (gauss w) (drawn w).

Definition add_stdout (ls : list line) (w : world) : world :=
  mkWorld (evals w) (stdout w ++ ls) (perf w) (ticks w) (gauss w) (drawn w).

(** [f(x)] on a float array. *)
Definition call_real (f : ScalarFunction) (x : list R) : M R :=
  fun w => (Ok (on_real f x), add_evals [EvalReal x] w).

(** [f(z)] on a complex array. *)
Definition call_complex (f : ScalarFunction) (z : list complex) : M complex :=
  fun w => (Ok (on_complex f z), add_evals [EvalComplex z] w).

(** [print(...)]. *)
Definition print (l : line) : M unit :=
  fun w => (Ok tt, add_stdout [l] w).

(** [time.perf_counter()]. *)
Definition perf_counter : M R :=
  fun w => (Ok (perf w (ticks w)),
            mkWorld (evals w) (stdout w) (perf w) (S (ticks w)) (gauss w) (drawn w)).

(** [for a in xs: s = body(a, s)]. *)
Fixpoint for_in {A S : Type} (xs : list A) (body : A -> S -> M S) (s : S) : M S :=
  match xs with
  | [] => ret s
  | a :: xs' => s' <- body a s ;; for_in xs' body s'
  end.

(** [range(lo, hi)]. *)
Definition range (lo hi : nat) : list nat := seq lo (hi - lo).

(** Comparisons of floats, as booleans. *)
Definition Rltb (a b : R) : bool := if Rlt_dec a b then true else false.
Definition Reqb (a b : R) : bool := if Req_dec_T a b then true else false.

(** ** Array primitives *)

(** [a[i]] for a one-dimensional array. *)
Definition getitem {A} (a : list A) (i : nat) : M A :=
  match a !! i with
  | Some v => ret v
  | None => raise (IndexError "index out of bounds")
  end.

(** [a[i] = v]. *)
Definition setitem {A} (a : list A) (i : nat) (v : A) : M (list A) :=
  if (i <? length a)%nat then ret (<[i := v]> a)
  else raise (IndexError "index out of bounds").

(** [a[i] += e] on a float array. *)
Definition iadd_item (a : list R) (i : nat) (e : R) : M (list R) :=
  v <- getitem a i ;; setitem a i (v + e).

(** [a[i] -= e] on a float array. *)
Definition isub_item (a : list R) (i : nat) (e : R) : M (list R) :=
  v <- getitem a i ;; setitem a i (v - e).

(** [z[i] += c] on a complex array. *)
Definition iadd_item_c (z : list complex) (i : nat) (c : complex) : M (list complex) :=
  v <- getitem z i ;; setitem z i (Cadd v c).

(** [H[i, j]] for a two-dimensional array. *)
Definition getitem2 (H : list (list R)) (i j : nat) : M R :=
  row <- getitem H i ;; getitem row j.

(** [H[i, j] = v]. *)
Definition setitem2 (H : list (list R)) (i j : nat) (v : R) : M (list (list R)) :=
  row <- getitem H i ;; row' <- setitem row j v ;; setitem H i row'.

(** ** numpy, idealised over the reals

    Only what the three source files use. [nan] results that numpy
    produces with a warning (and without raising) are left as whatever
    the total real-number operation gives; no claim depends on them. *)

Module np.

(** [np.zeros(n)] and [np.zeros((n, m))]. *)
Definition zeros (n : nat) : list R := replicate n 0.
Definition zeros2 (n m : nat) : list (list R) := replicate n (zeros m).

(** [np.imag(z)]. *)
Definition imag (z : complex) : R := snd z.

(** [x.astype(complex)]. *)
Definition astype_complex (x : list R) : list complex := map RtoC x.

(** Element-wise binary operation on one-dimensional arrays, with
    numpy's broadcasting: equal lengths, or one operand of length 1. *)
Definition broadcast (op : R -> R -> R) (a b : list R) : M (list R) :=
  if (length a =? length b)%nat then ret (zip_with op a b)
  else match a, b with
       | [u], _ => ret (map (op u) b)
       | _, [v] => ret (map (fun t => op t v) a)
       | _, _ => raise (ValueError "operands could not be broadcast together")
       end.

Definition subtract : list R -> list R -> M (list R) := broadcast Rminus.
Definition add : list R -> list R -> M (list R) := broadcast Rplus.

(** [c * a] for a float [c]. *)
Definition scale (c : R) (a : list R) : list R := map (Rmult c) a.

(** Element-wise binary operation on two-dimensional arrays, with
    numpy's broadcasting along each axis: the two lengths of an axis
    are equal, or one of them is 1 and that operand is repeated along
    the axis. A list of rows has no column count when it has no row:
    [[]] stands for the array of shape [(0, 0)], which is what
    [np.zeros((0, 0))] is. *)
Definition broadcast_dim (a b : nat) : option nat :=
  if (a =? b)%nat then Some a
  else if (a =? 1)%nat then Some b
  else if (b =? 1)%nat then Some a
  else None.

Definition stretch {A} (n : nat) (l : list A) : list A :=
  match l with
  | [v] => replicate n v
  | _ => l
  end.

Definition ncols (A : list (list R)) : nat :=
  match A with
  | [] => 0%nat
  | row :: _ => length row
  end.

Definition broadcast2 (op : R -> R -> R) (A B : list (list R))
    : M (list (list R)) :=
  match broadcast_dim (length A) (length B),
        broadcast_dim (ncols A) (ncols B) with
  | Some r, Some c =>
      ret (zip_with
             (fun ra rb => zip_with op (stretch c ra) (stretch c rb))
             (stretch r A) (stretch r B))
  | _, _ => raise (ValueError "operands could not be broadcast together")
  end.

Definition subtract2 : list (list R) -> list (list R) -> M (list (list R)) :=
  broadcast2 Rminus.

(** [np.abs(a)]. *)
Definition abs (a : list R) : list R := map Rabs a.

(** [np.sum(a)]. *)
Definition sum (a : list R) : R := fold_right Rplus 0 a.

(** [np.sum(a ** 2)]. *)
Definition sumsq (a : list R) : R := sum (map (fun v => v * v) a).

(** [np.mean(a)]; on an empty array numpy warns and returns nan. *)
Definition mean (a : list R) : R := sum a / INR (length a).

(** [np.max(a)]: raises on an empty array. *)
Fixpoint max_from (best : R) (a : list R) : R :=
  match a with
  | [] => best
  | v :: a' => max_from (if Rlt_dec best v then v else best) a'
  end.

Definition max (a : list R) : M R :=
  match a with
  | [] => raise (ValueError
            "zero-size array to reduction operation maximum which has no identity")
  | v :: a' => ret (max_from v a')
  end.

(** [np.argmax(a)]: index of the first maximal entry; raises on an
    empty array. *)
Fixpoint argmax_from (best_i : nat) (best : R) (i : nat) (a : list R) : nat :=
  match a with
  | [] => best_i
  | v :: a' =>
      if Rlt_dec best v then argmax_from i v (S i) a'
      else argmax_from best_i best (S i) a'
  end.

Definition argmax (a : list R) : M nat :=
  match a with
  | [] => raise (ValueError "attempt to get argmax of an empty sequence")
  | v :: a' => ret (argmax_from 0 v 1 a')
  end.

(** [np.log(a)], element-wise; where numpy gives -inf or nan (with a
    warning) the value of [ln] is used. *)
Definition log (a : list R) : list R := map ln a.

(** [np.median(a)]: the middle of the sorted array, the mean of the two
    middle entries for an even length; nan (here 0) on an empty one. *)
Fixpoint insert_sorted (v : R) (a : list R) : list R :=
  match a with
  | [] => [v]
  | u :: a' => if Rle_dec v u then v :: a else u :: insert_sorted v a'
  end.

Definition sort (a : list R) : list R := fold_right insert_sorted [] a.

Definition median (a : list R) : R :=
  let s := sort a in
  let n := length s in
  if Nat.even n
  then (nth (n / 2 - 1) s 0 + nth (n / 2) s 0) / 2
  else nth (n / 2) s 0.

Module linalg.

(** [np.linalg.norm(a)] of a one-dimensional array: the 2-norm. *)
Definition norm (a : list R) : R := sqrt (sumsq a).

(** [np.linalg.norm(A, 'fro')] of a matrix. *)
Definition norm_fro (A : list (list R)) : R :=
  sqrt (sum (map sumsq A)).

(** [np.linalg.lstsq(A, b, rcond=None)[0]] for a design matrix whose
    rows are [[1, l]]: the least-squares solution of minimum norm.
    - no rows: the zero vector;
    - the [l] not all equal (full column rank): the regression line;
    - all [l] equal to [c] (rank one): [(ybar / (1 + c^2)) * (1, c)].
    Raises when [b] has not as many entries as [A] has rows. *)
Definition lstsq (A : list (list R)) (b : list R) : M (list R) :=
  if negb (length A =? length b)%nat
  then raise (ValueError "Incompatible dimensions")
  else
    match A with
    | [] => ret [0; 0]
    | _ =>
        let l := map (fun row => nth 1 row 0) A in
        let lbar := mean l in
        let ybar := mean b in
        let dl := map (fun v => v - lbar) l in
        let dy := map (fun v => v - ybar) b in
        let sxx := sumsq dl in
        let sxy := sum (zip_with Rmult dl dy) in
        if Reqb sxx 0
        then ret [ybar / (1 + lbar * lbar); ybar / (1 + lbar * lbar) * lbar]
        else ret [ybar - sxy / sxx * lbar; sxy / sxx]
    end.

End linalg.

Module random.

(** [np.random.randn(n)]: the next [n] draws of the global generator. *)
Definition randn (n : nat) : M (list R) :=
  fun w => (Ok (map (gauss w) (seq (drawn w) n)),
            mkWorld (evals w) (stdout w) (perf w) (ticks w)
                    (gauss w) (drawn w + n)).

End random.

End np.

(** ** utils/finite_difference_checks.py *)

(** ["=" * 60] and the like. *)
Fixpoint str_repeat (s : string) (n : nat) : string :=
  match n with
  | O => EmptyString
  | S n' => String.append s (str_repeat s n')
  end.

Definition newline : string := String (ascii_of_nat 10) EmptyString.

Definition finite_difference_gradient (f : ScalarFunction) (x : list R)
    (epsilon : R) (method : string) : M (list R) :=
  let n := length x in
  let grad := np.zeros n in
  if String.eqb method "forward" then
    f0 <- call_real f x ;;
    for_in (range 0 n) (fun i grad =>
      let x_plus := x in
      x_plus <- iadd_item x_plus i epsilon ;;
      fp <- call_real f x_plus ;;
      setitem grad i ((fp - f0) / epsilon)) grad
  else if String.eqb method "central" then
    for_in (range 0 n) (fun i grad =>
      let x_plus := x in
      let x_minus := x in
      x_plus <- iadd_item x_plus i epsilon ;;
      x_minus <- isub_item x_minus i epsilon ;;
      fp <- call_real f x_plus ;;
      fm <- call_real f x_minus ;;
      setitem grad i ((fp - fm) / (2 * epsilon))) grad
  else if String.eqb method "complex" then
    for_in (range 0 n) (fun i grad =>
      let x_complex := np.astype_complex x in
      x_complex <- iadd_item_c x_complex i (Cmul Ci (RtoC epsilon)) ;;
      fz <- call_complex f x_complex ;;
      setitem grad i (np.imag fz / epsilon)) grad
  else raise (ValueError (String.append "Unknown method: " method)).

Definition status_text (passed : bool) : string :=
  if passed then "✓ PASSED" else "✗ FAILED".

Definition check_gradient (f : ScalarFunction) (grad_f : list R -> list R)
    (x : list R) (epsilon tol : R) (method : string) (verbose : bool)
    : M (bool * R) :=
  let grad_analytical := grad_f x in
  grad_numerical <- finite_difference_gradient f x epsilon method ;;
  diff <- np.subtract grad_analytical grad_numerical ;;
  let norm_diff := np.linalg.norm diff in
  let norm_analytical := np.linalg.norm grad_analytical in
  let norm_numerical := np.linalg.norm grad_numerical in
  let relative_error :=
    if Rltb 0 norm_analytical then norm_diff / norm_analytical
    else norm_diff in
  let passed := Rltb relative_error tol in
  (if verbose then
     print [Lit (str_repeat "=" 60)] ;;;
     print [Lit "GRADIENT CHECK"] ;;;
     print [Lit (str_repeat "=" 60)] ;;;
     print [Lit "Method: "; Lit method] ;;;
     print [Lit "Epsilon: "; Repr epsilon] ;;;
     print [Lit "||grad_analytical||: "; Sci6 norm_analytical] ;;;
     print [Lit "||grad_numerical||:  "; Sci6 norm_numerical] ;;;
     print [Lit "||difference||:      "; Sci6 norm_diff] ;;;
     print [Lit "Relative error:      "; Sci6 relative_error] ;;;
     print [Lit "Tolerance:           "; Sci6 tol] ;;;
     print [Lit "Status: "; Lit (status_text passed)] ;;;
     (if negb passed && Rltb 0 norm_diff then
        let abs_diff := np.abs diff in
        worst_idx <- np.argmax abs_diff ;;
        print [Lit newline; Lit "Worst component: index ";
               Int (Z.of_nat worst_idx)] ;;;
        ga <- getitem grad_analytical worst_idx ;;
        print [Lit "  Analytical: "; Sci6 ga] ;;;
        gn <- getitem grad_numerical worst_idx ;;
        print [Lit "  Numerical:  "; Sci6 gn] ;;;
        d <- getitem diff worst_idx ;;
        print [Lit "  Difference: "; Sci6 d]
      else ret tt) ;;;
     print [Lit (str_repeat "=" 60)]
   else ret tt) ;;;
  ret (passed, relative_error).

Definition finite_difference_hessian (f : ScalarFunction) (x : list R)
    (epsilon : R) : M (list (list R)) :=
  let n := length x in
  let H := np.zeros2 n n in
  f0 <- call_real f x ;;
  (* diagonal elements *)
  H <- for_in (range 0 n) (fun i H =>
         let x_plus := x in
         let x_minus := x in
         x_plus <- iadd_item x_plus i epsilon ;;
         x_minus <- isub_item x_minus i epsilon ;;
         fp <- call_real f x_plus ;;
         fm <- call_real f x_minus ;;
         setitem2 H i i ((fp - 2 * f0 + fm) / (epsilon ^ 2))) H ;;
  (* off diagonal elements *)
  for_in (range 0 n) (fun i H =>
    for_in (range (i + 1) n) (fun j H =>
      let x_pp := x in
      let x_pm := x in
      let x_mp := x in
      let x_mm := x in
      x_pp <- iadd_item x_pp i epsilon ;;
      x_pp <- iadd_item x_pp j epsilon ;;
      x_pm <- iadd_item x_pm i epsilon ;;
      x_pm <- isub_item x_pm j epsilon ;;
      x_mp <- isub_item x_mp i epsilon ;;
      x_mp <- iadd_item x_mp j epsilon ;;
      x_mm <- isub_item x_mm i epsilon ;;
      x_mm <- isub_item x_mm j epsilon ;;
      fpp <- call_real f x_pp ;;
      fpm <- call_real f x_pm ;;
      fmp <- call_real f x_mp ;;
      fmm <- call_real f x_mm ;;
      H <- setitem2 H i j ((fpp - fpm - fmp + fmm) / (4 * epsilon ^ 2)) ;;
      hij <- getitem2 H i j ;;
      setitem2 H j i hij) H) H.

Definition check_hessian (f : ScalarFunction)
    (hess_f : list R -> list (list R)) (x : list R) (epsilon tol : R)
    (verbose : bool) : M (bool * R) :=
  let hess_analytical := hess_f x in
  hess_numerical <- finite_difference_hessian f x epsilon ;;
  diff <- np.subtract2 hess_analytical hess_numerical ;;
  let norm_diff := np.linalg.norm_fro diff in
  let norm_analytical := np.linalg.norm_fro hess_analytical in
  let relative_error :=
    if Rltb 0 norm_analytical then norm_diff / norm_analytical
    else norm_diff in
  let passed := Rltb relative_error tol in
  (if verbose then
     print [Lit (str_repeat "=" 60)] ;;;
     print [Lit "HESSIAN CHECK"] ;;;
     print [Lit (str_repeat "=" 60)] ;;;
     print [Lit "Epsilon: "; Repr epsilon] ;;;
     print [Lit "||Hess_analytical||_F: "; Sci6 norm_analytical] ;;;
     print [Lit "||Hess_numerical||_F:  ";
            Sci6 (np.linalg.norm_fro hess_numerical)] ;;;
     print [Lit "||difference||_F:      "; Sci6 norm_diff] ;;;
     print [Lit "Relative error:        "; Sci6 relative_error] ;;;
     print [Lit "Tolerance:             "; Sci6 tol] ;;;
     print [Lit "Status: "; Lit (status_text passed)] ;;;
     print [Lit (str_repeat "=" 60)]
   else ret tt) ;;;
  ret (passed, relative_error).

Definition warning_text (passed : bool) : string :=
  if passed then "✓ PASSED" else "⚠ WARNING".

Definition gradient_consistency_check (grad_f : list R -> list R)
    (x : list R) (n_samples : Z) (epsilon : R) (verbose : bool) : M bool :=
  let grad_base := grad_f x in
  let variations : list R := [] in
  variations <- for_in (range 0 (Z.to_nat n_samples)) (fun _ variations =>
    z <- np.random.randn (length x) ;;
    let perturbation := np.scale epsilon z in
    x_perturbed <- np.add x perturbation ;;
    let grad_perturbed := grad_f x_perturbed in
    d <- np.subtract grad_perturbed grad_base ;;
    let diff := np.linalg.norm d in
    ret (variations ++ [diff])) variations ;;
  let mean_variation := np.mean variations in
  max_variation <- np.max variations ;;
  let expected_variation := epsilon * np.linalg.norm grad_base in
  let passed := Rltb max_variation (10 * expected_variation) in
  (if verbose then
     print [Lit (str_repeat "=" 60)] ;;;
     print [Lit "GRADIENT CONSISTENCY CHECK"] ;;;
     print [Lit (str_repeat "=" 60)] ;;;
     print [Lit "Samples:           "; Int n_samples] ;;;
     print [Lit "Perturbation:      "; Sci6 epsilon] ;;;
     print [Lit "||grad(x)||:       "; Sci6 (np.linalg.norm grad_base)] ;;;
     print [Lit "Mean variation:    "; Sci6 mean_variation] ;;;
     print [Lit "Max variation:     "; Sci6 max_variation] ;;;
     print [Lit "Expected:          "; Sci6 expected_variation] ;;;
     print [Lit "Status: "; Lit (warning_text passed)] ;;;
     print [Lit (str_repeat "=" 60)]
   else ret tt) ;;;
  ret passed.

(** ** utils/norms.py *)

(** A float that may be [np.inf]. *)
Inductive xfloat : Type :=
  | Finite (r : R)
  | Infinity.

(** [vector_norm(x, p)] for the default order [p = 2]. *)
Definition vector_norm (x : list R) : M R :=
  if (length x =? 0)%nat then ret 0
  else
    let x_abs := np.abs x in
    x_max <- np.max x_abs ;;
    if Reqb x_max 0 then ret 0
    else
      let x_scaled := map (fun v => v / x_max) x_abs in
      ret (x_max * sqrt (np.sumsq x_scaled)).

(** [relative_error(x, x_ref)] for one-dimensional arrays and the
    default order. *)
Definition relative_error (x x_ref : list R) : M xfloat :=
  d <- np.subtract x x_ref ;;
  norm_diff <- vector_norm d ;;
  norm_ref <- vector_norm x_ref ;;
  if Reqb norm_ref 0
  then ret (if Rltb 0 norm_diff then Infinity else Finite 0)
  else ret (Finite (norm_diff / norm_ref)).

(** ** computational_complexity_model/implementation.py *)

(** [needle in haystack] for Python strings. *)
Fixpoint str_in (needle haystack : string) : bool :=
  String.prefix needle haystack ||
  match haystack with
  | EmptyString => false
  | String _ rest => str_in needle rest
  end.

(** [enumerate(xs)]. *)
Definition enumerate {A} (xs : list A) : list (nat * A) :=
  zip (seq 0 (length xs)) xs.

Definition estimate_complexity {P : Type} (func : P -> unit)
    (sizes : list Z) (setup_func : Z -> P) (n_runs : Z)
    : M (R * list Z * list R) :=
  let times := np.zeros (length sizes) in
  times <- for_in (enumerate sizes) (fun i_size times =>
    let i := fst i_size in
    let size := snd i_size in
    let run_times : list R := [] in
    run_times <- for_in (range 0 (Z.to_nat n_runs)) (fun _ run_times =>
      let problem := setup_func size in
      start <- perf_counter ;;
      let _ := func problem in
      stop <- perf_counter ;;
      let elapsed := stop - start in
      ret (run_times ++ [elapsed])) run_times ;;
    setitem times i (np.median run_times)) times ;;
  (* fit log(time) = log(c) + p*log(n) *)
  let log_sizes := np.log (map IZR sizes) in
  let log_times := np.log times in
  let A := zip_with (fun one l => [one; l])
             (replicate (length log_sizes) 1) log_sizes in
  coeffs <- np.linalg.lstsq A log_times ;;
  exponent <- getitem coeffs 1 ;;
  ret (exponent, sizes, times).

(** The descriptor parsing at the head of [verify_complexity]. *)
Definition parse_expected_complexity (expected_complexity : string) : M R :=
  if str_in "n^3" expected_complexity then ret 3
  else if str_in "n^2" expected_complexity then ret 2
  else if str_in "n" expected_complexity
          && negb (str_in "^" expected_complexity) then ret 1
  else raise (ValueError
         (String.append "Cannot parse complexity: " expected_complexity)).

(** The body of [verify_complexity] once the expected exponent is known. *)
Definition verify_against {P : Type} (func : P -> unit)
    (sizes : list Z) (setup_func : Z -> P) (expected_exp tolerance : R)
    : M bool :=
  est <- estimate_complexity func sizes setup_func 3 ;;
  let actual_exp := fst (fst est) in
  let deviation := Rabs (actual_exp - expected_exp) in
  let matches := Rltb deviation tolerance in
  print [Lit "Expected: "; Repr expected_exp;
         Lit ", Actual: "; Fix2 actual_exp;
         Lit ", Deviation: "; Fix2 deviation;
         Lit ", Match: "; Bool matches] ;;;
  ret matches.

Definition verify_complexity {P : Type} (func : P -> unit)
    (sizes : list Z) (setup_func : Z -> P) (expected_complexity : string)
    (tolerance : R) : M bool :=
  expected_exp <- parse_expected_complexity expected_complexity ;;
  verify_against func sizes setup_func expected_exp tolerance.

(** ** Default arguments

    A call that leaves an optional argument out passes [None] here and
    gets the default of the function's signature. *)

Definition finite_difference_gradient_opt (f : ScalarFunction) (x : list R)
    (epsilon : option R) (method : option string) : M (list R) :=
  finite_difference_gradient f x
    (default (1 / 100000) epsilon) (default "central"%string method).

Definition check_gradient_opt (f : ScalarFunction)
    (grad_f : list R -> list R) (x : list R) (epsilon tol : option R)
    (method : option string) (verbose : option bool) : M (bool * R) :=
  check_gradient f grad_f x
    (default (1 / 100000) epsilon) (default (1 / 10000) tol)
    (default "central"%string method) (default true verbose).

Definition finite_difference_hessian_opt (f : ScalarFunction) (x : list R)
    (epsilon : option R) : M (list (list R)) :=
  finite_difference_hessian f x (default (1 / 100000) epsilon).

Definition check_hessian_opt (f : ScalarFunction)
    (hess_f : list R -> list (list R)) (x : list R)
    (epsilon tol : option R) (verbose : option bool) : M (bool * R) :=
  check_hessian f hess_f x
    (default (1 / 10000) epsilon) (default (1 / 1000) tol)
    (default true verbose).

Definition gradient_consistency_check_opt (grad_f : list R -> list R)
    (x : list R) (n_samples : option Z) (epsilon : option R)
    (verbose : option bool) : M bool :=
  gradient_consistency_check grad_f x
    (default 10%Z n_samples) (default (1 / 10000000) epsilon)
    (default true verbose).

Definition estimate_complexity_opt {P : Type} (func : P -> unit)
    (sizes : list Z) (setup_func : Z -> P) (n_runs : option Z)
    : M (R * list Z * list R) :=
  estimate_complexity func sizes setup_func (default 3%Z n_runs).

Definition verify_complexity_opt {P : Type} (func : P -> unit)
    (sizes : list Z) (setup_func : Z -> P) (expected_complexity : string)
    (tolerance : option R) : M bool :=
  verify_complexity func sizes setup_func expected_complexity
    (default (3 / 10) tolerance).

(** ** What the properties speak of *)

(** The unit vector [e_i] of dimension [n]. *)
Definition unit_vector (n i : nat) : list R :=
  map (fun j => if (j =? i)%nat then 1 else 0) (seq 0 n).

(** [x + eps * e_i]. *)
Definition perturbed (x : list R) (i : nat) (eps : R) : list R :=
  zip_with Rplus x (map (Rmult eps) (unit_vector (length x) i)).

(** [x + (0 + 1j) * eps * e_i], a complex vector. *)
Definition perturbed_c (x : list R) (i : nat) (eps : R) : list complex :=
  zip_with (fun re im => (re, im)) x (map (Rmult eps) (unit_vector (length x) i)).

(** [a . v + b]. *)
Definition affine (a : list R) (b : R) (v : list R) : R :=
  np.sum (zip_with Rmult a v) + b.

(** [p] occurs in [s]. *)
Definition occurs (p s : string) : Prop :=
  exists u v, s = String.append u (String.append p v).

(** [H[i][j]], when both indices are in range. *)
Definition entry (H : list (list R)) (i j : nat) : option R :=
  match H !! i with
  | Some row => row !! j
  | None => None
  end.

(** The array a loop leaves when pass [i] stores [q i] at index [i]. *)
Definition fill (q : nat -> R) (g : list R) (idx : list nat) : list R :=
  foldl (fun g i => <[i := q i]> g) g idx.

(** The difference quotients of the three schemes. *)
Definition forward_quotient f x eps i : R :=
  (on_real f (perturbed x i eps) - on_real f x) / eps.

Definition central_quotient f x eps i : R :=
  (on_real f (perturbed x i eps) - on_real f (perturbed x i (- eps))) / (2 * eps).

Definition complex_quotient f x eps i : R :=
  snd (on_complex f (perturbed_c x i eps)) / eps.

(** The scheme names [finite_difference_gradient] dispatches on. *)
Definition recognised_schemes : list string :=
  ["forward"; "central"; "complex"]%string.

(** [H] with entry [(i, j)] replaced by [v]. *)
Definition mset (H : list (list R)) (i j : nat) (v : R) : list (list R) :=
  alter (fun row => <[j := v]> row) i H.

(** [H] is an [n] by [n] array. *)
Definition square (n : nat) (H : list (list R)) : Prop :=
  length H = n /\ Forall (fun row => length row = n) H.

(** [H[i][j] = H[j][i]] for all indices below [n]. *)
Definition symmetric (n : nat) (H : list (list R)) : Prop :=
  forall i j, (i < n)%nat -> (j < n)%nat ->
    exists v, entry H i j = Some v /\ entry H j i = Some v.

(** [m] returns normally in every world, with a result satisfying [P],
    and without evaluating the user's function. *)
Definition total {A} (m : M A) (P : A -> Prop) : Prop :=
  forall w, exists a w', m w = (Ok a, w') /\ P a /\ evals w' = evals w.

(** Successive readings of the clock strictly increase. *)
Definition increasing_clock (w : world) : Prop :=
  forall k, perf w k < perf w (S k).

(** ** Example inputs *)

(** A world in which nothing has happened yet. *)
Definition quiet_world : world :=
  mkWorld [] [] (fun k => INR k) 0 (fun _ => 0) 0.

(** [f(x) = x[0] * x[1]], also on complex arrays. *)
Definition product_function : ScalarFunction := {|
  on_real := fun v => nth 0 v 0 * nth 1 v 0;
  on_complex := fun z => Cmul (nth 0 z (0, 0)) (nth 1 z (0, 0))
|}.

(** [f(x) = x[0]^2 * x[1] + x[1]^3]. *)
Definition cubic_function : ScalarFunction := {|
  on_real := fun v => nth 0 v 0 ^ 2 * nth 1 v 0 + nth 1 v 0 ^ 3;
  on_complex := fun _ => (0, 0)
|}.

(** [f(x) = x[0] / 100000]: a function whose exact gradient is tiny but
    not zero. *)
Definition gentle_slope : ScalarFunction := {|
  on_real := fun v => nth 0 v 0 / 100000;
  on_complex := fun z => (fst (nth 0 z (0, 0)) / 100000,
                          snd (nth 0 z (0, 0)) / 100000)
|}.

(** A wrongly coded analytic gradient that is identically zero. *)
Definition zero_gradient (v : list R) : list R := np.zeros (length v).

(** [f(x) = x[0]^4], whose second difference depends on the step. *)
Definition quartic : ScalarFunction := {|
  on_real := fun v => nth 0 v 0 ^ 4;
  on_complex := fun _ => (0, 0)
|}.

(** [f(x) = 5] everywhere. *)
Definition constant_function : ScalarFunction := {|
  on_real := fun _ => 5;
  on_complex := fun _ => (5, 0)
|}.

(** ** The FLOP model of implementation.py

    Python integers are unbounded: they are [Z] here, [//] is the floor
    division [Z.div] and [range] runs over [Z]. *)

(** [range(lo, hi)] over Python integers. *)
Definition zrange (lo hi : Z) : list Z :=
  map (fun k => (lo + Z.of_nat k)%Z) (seq 0 (Z.to_nat (hi - lo))).

Definition count_dot_product_flops (n : Z) : Z :=
  let multiplications := n in
  let additions := (n - 1)%Z in
  (multiplications + additions)%Z.

Definition count_matvec_flops (m n : Z) : Z :=
  let flops_per_row := (2 * n)%Z in
  (m * flops_per_row)%Z.

Definition count_matmul_flops (m n k : Z) : Z :=
  let flops_per_entry := (2 * k)%Z in
  let total_entries := (m * n)%Z in
  (flops_per_entry * total_entries)%Z.

Definition count_triangular_solve_flops (n : Z) : Z :=
  fold_left (fun total i => (total + (2 * (i - 1) + 1))%Z)
    (zrange 1 (n + 1)) 0%Z.

Definition count_lu_flops (n : Z) : Z :=
  fold_left (fun total k => (total + (n - k) + 2 * (n - k) ^ 2)%Z)
    (zrange 0 (n - 1)) 0%Z.

Definition count_cholesky_flops (n : Z) : Z :=
  (count_lu_flops n / 2)%Z.

Definition count_qr_flops (m n : Z) : Z :=
  (2 * m * n ^ 2 - (2 * n ^ 3) / 3)%Z.

(** [FlopCounter]: the object is its [count] attribute, a method is a
    function from the object before the call to the object after it. *)
Record FlopCounter : Type := { count : Z }.

Module FlopCounter_.

Definition init : FlopCounter := {| count := 0 |}.
Definition enter (self : FlopCounter) : FlopCounter := {| count := 0 |}.
Definition exit (self : FlopCounter) : FlopCounter := self.
Definition add (self : FlopCounter) : FlopCounter :=
  {| count := (count self + 1)%Z |}.
Definition multiply (self : FlopCounter) : FlopCounter :=
  {| count := (count self + 1)%Z |}.
Definition divide (self : FlopCounter) : FlopCounter :=
  {| count := (count self + 1)%Z |}.
Definition sqrt (self : FlopCounter) : FlopCounter :=
  {| count := (count self + 1)%Z |}.
Definition dot (self : FlopCounter) (n : Z) : FlopCounter :=
  {| count := (count self + 2 * n)%Z |}.
Definition matvec (self : FlopCounter) (m n : Z) : FlopCounter :=
  {| count := (count self + count_matvec_flops m n)%Z |}.

End FlopCounter_.

(** [d.get(k)] on a dict given as its items in insertion order. *)
Fixpoint dict_get {V : Type} (d : list (string * V)) (k : string) : option V :=
  match d with
  | [] => None
  | (k', v) :: d' => if String.eqb k k' then Some v else dict_get d' k
  end.

(** The value of a 64-bit signed integer after wrap-around. *)
Definition wrap64 (z : Z) : Z :=
  ((z + 2 ^ 63) mod 2 ^ 64 - 2 ^ 63)%Z.

(** [np.prod(shape)] for a tuple of integers that fit 64 bits: the
    product in [int64], which wraps around silently. (For the empty
    tuple numpy returns the float [1.0]; the byte count is the same.) *)
Definition prod_int64 (shape : list Z) : Z :=
  fold_left (fun acc d => wrap64 (acc * d)) shape 1%Z.

Definition bytes_per_element : list (string * Z) :=
  [("float32", 4); ("float64", 8); ("int32", 4); ("int64", 8)]%Z%string.

Definition count_memory_bytes (dtype : string) (shape : list Z) : M Z :=
  match dict_get bytes_per_element dtype with
  | None => raise (ValueError (String.append "Unknown dtype: " dtype))
  | Some size =>
      let total_elements := prod_int64 shape in
      ret (wrap64 (total_elements * size))
  end.

Definition compute_gflops (flops : Z) (time_seconds : R) : R :=
  IZR flops / time_seconds / 1000000000.

(** [np.random.randn(d0, ..., dk)]: a negative dimension raises;
    otherwise the next [d0 * ... * dk] draws, in row-major order. *)
Definition randn_shape (dims : list Z) : M (list R) :=
  if existsb (fun d => (d <? 0)%Z) dims
  then raise (ValueError "negative dimensions are not allowed")
  else np.random.randn (Z.to_nat (fold_right Z.mul 1%Z dims)).

(** The dict [benchmark_operation] returns. *)
Record benchmark_result : Type := {
  bench_operation : string;   (* 'operation' *)
  bench_size : Z;             (* 'size' *)
  bench_flops : Z;            (* 'flops' *)
  bench_time_seconds : R;     (* 'time_seconds' *)
  bench_gflops : R            (* 'gflops' *)
}.

(** [benchmark_operation]. The products [np.dot(x, y)], [A @ x] and
    [A @ B] are computed and dropped; the shapes being equal by
    construction they cannot raise, so [func()] is a step without
    result. *)
Definition benchmark_operation (operation : string) (n : Z) (n_runs : Z)
    : M benchmark_result :=
  flops <-
    (if String.eqb operation "dot_product" then
       x <- randn_shape [n] ;;
       y <- randn_shape [n] ;;
       ret (count_dot_product_flops n)
     else if String.eqb operation "matvec" then
       A <- randn_shape [n; n] ;;
       x <- randn_shape [n] ;;
       ret (count_matvec_flops n n)
     else if String.eqb operation "matmul" then
       A <- randn_shape [n; n] ;;
       B <- randn_shape [n; n] ;;
       ret (count_matmul_flops n n n)
     else raise (ValueError (String.append "Unknown operation: " operation))) ;;
  let func : M unit := ret tt in
  (* warm-up *)
  func ;;;
  (* time *)
  let times : list R := [] in
  times <- for_in (range 0 (Z.to_nat n_runs)) (fun _ times =>
    start <- perf_counter ;;
    func ;;;
    stop <- perf_counter ;;
    let elapsed := stop - start in
    ret (times ++ [elapsed])) times ;;
  let median_time := np.median times in
  let gflops := compute_gflops flops median_time in
  ret {| bench_operation := operation; bench_size := n;
         bench_flops := flops; bench_time_seconds := median_time;
         bench_gflops := gflops |}.

(** The names [benchmark_operation] knows, with their FLOP counts for
    size [n]. *)
Definition benchmark_flops (n : Z) : list (string * Z) :=
  [("dot_product", count_dot_product_flops n);
   ("matvec", count_matvec_flops n n);
   ("matmul", count_matmul_flops n n n)]%string.

(** How many random numbers each benchmark draws for size [n]. *)
Definition benchmark_draws (n : Z) : list (string * Z) :=
  [("dot_product", 2 * n); ("matvec", n * n + n);
   ("matmul", 2 * (n * n))]%Z%string.

(** ** The other orders of utils/norms.py *)

(** The orders [vector_norm] has a branch of its own for: [p == 1],
    [p == 2], [p == np.inf], [p == 0]. (Any other [p] takes the generic
    power branch, which is not modelled.) *)
Inductive vector_order : Type := P1 | P2 | PInf | P0.

(** [np.sum(x != 0)], as a float. *)
Definition count_nonzero (x : list R) : R :=
  INR (length (List.filter (fun v => negb (Reqb v 0)) x)).

(** [vector_norm(x, p)]; for [p == 2] the body is [vector_norm] above. *)
Definition vector_norm_p (x : list R) (p : vector_order) : M R :=
  if (length x =? 0)%nat then ret 0
  else
    match p with
    | P1 => ret (np.sum (np.abs x))
    | P2 => vector_norm x
    | PInf => np.max (np.abs x)
    | P0 => ret (count_nonzero x)
    end.

(** The [ord] argument of [matrix_norm]: ['fro'], [1], [2], [np.inf],
    or anything else (given by its text in the error message). *)
Inductive matrix_order : Type :=
  | OrdFro
  | Ord1
  | Ord2
  | OrdInf
  | OrdOther (text : string).

(** [A.size] of a matrix given by its rows. *)
Definition matrix_size (A : list (list R)) : nat := length (concat A).

(** [np.sum(B, axis=0)]: the sums of the columns. *)
Definition column_sums (B : list (list R)) : list R :=
  match B with
  | [] => []
  | row :: rows => fold_left (zip_with Rplus) rows row
  end.

(** [np.sum(B, axis=1)]: the sums of the rows. *)
Definition row_sums (B : list (list R)) : list R := map np.sum B.

(** [matrix_norm(A, ord)]. The singular values, which
    [np.linalg.svd(A, compute_uv=False)] computes, are an argument. *)
Definition matrix_norm (singular_values : list (list R) -> list R)
    (A : list (list R)) (ord : matrix_order) : M R :=
  if (matrix_size A =? 0)%nat then ret 0
  else
    match ord with
    | OrdFro =>
        ret (sqrt (np.sum (map (fun row =>
               np.sum (map (fun v => Rabs v ^ 2) row)) A)))
    | Ord1 => np.max (column_sums (map np.abs A))
    | Ord2 => getitem (singular_values A) 0
    | OrdInf => np.max (row_sums (map np.abs A))
    | OrdOther text =>
        raise (ValueError (String.append "Unsupported matrix norm: " text))
    end.

(** [A @ x] for a matrix and a vector: the rows must be as long as [x]. *)
Definition matmul_vec (A : list (list R)) (x : list R) : M (list R) :=
  if forallb (fun row => (length row =? length x)%nat) A
  then ret (map (fun row => np.sum (zip_with Rmult row x)) A)
  else raise (ValueError "matmul: Input operand 1 has a mismatch in its core dimension 0").

Definition relative_residual (A : list (list R)) (x b : list R) : M R :=
  Ax <- matmul_vec A x ;;
  residual <- np.subtract Ax b ;;
  norm_residual <- vector_norm residual ;;
  norm_b <- vector_norm b ;;
  ret (norm_residual / norm_b).

(** ** More functions to differentiate *)

(** [a . z + b] on a complex vector: the complex extension of [affine]. *)
Definition affine_c (a : list R) (b : R) (z : list complex) : complex :=
  (np.sum (zip_with Rmult a (map fst z)) + b,
   np.sum (zip_with Rmult a (map snd z))).

(** The affine function [x |-> a . x + b] as a Python callable. *)
Definition affine_function (a : list R) (b : R) : ScalarFunction := {|
  on_real := affine a b;
  on_complex := affine_c a b
|}.

(** [m] returns normally in every world, with a result satisfying [P],
    and leaves the world as it was but for the lines it prints. *)
Definition prints_only {A} (m : M A) (P : A -> Prop) : Prop :=
  forall w, exists a out, m w = (Ok a, add_stdout out w) /\ P a.

(** ** The Hessian formulas *)

(** The central second difference along coordinate [i]. *)
Definition hess_diag (f : ScalarFunction) (x : list R) (eps : R) (i : nat) : R :=
  (on_real f (perturbed x i eps) - 2 * on_real f x
   + on_real f (perturbed x i (- eps))) / eps ^ 2.

(** The four-point mixed difference along coordinates [i] and [j]. *)
Definition hess_off (f : ScalarFunction) (x : list R) (eps : R) (i j : nat) : R :=
  (on_real f (perturbed (perturbed x i eps) j eps)
   - on_real f (perturbed (perturbed x i eps) j (- eps))
   - on_real f (perturbed (perturbed x i (- eps)) j eps)
   + on_real f (perturbed (perturbed x i (- eps)) j (- eps)))
  / (4 * eps ^ 2).

(** Entry [(i, j)] of the estimate: the second difference on the
    diagonal, the mixed difference of the pair taken in increasing
    order elsewhere. *)
Definition hessian_entry (f : ScalarFunction) (x : list R) (eps : R)
    (i j : nat) : R :=
  if (i =? j)%nat then hess_diag f x eps i
  else hess_off f x eps (Nat.min i j) (Nat.max i j).

(** [u . v]. *)
Definition vdot (u v : list R) : R := np.sum (zip_with Rmult u v).

(** [Q v]. *)
Definition mat_vec (Q : list (list R)) (v : list R) : list R :=
  map (fun row => vdot row v) Q.

(** [v . Q v / 2 + c . v + d]. *)
Definition quadratic (Q : list (list R)) (c : list R) (d : R) (v : list R) : R :=
  vdot v (mat_vec Q v) / 2 + vdot c v + d.

(** The quadratic function above as a Python callable (on float
    arrays). *)
Definition quadratic_function (Q : list (list R)) (c : list R) (d : R)
    : ScalarFunction := {|
  on_real := quadratic Q c d;
  on_complex := fun _ => (0, 0)
|}.

(** ** directional_derivative_check *)

(** [np.dot(u, v)] for one-dimensional arrays: the lengths must agree. *)
Definition np_dot (u v : list R) : M R :=
  if (length u =? length v)%nat then ret (vdot u v)
  else raise (ValueError "shapes not aligned").

(** [np.logspace(start, stop, num)] for [num >= 2]: the powers of ten
    with [num] evenly spaced exponents from [start] to [stop]. *)
Definition np_logspace (start stop : R) (num : nat) : list R :=
  map (fun k => Rpower 10 (start + INR k * ((stop - start) / INR (num - 1))))
      (seq 0 num).

Definition tick_text (ok : bool) : string :=
  if ok then "✓" else "✗".

(** [directional_derivative_check]. In the report the field widths of
    the row format ([{alpha:>12.6e}] and the like) are not represented:
    a row is its three values. *)
Definition directional_derivative_check (f : ScalarFunction)
    (grad_f : list R -> list R) (x d : list R) (alphas : option (list R))
    (verbose : bool) : M (list R) :=
  let alphas := match alphas with
                | None => np_logspace (-1) (-8) 15
                | Some alphas => alphas
                end in
  f0 <- call_real f x ;;
  let grad_x := grad_f x in
  directional_deriv <- np_dot grad_x d ;;
  let errors : list R := [] in
  errors <- for_in alphas (fun alpha errors =>
    x_alpha <- np.add x (np.scale alpha d) ;;
    f_alpha <- call_real f x_alpha ;;
    let predicted := f0 + alpha * directional_deriv in
    let error := Rabs (f_alpha - predicted) in
    (* normalize by |f(x + alpha d) - f(x)| *)
    let diff := Rabs (f_alpha - f0) in
    let relative_error := if Rltb 0 diff then error / diff else error in
    ret (errors ++ [relative_error])) errors ;;
  (if verbose then
     print [Lit (str_repeat "=" 60)] ;;;
     print [Lit "DIRECTIONAL DERIVATIVE CHECK"] ;;;
     print [Lit (str_repeat "=" 60)] ;;;
     print [Lit "       Alpha  Relative Error     Status"] ;;;
     print [Lit (str_repeat "-" 60)] ;;;
     for_in (zip alphas errors) (fun alpha_error (_ : unit) =>
       let alpha := fst alpha_error in
       let error := snd alpha_error in
       let status := tick_text (Rltb error (1 / 100)) in
       print [Sci6 alpha; Lit " "; Sci6 error; Lit " "; Lit status]) tt ;;;
     print [Lit (str_repeat "=" 60)] ;;;
     print [Lit "Note: Error should decrease linearly with alpha"] ;;;
     print [Lit (str_repeat "=" 60)]
   else ret tt) ;;;
  ret errors.

(** The relative error of the first-order Taylor prediction at step
    [alpha], as the loop of [directional_derivative_check] computes it. *)
Definition taylor_error (f : ScalarFunction) (grad_f : list R -> list R)
    (x d : list R) (alpha : R) : R :=
  let f_alpha := on_real f (zip_with Rplus x (np.scale alpha d)) in
  let predicted := on_real f x + alpha * vdot (grad_f x) d in
  let error := Rabs (f_alpha - predicted) in
  let diff := Rabs (f_alpha - on_real f x) in
  if Rltb 0 diff then error / diff else error.

(** [f(x) = sum(x_i^2)] and its gradient [2 x]. *)
Definition sum_of_squares : ScalarFunction := {|
  on_real := np.sumsq;
  on_complex := fun _ => (0, 0)
|}.

Definition sum_of_squares_gradient (v : list R) : list R := np.scale 2 v.


(** * Proofs *)

(** ** The monad *)

Lemma map_fmap {A B} (f : A -> B) (l : list A) : map f l = f <$> l.
Proof. reflexivity. Qed.

Lemma add_evals_nil w : add_evals [] w = w.
Proof. destruct w; unfold add_evals; simpl. now rewrite app_nil_r. Qed.

Lemma add_evals_app c1 c2 w :
  add_evals c2 (add_evals c1 w) = add_evals (c1 ++ c2) w.
Proof. unfold add_evals; simpl. now rewrite app_assoc. Qed.

Lemma bind_ok {A B} (m : M A) (k : A -> M B) w a w' :
  m w = (Ok a, w') -> bind m k w = k a w'.
Proof. unfold bind. now intros ->. Qed.

Lemma bind_raise {A B} (m : M A) (k : A -> M B) w e w' :
  m w = (Raise e, w') -> bind m k w = (Raise e, w').
Proof. unfold bind. now intros ->. Qed.

Lemma getitem_ok {A} (a : list A) i v w :
  a !! i = Some v -> getitem a i w = (Ok v, w).
Proof. unfold getitem. now intros ->. Qed.

Lemma setitem_ok {A} (a : list A) i (v : A) w :
  (i < length a)%nat -> setitem a i v w = (Ok (<[i := v]> a), w).
Proof.
  intros Hi. unfold setitem.
  destruct (Nat.ltb_spec i (length a)); [reflexivity | lia].
Qed.

(** ** Perturbing one coordinate *)

Lemma lookup_unit_vector n i j :
  (j < n)%nat ->
  unit_vector n i !! j = Some (if (j =? i)%nat then 1 else 0).
Proof.
  intros Hj. unfold unit_vector. rewrite map_fmap, list_lookup_fmap.
  rewrite lookup_seq_lt by lia. reflexivity.
Qed.

Lemma length_unit_vector n i : length (unit_vector n i) = n.
Proof. unfold unit_vector. now rewrite length_map, length_seq. Qed.

Lemma lookup_perturbed x i eps j v :
  x !! j = Some v ->
  perturbed x i eps !! j = Some (if (j =? i)%nat then v + eps else v).
Proof.
  intros Hv. unfold perturbed.
  rewrite lookup_zip_with, Hv. simpl.
  rewrite map_fmap, list_lookup_fmap, lookup_unit_vector
    by (eapply lookup_lt_Some; eauto).
  simpl. f_equal. destruct (j =? i)%nat; lra.
Qed.

Lemma length_perturbed x i eps : length (perturbed x i eps) = length x.
Proof.
  unfold perturbed.
  rewrite length_zip_with, length_map, length_unit_vector. lia.
Qed.

Lemma insert_perturbed x i v eps :
  x !! i = Some v -> <[i := v + eps]> x = perturbed x i eps.
Proof.
  intros Hv. apply list_eq. intros j.
  destruct (x !! j) as [u|] eqn:Hj.
  - rewrite (lookup_perturbed _ _ _ _ _ Hj).
    destruct (Nat.eqb_spec j i) as [->|Hne].
    + rewrite list_lookup_insert_eq by (eapply lookup_lt_Some; eauto).
      congruence.
    + rewrite list_lookup_insert_ne by congruence. exact Hj.
  - rewrite !(proj2 (lookup_ge_None _ _)); auto.
    + rewrite length_perturbed. now apply lookup_ge_None.
    + rewrite length_insert. now apply lookup_ge_None.
Qed.

Lemma iadd_item_perturbed x i eps w :
  (i < length x)%nat -> iadd_item x i eps w = (Ok (perturbed x i eps), w).
Proof.
  intros Hi. destruct (lookup_lt_is_Some_2 x i Hi) as [v Hv].
  unfold iadd_item. rewrite (bind_ok _ _ _ _ _ (getitem_ok _ _ _ w Hv)).
  rewrite setitem_ok by exact Hi. now rewrite (insert_perturbed _ _ _ _ Hv).
Qed.

Lemma isub_item_perturbed x i eps w :
  (i < length x)%nat -> isub_item x i eps w = (Ok (perturbed x i (- eps)), w).
Proof.
  intros Hi. destruct (lookup_lt_is_Some_2 x i Hi) as [v Hv].
  unfold isub_item. rewrite (bind_ok _ _ _ _ _ (getitem_ok _ _ _ w Hv)).
  rewrite setitem_ok by exact Hi.
  now rewrite <- (insert_perturbed _ _ _ _ Hv).
Qed.

(** ** Loops that fill an array entry by entry *)

Lemma length_fill q idx : forall g, length (fill q g idx) = length g.
Proof.
  induction idx as [|i idx IH]; intros g; simpl; [reflexivity|].
  unfold fill in *. simpl. now rewrite IH, length_insert.
Qed.

Lemma in_range_reflect (a i b : nat) :
  reflect (a <= i < b)%nat ((a <=? i) && (i <? b))%nat.
Proof.
  apply iff_reflect. rewrite andb_true_iff, Nat.leb_le, Nat.ltb_lt. tauto.
Qed.

Lemma lookup_fill_seq q k : forall a g i,
  (a + k <= length g)%nat ->
  fill q g (seq a k) !! i =
    if ((a <=? i) && (i <? a + k))%nat then Some (q i) else g !! i.
Proof.
  induction k as [|k IH]; intros a g i Hlen.
  - simpl. destruct (in_range_reflect a i (a + 0)); [lia | reflexivity].
  - unfold fill in *. simpl. rewrite IH by (rewrite length_insert; lia).
    destruct (in_range_reflect (S a) i (S a + k)),
             (in_range_reflect a i (a + S k)); try lia.
    + reflexivity.
    + assert (i = a) as -> by lia.
      now rewrite list_lookup_insert_eq by lia.
    + rewrite list_lookup_insert_ne by lia. reflexivity.
Qed.

Lemma for_in_fill (q : nat -> R) (c : nat -> list call)
    (body : nat -> list R -> M (list R)) (n : nat) :
  (forall i g w, (i < n)%nat -> length g = n ->
     body i g w = (Ok (<[i := q i]> g), add_evals (c i) w)) ->
  forall k a g w, (a + k <= n)%nat -> length g = n ->
    for_in (seq a k) body g w =
      (Ok (fill q g (seq a k)), add_evals (concat (map c (seq a k))) w).
Proof.
  intros Hbody. induction k as [|k IH]; intros a g w Hak Hg; simpl.
  - unfold ret. now rewrite add_evals_nil.
  - erewrite bind_ok by (apply Hbody; [lia | exact Hg]).
    rewrite IH by (rewrite ?length_insert; lia).
    now rewrite add_evals_app.
Qed.

Lemma range_0 n : range 0 n = seq 0 n.
Proof. unfold range. now rewrite Nat.sub_0_r. Qed.

Lemma lookup_fill_zeros q n i :
  (i < n)%nat -> fill q (np.zeros n) (seq 0 n) !! i = Some (q i).
Proof.
  intros Hi. rewrite lookup_fill_seq by (unfold np.zeros; rewrite length_replicate; lia).
  destruct (in_range_reflect 0 i (0 + n)); [reflexivity | lia].
Qed.

(** ** The three schemes, as the loops compute them *)

Lemma forward_run f x eps w :
  finite_difference_gradient f x eps "forward" w =
    (Ok (fill (forward_quotient f x eps) (np.zeros (length x)) (seq 0 (length x))),
     add_evals (EvalReal x ::
                map (fun i => EvalReal (perturbed x i eps)) (seq 0 (length x))) w).
Proof.
  unfold finite_difference_gradient. simpl.
  unfold bind at 1. unfold call_real at 1. rewrite range_0.
  rewrite (for_in_fill (forward_quotient f x eps)
             (fun i => [EvalReal (perturbed x i eps)]) _ (length x)).
  - rewrite add_evals_app. do 2 f_equal. simpl. f_equal.
    induction (seq 0 (length x)); simpl; congruence.
  - intros i g w0 Hi Hg.
    erewrite bind_ok by (now apply iadd_item_perturbed).
    unfold bind, call_real. rewrite setitem_ok by lia. reflexivity.
  - lia.
  - unfold np.zeros. now rewrite length_replicate.
Qed.

Lemma central_run f x eps w :
  finite_difference_gradient f x eps "central" w =
    (Ok (fill (central_quotient f x eps) (np.zeros (length x)) (seq 0 (length x))),
     add_evals (concat (map (fun i => [EvalReal (perturbed x i eps);
                                        EvalReal (perturbed x i (- eps))])
                            (seq 0 (length x)))) w).
Proof.
  unfold finite_difference_gradient. simpl. rewrite range_0.
  rewrite (for_in_fill (central_quotient f x eps)
             (fun i => [EvalReal (perturbed x i eps);
                        EvalReal (perturbed x i (- eps))]) _ (length x)).
  - reflexivity.
  - intros i g w0 Hi Hg.
    erewrite bind_ok by (now apply iadd_item_perturbed).
    erewrite bind_ok by (now apply isub_item_perturbed).
    unfold bind, call_real. rewrite setitem_ok by lia.
    now rewrite add_evals_app.
  - lia.
  - unfold np.zeros. now rewrite length_replicate.
Qed.

Lemma lookup_perturbed_c x i eps j v :
  x !! j = Some v ->
  perturbed_c x i eps !! j = Some (v, if (j =? i)%nat then eps else 0).
Proof.
  intros Hv. unfold perturbed_c.
  rewrite lookup_zip_with, Hv. simpl.
  rewrite map_fmap, list_lookup_fmap, lookup_unit_vector
    by (eapply lookup_lt_Some; eauto).
  simpl. do 2 f_equal. destruct (j =? i)%nat; lra.
Qed.

Lemma length_perturbed_c x i eps : length (perturbed_c x i eps) = length x.
Proof.
  unfold perturbed_c.
  rewrite length_zip_with, length_map, length_unit_vector. lia.
Qed.

Lemma iadd_item_c_perturbed x i eps w :
  (i < length x)%nat ->
  iadd_item_c (np.astype_complex x) i (Cmul Ci (RtoC eps)) w =
    (Ok (perturbed_c x i eps), w).
Proof.
  intros Hi. destruct (lookup_lt_is_Some_2 x i Hi) as [v Hv].
  assert (Hz : np.astype_complex x !! i = Some (RtoC v)).
  { unfold np.astype_complex. now rewrite map_fmap, list_lookup_fmap, Hv. }
  unfold iadd_item_c. rewrite (bind_ok _ _ _ _ _ (getitem_ok _ _ _ w Hz)).
  rewrite setitem_ok
    by (unfold np.astype_complex; rewrite length_map; exact Hi).
  do 2 f_equal. apply list_eq. intros j.
  destruct (x !! j) as [u|] eqn:Hj.
  - rewrite (lookup_perturbed_c _ _ _ _ _ Hj).
    destruct (Nat.eqb_spec j i) as [->|Hne].
    + rewrite list_lookup_insert_eq
        by (unfold np.astype_complex; rewrite length_map; exact Hi).
      assert (u = v) as -> by congruence.
      unfold Cadd, Cmul, Ci, RtoC. simpl. do 2 f_equal; lra.
    + rewrite list_lookup_insert_ne by congruence.
      unfold np.astype_complex. now rewrite map_fmap, list_lookup_fmap, Hj.
  - rewrite !(proj2 (lookup_ge_None _ _)); auto.
    + rewrite length_perturbed_c. now apply lookup_ge_None.
    + rewrite length_insert. unfold np.astype_complex.
      rewrite length_map. now apply lookup_ge_None.
Qed.

Lemma complex_run f x eps w :
  finite_difference_gradient f x eps "complex" w =
    (Ok (fill (complex_quotient f x eps) (np.zeros (length x)) (seq 0 (length x))),
     add_evals (concat (map (fun i => [EvalComplex (perturbed_c x i eps)])
                            (seq 0 (length x)))) w).
Proof.
  unfold finite_difference_gradient. simpl. rewrite range_0.
  rewrite (for_in_fill (complex_quotient f x eps)
             (fun i => [EvalComplex (perturbed_c x i eps)]) _ (length x)).
  - reflexivity.
  - intros i g w0 Hi Hg.
    erewrite bind_ok by (now apply iadd_item_c_perturbed).
    unfold bind, call_complex. rewrite setitem_ok by lia. reflexivity.
  - lia.
  - unfold np.zeros. now rewrite length_replicate.
Qed.

Lemma length_fill_zeros q n : length (fill q (np.zeros n) (seq 0 n)) = n.
Proof. rewrite length_fill. unfold np.zeros. now rewrite length_replicate. Qed.

Lemma unknown_method_run f x eps method w :
  ~ In method recognised_schemes ->
  finite_difference_gradient f x eps method w =
    (Raise (ValueError (String.append "Unknown method: " method)), w).
Proof.
  intros Hnot. unfold finite_difference_gradient.
  destruct (String.eqb_spec method "forward") as [->|_].
  { exfalso. apply Hnot. simpl. auto. }
  destruct (String.eqb_spec method "central") as [->|_].
  { exfalso. apply Hnot. simpl. auto. }
  destruct (String.eqb_spec method "complex") as [->|_].
  { exfalso. apply Hnot. simpl. auto. }
  reflexivity.
Qed.

(** ** Dispatch on the scheme name *)

(** C7. A method string that is none of ['forward'], ['central'],
    ['complex'] makes [finite_difference_gradient] raise the
    unknown-method [ValueError] (before any evaluation of [f], whatever
    the dimension of [x]); each of the three recognised names does not
    raise it, and with a nonzero step returns a gradient of the
    dimension of [x]. *)
Theorem finite_difference_gradient_invalid_scheme
    (f : ScalarFunction) (x : list R) (eps : R) (method : string) (w : world) :
  (~ In method recognised_schemes ->
     finite_difference_gradient f x eps method w =
       (Raise (ValueError (String.append "Unknown method: " method)), w)) /\
  (In method recognised_schemes ->
     fst (finite_difference_gradient f x eps method w) <>
       Raise (ValueError (String.append "Unknown method: " method)) /\
     (eps <> 0 ->
        exists grad w',
          finite_difference_gradient f x eps method w = (Ok grad, w') /\
          length grad = length x)).
Proof.
  split.
  - apply unknown_method_run.
  - simpl. intros [<-|[<-|[<-|[]]]].
    + rewrite forward_run. split; [discriminate|]. intros _.
      eexists _, _. split; [reflexivity|]. apply length_fill_zeros.
    + rewrite central_run. split; [discriminate|]. intros _.
      eexists _, _. split; [reflexivity|]. apply length_fill_zeros.
    + rewrite complex_run. split; [discriminate|]. intros _.
      eexists _, _. split; [reflexivity|]. apply length_fill_zeros.
Qed.

Lemma finite_difference_gradient_invalid_scheme_witness :
  finite_difference_gradient product_function [1; 2] (1 / 100000)
    "newton" quiet_world =
    (Raise (ValueError "Unknown method: newton"), quiet_world) /\
  exists grad w',
    finite_difference_gradient product_function [1; 2] (1 / 100000)
      "central" quiet_world = (Ok grad, w') /\
    length grad = 2%nat.
Proof.
  split.
  - apply (proj1 (finite_difference_gradient_invalid_scheme
                    product_function [1; 2] (1 / 100000) "newton" quiet_world)).
    unfold recognised_schemes. simpl. intros [H|[H|[H|[]]]]; discriminate H.
  - apply (proj2 (finite_difference_gradient_invalid_scheme
                    product_function [1; 2] (1 / 100000) "central" quiet_world)).
    + unfold recognised_schemes. simpl. auto.
    + lra.
Defined.

(** ** The difference quotients *)

Lemma perturbed_ne x j eps :
  eps <> 0 -> (j < length x)%nat -> perturbed x j eps <> x.
Proof.
  intros He Hj Heq. destruct (lookup_lt_is_Some_2 x j Hj) as [v Hv].
  pose proof (lookup_perturbed x j eps j v Hv) as Hp.
  rewrite Heq, Hv, Nat.eqb_refl in Hp. injection Hp. lra.
Qed.

(** C3. Component [i] of the gradient returned by
    [finite_difference_gradient] is the difference quotient of the
    selected scheme: [(f(x + eps e_i) - f(x)) / eps] for ['forward'],
    where [f] is evaluated at the base point [x] once, before the loop,
    and at no other time (the evaluations are [x] and then the [n]
    perturbed points, none of which is [x]);
    [(f(x + eps e_i) - f(x - eps e_i)) / (2 eps)] for ['central'];
    [Im(f(x + i eps e_i)) / eps] for ['complex']. *)
Theorem finite_difference_gradient_quotients
    (f : ScalarFunction) (x : list R) (eps : R) (w : world) (i : nat) :
  0 < eps -> (i < length x)%nat ->
  (exists grad w',
     finite_difference_gradient f x eps "forward" w = (Ok grad, w') /\
     grad !! i =
       Some ((on_real f (perturbed x i eps) - on_real f x) / eps) /\
     evals w' =
       evals w ++ EvalReal x ::
         map (fun j => EvalReal (perturbed x j eps)) (seq 0 (length x)) /\
     Forall (fun c => c <> EvalReal x)
       (map (fun j => EvalReal (perturbed x j eps)) (seq 0 (length x)))) /\
  (exists grad w',
     finite_difference_gradient f x eps "central" w = (Ok grad, w') /\
     grad !! i =
       Some ((on_real f (perturbed x i eps)
              - on_real f (perturbed x i (- eps))) / (2 * eps))) /\
  (exists grad w',
     finite_difference_gradient f x eps "complex" w = (Ok grad, w') /\
     grad !! i = Some (np.imag (on_complex f (perturbed_c x i eps)) / eps)).
Proof.
  intros Heps Hi. repeat split.
  - rewrite forward_run. eexists _, _. repeat split.
    + now rewrite lookup_fill_zeros.
    + apply Forall_forall. intros c Hc. apply list_elem_of_In in Hc.
      apply in_map_iff in Hc as (j & <- & Hj). apply in_seq in Hj.
      intros Heq. injection Heq. apply perturbed_ne; [lra | lia].
  - rewrite central_run. eexists _, _. split; [reflexivity|].
    now rewrite lookup_fill_zeros.
  - rewrite complex_run. eexists _, _. split; [reflexivity|].
    now rewrite lookup_fill_zeros.
Qed.

Lemma finite_difference_gradient_quotients_witness :
  exists grad w',
    finite_difference_gradient product_function [1; 2] (1 / 100000)
      "central" quiet_world = (Ok grad, w') /\
    grad !! 0%nat =
      Some ((on_real product_function (perturbed [1; 2] 0 (1 / 100000))
             - on_real product_function (perturbed [1; 2] 0 (- (1 / 100000))))
            / (2 * (1 / 100000))).
Proof.
  apply (finite_difference_gradient_quotients
           product_function [1; 2] (1 / 100000) quiet_world 0).
  - lra.
  - simpl. lia.
Defined.

(** ** Affine functions *)

Lemma sum_zip_insert : forall (a x : list R) (i : nat) (ai v u : R),
  a !! i = Some ai -> x !! i = Some v ->
  np.sum (zip_with Rmult a (<[i := u]> x)) =
    np.sum (zip_with Rmult a x) + ai * (u - v).
Proof.
  induction a as [|a0 a IH]; intros x i ai v u Ha Hx; [discriminate|].
  destruct x as [|x0 x]; [discriminate|].
  destruct i as [|i]; simpl in *.
  - injection Ha as ->. injection Hx as ->. unfold np.sum. simpl. lra.
  - unfold np.sum in *. simpl.
    rewrite (IH x i ai v u Ha Hx). lra.
Qed.

Lemma affine_perturbed a b x i ai eps :
  a !! i = Some ai -> (i < length x)%nat ->
  affine a b (perturbed x i eps) = affine a b x + ai * eps.
Proof.
  intros Ha Hi. destruct (lookup_lt_is_Some_2 x i Hi) as [v Hv].
  rewrite <- (insert_perturbed x i v eps Hv). unfold affine.
  rewrite (sum_zip_insert a x i ai v (v + eps) Ha Hv). lra.
Qed.

(** C8. For an affine [f(x) = a . x + b] the central-difference
    gradient is the coefficient vector [a] itself, in exact (real)
    arithmetic, whatever the step [eps > 0]. *)
Theorem central_gradient_of_affine
    (a : list R) (b : R) (g : list complex -> complex)
    (x : list R) (eps : R) (w : world) :
  0 < eps -> length a = length x ->
  fst (finite_difference_gradient
         {| on_real := affine a b; on_complex := g |} x eps "central" w)
  = Ok a.
Proof.
  intros Heps Hlen. rewrite central_run. simpl. f_equal.
  apply list_eq. intros i.
  destruct (a !! i) as [ai|] eqn:Ha.
  - assert (Hi : (i < length x)%nat)
      by (rewrite <- Hlen; eapply lookup_lt_Some; eauto).
    rewrite lookup_fill_zeros by exact Hi. f_equal.
    unfold central_quotient. simpl.
    rewrite !(affine_perturbed a b x i ai) by assumption.
    field. lra.
  - apply lookup_ge_None. rewrite length_fill_zeros.
    apply lookup_ge_None in Ha. lia.
Qed.

Lemma central_gradient_of_affine_witness :
  fst (finite_difference_gradient
         {| on_real := affine [3; -2] 7; on_complex := fun _ => (0, 0) |}
         [1; 5] (1 / 100000) "central" quiet_world)
  = Ok [3; -2].
Proof.
  apply (central_gradient_of_affine [3; -2] 7 (fun _ => (0, 0)) [1; 5]
           (1 / 100000) quiet_world).
  - lra.
  - reflexivity.
Defined.

(** ** Loop invariants *)

Lemma for_in_invariant {A S : Type} (P : S -> Prop) (Q : A -> Prop)
    (body : A -> S -> M S) :
  (forall a s w, Q a -> P s ->
     exists s' w', body a s w = (Ok s', w') /\ P s') ->
  forall xs, Forall Q xs -> forall s w, P s ->
    exists s' w', for_in xs body s w = (Ok s', w') /\ P s'.
Proof.
  intros Hbody xs HQ. induction HQ as [|a xs Ha _ IH]; intros s w Hs; simpl.
  - exists s, w. split; [reflexivity | exact Hs].
  - destruct (Hbody a s w Ha Hs) as (s1 & w1 & E1 & Hs1).
    rewrite (bind_ok _ _ _ _ _ E1). apply IH, Hs1.
Qed.

Lemma Forall_range_lt lo hi :
  Forall (fun i => (lo <= i < hi)%nat) (range lo hi).
Proof.
  unfold range. apply Forall_forall. intros i Hi.
  apply list_elem_of_In, in_seq in Hi. lia.
Qed.

(** ** Two-dimensional arrays *)

Lemma square_zeros2 n : square n (np.zeros2 n n).
Proof.
  unfold square, np.zeros2, np.zeros. split.
  - apply length_replicate.
  - apply Forall_forall. intros row Hrow.
    apply elem_of_replicate in Hrow as [-> _]. apply length_replicate.
Qed.

Lemma square_row n H i :
  square n H -> (i < n)%nat -> exists row, H !! i = Some row /\ length row = n.
Proof.
  intros [Hlen Hrows] Hi.
  destruct (lookup_lt_is_Some_2 H i) as [row Hrow]; [lia|].
  exists row. split; [exact Hrow|].
  eapply (proj1 (Forall_lookup _ _) Hrows); eauto.
Qed.

Lemma square_mset n H i j v : square n H -> square n (mset H i j v).
Proof.
  intros [Hlen Hrows]. unfold square, mset. split.
  - now rewrite length_alter.
  - apply Forall_alter; [exact Hrows|].
    intros row _ Hrow. now rewrite length_insert.
Qed.

Lemma entry_mset n H i j v k l :
  square n H -> (i < n)%nat -> (j < n)%nat ->
  entry (mset H i j v) k l =
    if ((k =? i) && (l =? j))%nat then Some v else entry H k l.
Proof.
  intros Hsq Hi Hj. destruct (square_row n H i Hsq Hi) as (row & Hrow & Hlen).
  unfold entry, mset.
  destruct (Nat.eqb_spec k i) as [->|Hk]; simpl.
  - rewrite list_lookup_alter_eq, Hrow. simpl.
    destruct (Nat.eqb_spec l j) as [->|Hl].
    + apply list_lookup_insert_eq. lia.
    + apply list_lookup_insert_ne. congruence.
  - now rewrite list_lookup_alter_ne by congruence.
Qed.

Lemma setitem2_ok n H i j v w :
  square n H -> (i < n)%nat -> (j < n)%nat ->
  setitem2 H i j v w = (Ok (mset H i j v), w).
Proof.
  intros Hsq Hi Hj. destruct (square_row n H i Hsq Hi) as (row & Hrow & Hlen).
  unfold setitem2.
  rewrite (bind_ok _ _ _ _ _ (getitem_ok _ _ _ w Hrow)).
  erewrite bind_ok by (apply setitem_ok; lia).
  rewrite setitem_ok by (destruct Hsq; lia).
  do 2 f_equal. unfold mset. apply list_eq. intros k.
  destruct (Nat.eq_dec k i) as [->|Hk].
  - rewrite list_lookup_insert_eq by (destruct Hsq; lia).
    now rewrite list_lookup_alter_eq, Hrow.
  - rewrite list_lookup_insert_ne by congruence.
    now rewrite list_lookup_alter_ne by congruence.
Qed.

Lemma getitem2_ok H i j v w :
  entry H i j = Some v -> getitem2 H i j w = (Ok v, w).
Proof.
  unfold entry, getitem2. destruct (H !! i) as [row|] eqn:Hrow; [|discriminate].
  intros Hv. rewrite (bind_ok _ _ _ _ _ (getitem_ok _ _ _ w Hrow)).
  now apply getitem_ok.
Qed.

Lemma symmetric_zeros2 n : symmetric n (np.zeros2 n n).
Proof.
  intros i j Hi Hj. exists 0. unfold entry, np.zeros2, np.zeros.
  rewrite !lookup_replicate_2 by lia. simpl.
  rewrite ?lookup_replicate_2 by lia. auto.
Qed.

Lemma symmetric_mset_diag n H i v :
  square n H -> symmetric n H -> (i < n)%nat -> symmetric n (mset H i i v).
Proof.
  intros Hsq Hsym Hi k l Hk Hl.
  rewrite !(entry_mset n) by assumption.
  destruct (Nat.eqb_spec k i) as [->|Hki], (Nat.eqb_spec l i) as [->|Hli];
    simpl; eauto.
Qed.

Lemma symmetric_mset_mirror n H i j v :
  square n H -> symmetric n H -> (i < n)%nat -> (j < n)%nat ->
  symmetric n (mset (mset H i j v) j i v).
Proof.
  intros Hsq Hsym Hi Hj k l Hk Hl.
  rewrite !(entry_mset n) by (try apply square_mset; assumption).
  destruct (Nat.eqb_spec k i) as [Hki|Hki], (Nat.eqb_spec l i) as [Hli|Hli],
           (Nat.eqb_spec k j) as [Hkj|Hkj], (Nat.eqb_spec l j) as [Hlj|Hlj];
    subst; simpl; eauto.
Qed.

(** ** The Hessian *)

Lemma bind_call_real {B} f x (k : R -> M B) w :
  bind (call_real f x) k w = k (on_real f x) (add_evals [EvalReal x] w).
Proof. reflexivity. Qed.

Lemma hessian_invariant (f : ScalarFunction) (x : list R) (eps : R) (w : world) :
  exists H w',
    finite_difference_hessian f x eps w = (Ok H, w') /\
    square (length x) H /\ symmetric (length x) H.
Proof.
  set (n := length x).
  set (P := fun H : list (list R) => square n H /\ symmetric n H).
  unfold finite_difference_hessian. fold n. rewrite bind_call_real.
  (* the diagonal *)
  edestruct (for_in_invariant P (fun i => (0 <= i < n)%nat))
    as (H1 & w1 & E1 & HP1);
    [ | apply Forall_range_lt | split; [apply square_zeros2 | apply symmetric_zeros2] | ].
  2: {
    rewrite (bind_ok _ _ _ _ _ E1).
    (* the pairs above the diagonal *)
    apply (for_in_invariant P (fun i => (0 <= i < n)%nat));
      [ | apply Forall_range_lt | exact HP1 ].
    intros i H w2 Hi HP.
    apply (for_in_invariant P (fun j => (i + 1 <= j < n)%nat));
      [ | apply Forall_range_lt | exact HP ].
    intros j H' w3 Hj [Hsq Hsym].
    erewrite bind_ok by (apply iadd_item_perturbed; fold n; lia).
    erewrite bind_ok
      by (apply iadd_item_perturbed; rewrite length_perturbed; fold n; lia).
    erewrite bind_ok by (apply iadd_item_perturbed; fold n; lia).
    erewrite bind_ok
      by (apply isub_item_perturbed; rewrite length_perturbed; fold n; lia).
    erewrite bind_ok by (apply isub_item_perturbed; fold n; lia).
    erewrite bind_ok
      by (apply iadd_item_perturbed; rewrite length_perturbed; fold n; lia).
    erewrite bind_ok by (apply isub_item_perturbed; fold n; lia).
    erewrite bind_ok
      by (apply isub_item_perturbed; rewrite length_perturbed; fold n; lia).
    rewrite !bind_call_real.
    erewrite bind_ok by (apply (setitem2_ok n); [exact Hsq | lia | lia]).
    erewrite bind_ok.
    2: { apply getitem2_ok. rewrite (entry_mset n) by (auto; lia).
         now rewrite !Nat.eqb_refl. }
    rewrite (setitem2_ok n) by (try apply square_mset; auto; lia).
    eexists _, _. split; [reflexivity|]. split.
    - now do 2 apply square_mset.
    - apply symmetric_mset_mirror; auto; lia. }
  intros i H w2 Hi [Hsq Hsym].
  erewrite bind_ok by (apply iadd_item_perturbed; fold n; lia).
  erewrite bind_ok by (apply isub_item_perturbed; fold n; lia).
  rewrite !bind_call_real.
  rewrite (setitem2_ok n) by (auto; lia).
  eexists _, _. split; [reflexivity|]. split.
  - now apply square_mset.
  - apply symmetric_mset_diag; auto; lia.
Qed.

(** C2. For every [f], [x] and step [eps > 0] the matrix returned by
    [finite_difference_hessian] is an [n] by [n] array with
    [H[i][j] = H[j][i]] for all [i, j < n]: each entry above the
    diagonal is computed once and copied to its mirror position. *)
Theorem finite_difference_hessian_symmetric
    (f : ScalarFunction) (x : list R) (eps : R) (w : world) :
  0 < eps ->
  exists H w',
    finite_difference_hessian f x eps w = (Ok H, w') /\
    length H = length x /\
    forall i j, (i < length x)%nat -> (j < length x)%nat ->
      exists v, entry H i j = Some v /\ entry H j i = Some v.
Proof.
  intros _.
  destruct (hessian_invariant f x eps w) as (H & w' & E & [Hlen _] & Hsym).
  exists H, w'. split; [exact E|]. split; [exact Hlen | exact Hsym].
Qed.

Lemma finite_difference_hessian_symmetric_witness :
  exists H w',
    finite_difference_hessian cubic_function [1; 2] (1 / 10000) quiet_world
      = (Ok H, w') /\
    length H = 2%nat /\
    exists v, entry H 0 1 = Some v /\ entry H 1 0 = Some v.
Proof.
  destruct (finite_difference_hessian_symmetric
              cubic_function [1; 2] (1 / 10000) quiet_world ltac:(lra))
    as (H & w' & E & Hlen & Hsym).
  exists H, w'. split; [exact E|]. split; [exact Hlen|].
  apply Hsym; simpl; lia.
Defined.

(** ** Reports *)

Lemma bind_print {B} l (k : unit -> M B) w :
  bind (print l) k w = k tt (add_stdout [l] w).
Proof. reflexivity. Qed.

Lemma bind_ret {A B} (a : A) (k : A -> M B) w : bind (ret a) k w = k a w.
Proof. reflexivity. Qed.

Lemma finite_difference_gradient_length f x eps method w g w' :
  finite_difference_gradient f x eps method w = (Ok g, w') ->
  length g = length x.
Proof.
  destruct (in_dec string_dec method recognised_schemes) as [Hin|Hnot].
  - simpl in Hin. destruct Hin as [<-|[<-|[<-|[]]]].
    + rewrite forward_run. intros [= <- _]. apply length_fill_zeros.
    + rewrite central_run. intros [= <- _]. apply length_fill_zeros.
    + rewrite complex_run. intros [= <- _]. apply length_fill_zeros.
  - rewrite unknown_method_run by exact Hnot. discriminate.
Qed.

Lemma subtract_same_length a b w :
  length a = length b ->
  np.subtract a b w = (Ok (zip_with Rminus a b), w).
Proof.
  intros Hlen. unfold np.subtract, np.broadcast.
  rewrite Hlen, Nat.eqb_refl. reflexivity.
Qed.

Lemma argmax_from_lt : forall a best_i best i,
  (best_i < i)%nat -> (np.argmax_from best_i best i a < i + length a)%nat.
Proof.
  induction a as [|v a IH]; intros best_i best i Hlt; simpl.
  - lia.
  - destruct (Rlt_dec best v).
    + specialize (IH i v (S i)). lia.
    + specialize (IH best_i best (S i)). lia.
Qed.

Lemma argmax_ok a w :
  a <> [] ->
  exists k, np.argmax a w = (Ok k, w) /\ (k < length a)%nat.
Proof.
  destruct a as [|v a]; [congruence|]. intros _.
  exists (np.argmax_from 0 v 1 a). split; [reflexivity|].
  pose proof (argmax_from_lt a 0%nat v 1%nat). simpl. lia.
Qed.

Lemma norm_nil : np.linalg.norm [] = 0.
Proof. unfold np.linalg.norm, np.sumsq, np.sum. simpl. apply sqrt_0. Qed.

Lemma Rltb_irrefl r : Rltb r r = false.
Proof. unfold Rltb. destruct (Rlt_dec r r); [lra | reflexivity]. Qed.

Lemma total_ret {A} (P : A -> Prop) (a : A) : P a -> total (ret a) P.
Proof. intros Ha w. now exists a, w. Qed.

Lemma total_bind {A B} (P : A -> Prop) (Q : B -> Prop) (m : M A) (k : A -> M B) :
  total m P -> (forall a, P a -> total (k a) Q) -> total (bind m k) Q.
Proof.
  intros Hm Hk w. destruct (Hm w) as (a & w1 & E & Ha & Hw1).
  rewrite (bind_ok _ _ _ _ _ E).
  destruct (Hk a Ha w1) as (b & w2 & E2 & Hb & Hw2).
  exists b, w2. split; [exact E2|]. split; [exact Hb | congruence].
Qed.

Lemma total_print l : total (print l) (fun _ => True).
Proof. intros w. now eexists tt, _. Qed.

Lemma total_getitem {A} (a : list A) i :
  (i < length a)%nat -> total (getitem a i) (fun _ => True).
Proof.
  intros Hi w. destruct (lookup_lt_is_Some_2 a i Hi) as [v Hv].
  exists v, w. split; [now apply getitem_ok | split; [exact I | reflexivity]].
Qed.

Ltac report :=
  repeat first
    [ apply total_print
    | apply (total_ret (fun _ => True)); exact I
    | apply (total_bind (fun _ => True)); [ | intros ? _ ] ].

Lemma gradient_report_independent f grad_f x eps tol method w :
  length (grad_f x) = length x ->
  fst (check_gradient f grad_f x eps tol method true w) =
  fst (check_gradient f grad_f x eps tol method false w).
Proof.
  intros Hshape. unfold check_gradient.
  destruct (finite_difference_gradient f x eps method w) as [[gn|e] w1] eqn:E.
  2: { now rewrite !(bind_raise _ _ _ _ _ E). }
  rewrite !(bind_ok _ _ _ _ _ E).
  pose proof (finite_difference_gradient_length _ _ _ _ _ _ _ E) as Hgn.
  rewrite !(bind_ok _ _ _ _ _
              (subtract_same_length (grad_f x) gn w1 ltac:(congruence))).
  set (diff := zip_with Rminus (grad_f x) gn).
  assert (Hdiff : length diff = length x).
  { unfold diff. rewrite length_zip_with. lia. }
  match goal with
  | |- fst (bind ?inner _ _) = _ =>
      assert (Hinner : total inner (fun _ => True))
  end.
  { report.
    match goal with |- context [if ?c then _ else _] => destruct c eqn:Hc end;
      [|report].
    apply andb_true_iff in Hc as [_ Hpos].
    apply (total_bind (fun k => (k < length x)%nat)).
    { intros w2. destruct (argmax_ok (np.abs diff) w2) as (k & Ek & Hk).
      - intros Hnil. apply map_eq_nil in Hnil.
        rewrite Hnil, norm_nil, Rltb_irrefl in Hpos. discriminate.
      - unfold np.abs in Hk. rewrite length_map, Hdiff in Hk.
        now exists k, w2. }
    intros k Hk. report; apply total_getitem; lia. }
  destruct (Hinner w1) as (u & w3 & Einner & _).
  now rewrite (bind_ok _ _ _ _ _ Einner), !bind_ret.
Qed.

Lemma hessian_report_independent f hess_f x eps tol w :
  fst (check_hessian f hess_f x eps tol true w) =
  fst (check_hessian f hess_f x eps tol false w).
Proof.
  unfold check_hessian.
  destruct (finite_difference_hessian f x eps w) as [[hn|e] w1] eqn:E.
  2: { now rewrite !(bind_raise _ _ _ _ _ E). }
  rewrite !(bind_ok _ _ _ _ _ E).
  destruct (np.subtract2 (hess_f x) hn w1) as [[diff|e] w2] eqn:E2.
  2: { now rewrite !(bind_raise _ _ _ _ _ E2). }
  rewrite !(bind_ok _ _ _ _ _ E2).
  match goal with
  | |- fst (bind ?inner _ _) = _ =>
      assert (Hinner : total inner (fun _ => True)) by report
  end.
  destruct (Hinner w2) as (u & w3 & Einner & _).
  now rewrite (bind_ok _ _ _ _ _ Einner), !bind_ret.
Qed.



(** ** Norms *)

Lemma Rltb_true a b : a < b -> Rltb a b = true.
Proof. intros H. unfold Rltb. destruct (Rlt_dec a b); [reflexivity | lra]. Qed.

Lemma Rltb_false a b : b <= a -> Rltb a b = false.
Proof. intros H. unfold Rltb. destruct (Rlt_dec a b); [lra | reflexivity]. Qed.

Lemma Reqb_true a : Reqb a a = true.
Proof. unfold Reqb. destruct (Req_dec_T a a); [reflexivity | congruence]. Qed.

Lemma Reqb_false a b : a <> b -> Reqb a b = false.
Proof. intros H. unfold Reqb. destruct (Req_dec_T a b); [congruence | reflexivity]. Qed.

Lemma sumsq_cons v a : np.sumsq (v :: a) = v * v + np.sumsq a.
Proof. reflexivity. Qed.

Lemma sumsq_nonneg a : 0 <= np.sumsq a.
Proof.
  induction a as [|v a IH]; [unfold np.sumsq, np.sum; simpl; lra|].
  rewrite sumsq_cons. nra.
Qed.

Lemma sumsq_zero_iff a : np.sumsq a = 0 <-> a = np.zeros (length a).
Proof.
  induction a as [|v a IH]; [now unfold np.sumsq, np.sum, np.zeros|].
  rewrite sumsq_cons. pose proof (sumsq_nonneg a) as Hnn.
  unfold np.zeros in *. simpl. split.
  - intros H. assert (v = 0) as -> by nra.
    assert (np.sumsq a = 0) as Ha by nra.
    apply IH in Ha. congruence.
  - intros [= -> Ha]. apply IH in Ha. nra.
Qed.

Lemma norm_nonneg a : 0 <= np.linalg.norm a.
Proof. unfold np.linalg.norm. apply sqrt_pos. Qed.

Lemma norm_zero_iff a : np.linalg.norm a = 0 <-> a = np.zeros (length a).
Proof.
  rewrite <- sumsq_zero_iff. unfold np.linalg.norm. split.
  - intros H. apply sqrt_eq_0; [apply sumsq_nonneg | exact H].
  - intros ->. apply sqrt_0.
Qed.

Lemma norm_zeros n : np.linalg.norm (np.zeros n) = 0.
Proof.
  apply norm_zero_iff. unfold np.zeros. now rewrite length_replicate.
Qed.

Lemma norm_singleton v : np.linalg.norm [v] = Rabs v.
Proof.
  unfold np.linalg.norm. rewrite sumsq_cons.
  replace (v * v + np.sumsq []) with (Rsqr v)
    by (unfold Rsqr, np.sumsq, np.sum; simpl; lra).
  apply sqrt_Rsqr_abs.
Qed.

Lemma zeros_minus n (b : list R) :
  length b = n -> zip_with Rminus (np.zeros n) b = map Ropp b.
Proof.
  intros <-. unfold np.zeros.
  induction b as [|v b IH]; simpl; [reflexivity|].
  rewrite IH. f_equal. lra.
Qed.

Lemma opp_zeros_iff (b : list R) :
  map Ropp b = np.zeros (length b) <-> b = np.zeros (length b).
Proof.
  unfold np.zeros. induction b as [|v b IH]; simpl; [tauto|].
  split; intros [= Hv Hb]; f_equal; try lra; now apply IH.
Qed.

(** What [check_gradient] returns once the numerical gradient is known. *)
Lemma check_gradient_value f grad_f x eps tol method verbose w gn w1 :
  finite_difference_gradient f x eps method w = (Ok gn, w1) ->
  length (grad_f x) = length x ->
  let norm_diff := np.linalg.norm (zip_with Rminus (grad_f x) gn) in
  let norm_analytical := np.linalg.norm (grad_f x) in
  let relative_error :=
    if Rltb 0 norm_analytical then norm_diff / norm_analytical
    else norm_diff in
  fst (check_gradient f grad_f x eps tol method verbose w) =
    Ok (Rltb relative_error tol, relative_error).
Proof.
  intros E Hshape. simpl.
  assert (Hquiet :
    fst (check_gradient f grad_f x eps tol method verbose w) =
    fst (check_gradient f grad_f x eps tol method false w)).
  { destruct verbose; [now apply gradient_report_independent | reflexivity]. }
  rewrite Hquiet. unfold check_gradient.
  pose proof (finite_difference_gradient_length _ _ _ _ _ _ _ E) as Hgn.
  rewrite (bind_ok _ _ _ _ _ E).
  rewrite (bind_ok _ _ _ _ _
             (subtract_same_length (grad_f x) gn w1 ltac:(congruence))).
  reflexivity.
Qed.

(** ** utils/norms.py *)

Lemma max_from_ge_best a : forall best, best <= np.max_from best a.
Proof.
  induction a as [|v a IH]; intros best; simpl; [lra|].
  destruct (Rlt_dec best v).
  - specialize (IH v). lra.
  - apply IH.
Qed.

Lemma max_from_ge a : forall best,
  Forall (fun v => v <= np.max_from best a) a.
Proof.
  induction a as [|v a IH]; intros best; simpl; constructor.
  - destruct (Rlt_dec best v).
    + apply max_from_ge_best.
    + pose proof (max_from_ge_best a best). lra.
  - apply IH.
Qed.

Lemma all_zero_of_bound (x : list R) (m : R) :
  Forall (fun v => v <= m) (np.abs x) -> m <= 0 -> x = np.zeros (length x).
Proof.
  unfold np.zeros, np.abs. induction x as [|v x IH]; simpl; [reflexivity|].
  intros Hall Hm. inversion Hall as [|? ? Hv Hx]; subst.
  f_equal; [|now apply IH].
  pose proof (Rabs_pos v). destruct (Req_dec v 0) as [->|Hne]; [reflexivity|].
  apply Rabs_pos_lt in Hne. lra.
Qed.

Lemma abs_zeros n : np.abs (np.zeros n) = np.zeros n.
Proof.
  unfold np.abs, np.zeros. induction n; simpl; [reflexivity|].
  now rewrite IHn, Rabs_R0.
Qed.

Lemma max_from_zeros n : np.max_from 0 (np.zeros n) = 0.
Proof.
  unfold np.zeros. induction n; simpl; [reflexivity|].
  destruct (Rlt_dec 0 0); [lra | exact IHn].
Qed.

Lemma vector_norm_zeros n w : vector_norm (np.zeros n) w = (Ok 0, w).
Proof.
  unfold vector_norm. destruct n as [|n]; [reflexivity|].
  rewrite abs_zeros. unfold np.zeros at 1 2. simpl.
  erewrite bind_ok by (unfold np.max; reflexivity).
  fold (np.zeros n). rewrite max_from_zeros, Reqb_true. reflexivity.
Qed.

Lemma all_zero_of_scaled (l : list R) (m : R) :
  0 < m ->
  map (fun u => u / m) (np.abs l) = np.zeros (length l) ->
  l = np.zeros (length l).
Proof.
  intros Hm. unfold np.zeros, np.abs.
  induction l as [|u l IH]; simpl; [reflexivity|].
  intros [= Hu Hl]. f_equal; [|now apply IH].
  assert (Rabs u = 0) as Habs.
  { unfold Rdiv in Hu. apply Rmult_integral in Hu as [H|H]; [exact H|].
    pose proof (Rinv_0_lt_compat m Hm). lra. }
  destruct (Req_dec u 0) as [->|Hne]; [reflexivity|].
  apply Rabs_pos_lt in Hne. lra.
Qed.

Lemma vector_norm_pos x w :
  x <> np.zeros (length x) ->
  exists r, vector_norm x w = (Ok r, w) /\ 0 < r.
Proof.
  intros Hx. unfold vector_norm.
  destruct x as [|v x]; [now contradiction Hx|].
  change (length (v :: x) =? 0)%nat with false. cbv iota.
  set (m := np.max_from (Rabs v) (np.abs x)).
  assert (Hall : Forall (fun u => u <= m) (np.abs (v :: x))).
  { constructor; [apply max_from_ge_best | apply max_from_ge]. }
  assert (Hm : 0 < m).
  { destruct (Rlt_le_dec 0 m) as [|Hle]; [assumption|].
    exfalso. apply Hx. now apply (all_zero_of_bound _ m). }
  erewrite bind_ok by (unfold np.abs, np.max; simpl; reflexivity).
  fold (np.abs x). fold m. rewrite Reqb_false by lra.
  eexists. split; [reflexivity|].
  apply Rmult_lt_0_compat; [exact Hm|]. apply sqrt_lt_R0.
  pose proof (sumsq_nonneg (map (fun u => u / m) (np.abs (v :: x)))) as Hnn.
  destruct Hnn as [Hpos|Hzero]; [exact Hpos|]. exfalso. apply Hx.
  symmetry in Hzero. apply sumsq_zero_iff in Hzero.
  unfold np.abs in Hzero. rewrite !length_map in Hzero.
  now apply (all_zero_of_scaled _ m).
Qed.

Lemma minus_zeros (x : list R) :
  zip_with Rminus x (np.zeros (length x)) = x.
Proof.
  unfold np.zeros. induction x as [|v x IH]; simpl; [reflexivity|].
  rewrite IH. f_equal. lra.
Qed.

Lemma relative_error_zero_reference (x : list R) (w : world) :
  relative_error x (np.zeros (length x)) w =
    (Ok (if Reqb (np.linalg.norm x) 0 then Finite 0 else Infinity), w).
Proof.
  unfold relative_error.
  erewrite bind_ok
    by (apply subtract_same_length; unfold np.zeros;
        now rewrite length_replicate).
  rewrite minus_zeros.
  destruct (Req_dec_T (np.linalg.norm x) 0) as [Hz|Hnz].
  - rewrite Hz, Reqb_true. apply norm_zero_iff in Hz. rewrite Hz.
    rewrite !(bind_ok _ _ _ _ _ (vector_norm_zeros _ w)).
    now rewrite Reqb_true, Rltb_irrefl.
  - rewrite (Reqb_false _ _ Hnz).
    destruct (vector_norm_pos x w) as (r & Er & Hr).
    { intros Hx. apply Hnz. now apply norm_zero_iff. }
    rewrite (bind_ok _ _ _ _ _ Er).
    rewrite (bind_ok _ _ _ _ _ (vector_norm_zeros _ w)).
    now rewrite Reqb_true, (Rltb_true 0 r Hr).
Qed.

(** ** The zero-reference fallback *)

Lemma gentle_slope_numerical :
  fill (central_quotient gentle_slope [0] (1 / 100000))
       (np.zeros 1) (seq 0 1) = [1 / 100000].
Proof.
  unfold fill, central_quotient, perturbed, unit_vector, np.zeros. simpl.
  f_equal. field.
Qed.

Lemma gentle_slope_check verbose :
  fst (check_gradient gentle_slope zero_gradient [0]
         (1 / 100000) (1 / 10000) "central" verbose quiet_world) =
    Ok (true, 1 / 100000).
Proof.
  rewrite (check_gradient_value _ _ _ _ _ _ _ _ _ _
             (central_run gentle_slope [0] (1 / 100000) quiet_world))
    by reflexivity.
  change (length [0]) with 1%nat. rewrite gentle_slope_numerical.
  change (zero_gradient [0]) with (np.zeros 1).
  rewrite norm_zeros, Rltb_irrefl.
  change (zip_with Rminus (np.zeros 1) [1 / 100000]) with [0 - 1 / 100000].
  rewrite norm_singleton.
  replace (Rabs (0 - 1 / 100000)) with (1 / 100000)
    by (rewrite Rabs_left; lra).
  now rewrite Rltb_true by lra.
Qed.

(** C1, as the code has it. When the analytic gradient has zero norm,
    [check_gradient] falls back to the absolute error: with a numerical
    gradient that is exactly zero too it returns [relative_error = 0]
    and [passed = (0 < tol)], so [True] for every positive tolerance;
    with a nonzero numerical gradient it returns the positive, finite
    absolute error [||grad_analytical - grad_numerical||] and
    [passed = (that error < tol)]. Infinity is what
    [norms.relative_error] returns for the same arrays; [check_gradient]
    does not call it. *)
Theorem check_gradient_zero_reference
    (f : ScalarFunction) (grad_f : list R -> list R) (x : list R)
    (eps tol : R) (method : string) (verbose : bool)
    (w w1 : world) (gn : list R) :
  finite_difference_gradient f x eps method w = (Ok gn, w1) ->
  length (grad_f x) = length x ->
  np.linalg.norm (grad_f x) = 0 ->
  (gn = np.zeros (length x) ->
     fst (check_gradient f grad_f x eps tol method verbose w) =
       Ok (Rltb 0 tol, 0) /\
     (0 < tol ->
        fst (check_gradient f grad_f x eps tol method verbose w) =
          Ok (true, 0))) /\
  (gn <> np.zeros (length x) ->
     let abs_err := np.linalg.norm (zip_with Rminus (grad_f x) gn) in
     0 < abs_err /\
     fst (check_gradient f grad_f x eps tol method verbose w) =
       Ok (Rltb abs_err tol, abs_err) /\
     relative_error gn (grad_f x) w = (Ok Infinity, w)).
Proof.
  intros E Hshape Hnorm.
  pose proof (finite_difference_gradient_length _ _ _ _ _ _ _ E) as Hgn.
  pose proof (check_gradient_value f grad_f x eps tol method verbose
                w gn w1 E Hshape) as Hval.
  simpl in Hval. rewrite Hnorm, Rltb_irrefl in Hval.
  assert (Hga : grad_f x = np.zeros (length x)).
  { apply norm_zero_iff in Hnorm. now rewrite Hshape in Hnorm. }
  assert (Hdiff : zip_with Rminus (grad_f x) gn = map Ropp gn).
  { rewrite Hga. now apply zeros_minus. }
  split.
  - intros Hzero.
    assert (Herr : np.linalg.norm (zip_with Rminus (grad_f x) gn) = 0).
    { rewrite Hdiff. apply norm_zero_iff. rewrite length_map.
      apply opp_zeros_iff. now rewrite Hgn. }
    rewrite Herr in Hval. split; [exact Hval|].
    intros Htol. now rewrite Hval, Rltb_true.
  - intros Hnz. simpl.
    assert (Hne : np.linalg.norm (zip_with Rminus (grad_f x) gn) <> 0).
    { rewrite Hdiff. intros H0. apply norm_zero_iff in H0.
      rewrite length_map in H0. apply opp_zeros_iff in H0.
      apply Hnz. now rewrite <- Hgn. }
    split; [|split].
    + pose proof (norm_nonneg (zip_with Rminus (grad_f x) gn)). lra.
    + exact Hval.
    + rewrite Hga, <- Hgn, relative_error_zero_reference.
      rewrite Reqb_false; [reflexivity|].
      intros H0. apply Hnz. apply norm_zero_iff in H0. now rewrite <- Hgn.
Qed.

Lemma check_gradient_zero_reference_witness :
  0 < np.linalg.norm
        (zip_with Rminus (zero_gradient [0])
           (fill (central_quotient gentle_slope [0] (1 / 100000))
              (np.zeros 1) (seq 0 1))) /\
  fst (check_gradient gentle_slope zero_gradient [0]
         (1 / 100000) (1 / 10000) "central" false quiet_world) =
    Ok (Rltb (np.linalg.norm
                (zip_with Rminus (zero_gradient [0])
                   (fill (central_quotient gentle_slope [0] (1 / 100000))
                      (np.zeros 1) (seq 0 1))))
             (1 / 10000),
        np.linalg.norm
          (zip_with Rminus (zero_gradient [0])
             (fill (central_quotient gentle_slope [0] (1 / 100000))
                (np.zeros 1) (seq 0 1)))) /\
  relative_error
    (fill (central_quotient gentle_slope [0] (1 / 100000))
       (np.zeros 1) (seq 0 1))
    (zero_gradient [0]) quiet_world = (Ok Infinity, quiet_world).
Proof.
  apply (proj2 (check_gradient_zero_reference gentle_slope zero_gradient [0]
           (1 / 100000) (1 / 10000) "central" false quiet_world _ _
           (central_run gentle_slope [0] (1 / 100000) quiet_world)
           eq_refl (norm_zeros 1))).
  change (length [0]) with 1%nat. rewrite gentle_slope_numerical.
  unfold np.zeros. simpl. intros [= H]. lra.
Defined.

Lemma constant_function_check :
  fst (check_gradient constant_function zero_gradient [0]
         (1 / 100000) 0 "central" false quiet_world) = Ok (false, 0).
Proof.
  rewrite (check_gradient_value _ _ _ _ _ _ _ _ _ _
             (central_run constant_function [0] (1 / 100000) quiet_world))
    by reflexivity.
  change (length [0]) with 1%nat.
  assert (Hgn : fill (central_quotient constant_function [0] (1 / 100000))
                  (np.zeros 1) (seq 0 1) = [0]).
  { unfold fill, central_quotient, np.zeros. simpl. f_equal. field. }
  rewrite Hgn. change (zero_gradient [0]) with (np.zeros 1).
  rewrite norm_zeros, Rltb_irrefl.
  change (zip_with Rminus (np.zeros 1) [0]) with [0 - 0].
  rewrite norm_singleton.
  replace (Rabs (0 - 0)) with 0 by (rewrite Rminus_diag, Rabs_R0; reflexivity).
  now rewrite Rltb_irrefl.
Qed.

(** C1, as stated, fails: with every argument at its default, an
    analytic gradient of zero norm and a numerical gradient of
    [1e-5], [check_gradient] returns [(True, 1e-5)], not
    [(False, inf)]; and with both gradients exactly zero and a
    tolerance of [0] it returns [(False, 0)], not [(True, 0)]. *)
Lemma check_gradient_zero_reference_counterexample :
  np.linalg.norm (zero_gradient [0]) = 0 /\
  (exists w1,
     finite_difference_gradient gentle_slope [0] (1 / 100000) "central"
       quiet_world = (Ok [1 / 100000], w1)) /\
  fst (check_gradient_opt gentle_slope zero_gradient [0]
         None None None (Some false) quiet_world) = Ok (true, 1 / 100000) /\
  fst (check_gradient constant_function zero_gradient [0]
         (1 / 100000) 0 "central" false quiet_world) = Ok (false, 0).
Proof.
  split; [apply norm_zeros|]. split; [|split].
  - eexists. rewrite central_run. change (length [0]) with 1%nat.
    rewrite gentle_slope_numerical. reflexivity.
  - apply gentle_slope_check.
  - apply constant_function_check.
Qed.

(** ** The consistency probe *)

Lemma add_same_length a b w :
  length a = length b -> np.add a b w = (Ok (zip_with Rplus a b), w).
Proof.
  intros Hlen. unfold np.add, np.broadcast.
  rewrite Hlen, Nat.eqb_refl. reflexivity.
Qed.

Lemma max_ok (a : list R) w :
  a <> [] -> Forall (fun v => 0 <= v) a ->
  exists m, np.max a w = (Ok m, w) /\ 0 <= m.
Proof.
  destruct a as [|v a]; [congruence|]. intros _ Hall.
  exists (np.max_from v a). split; [reflexivity|].
  inversion Hall; subst. pose proof (max_from_ge_best a v). lra.
Qed.

(** C10, as the code has it. At a base point where the analytic
    gradient is exactly the zero vector, [gradient_consistency_check]
    returns [False] for every [n_samples >= 1], whatever the draws, the
    perturbation size and [verbose]: the maximum variation is a norm,
    so not below [10 * eps * 0 = 0]. With [n_samples <= 0] no variation
    is recorded and [np.max] of the empty list raises [ValueError]. *)
Theorem gradient_consistency_check_zero_gradient
    (grad_f : list R -> list R) (x : list R) (n_samples : Z) (eps : R)
    (verbose : bool) (w : world) :
  grad_f x = np.zeros (length x) ->
  (forall v, length v = length x -> length (grad_f v) = length x) ->
  ((1 <= n_samples)%Z ->
     fst (gradient_consistency_check grad_f x n_samples eps verbose w) =
       Ok false) /\
  ((n_samples <= 0)%Z ->
     fst (gradient_consistency_check grad_f x n_samples eps verbose w) =
       Raise (ValueError
         "zero-size array to reduction operation maximum which has no identity")).
Proof.
  intros Hzero Hshape. split; intros Hn; unfold gradient_consistency_check.
  - match goal with
    | |- context [for_in ?l ?b ?s] =>
        assert (Hloop : forall w0, exists vars w',
                  for_in l b s w0 = (Ok vars, w') /\
                  vars <> [] /\ Forall (fun v => 0 <= v) vars)
    end.
    { assert (Hbody : forall (u : nat) (vars : list R) w0,
        exists d w',
          (z <- np.random.randn (length x) ;;
           x_perturbed <- np.add x (np.scale eps z) ;;
           d <- np.subtract (grad_f x_perturbed) (grad_f x) ;;
           ret (vars ++ [np.linalg.norm d])) w0 = (Ok (vars ++ [d]), w') /\
          0 <= d).
      { intros u vars w0. unfold bind at 1. unfold np.random.randn at 1.
        set (z := map (gauss w0) (seq (drawn w0) (length x))).
        assert (Hz : length (np.scale eps z) = length x).
        { unfold np.scale, z. now rewrite !length_map, length_seq. }
        erewrite bind_ok by (apply add_same_length; now rewrite Hz).
        erewrite bind_ok.
        2: { apply subtract_same_length.
             rewrite !Hshape; [reflexivity | reflexivity |].
             rewrite length_zip_with, Hz. lia. }
        eexists _, _. split; [reflexivity | apply norm_nonneg]. }
      intros w0.
      destruct (Z.to_nat n_samples) as [|k] eqn:Hk; [lia|].
      unfold range. simpl.
      destruct (Hbody 0%nat [] w0) as (d0 & w1 & E0 & Hd0).
      rewrite (bind_ok _ _ _ _ _ E0).
      apply (for_in_invariant
               (fun vars => vars <> [] /\ Forall (fun v => 0 <= v) vars)
               (fun _ => True)).
      - intros u vars w2 _ [Hne Hall].
        destruct (Hbody u vars w2) as (d & w3 & E & Hd).
        exists (vars ++ [d]), w3. split; [exact E|]. split.
        + destruct vars; discriminate.
        + apply Forall_app. split; [exact Hall | now constructor].
      - apply Forall_forall. auto.
      - split; [discriminate | now constructor]. }
    destruct (Hloop w) as (vars & w1 & Eloop & Hne & Hall).
    rewrite (bind_ok _ _ _ _ _ Eloop).
    destruct (max_ok vars w1 Hne Hall) as (m & Emax & Hm).
    rewrite (bind_ok _ _ _ _ _ Emax).
    rewrite Hzero, norm_zeros.
    replace (10 * (eps * 0)) with 0 by ring.
    rewrite (Rltb_false m 0 Hm).
    match goal with
    | |- fst (bind ?inner _ _) = _ =>
        assert (Hinner : total inner (fun _ => True))
          by (destruct verbose; report)
    end.
    destruct (Hinner w1) as (u & w2 & Einner & _).
    now rewrite (bind_ok _ _ _ _ _ Einner).
  - replace (Z.to_nat n_samples) with 0%nat by lia. reflexivity.
Qed.

Lemma gradient_consistency_check_zero_gradient_witness :
  fst (gradient_consistency_check zero_gradient [1; 2] 10
         (1 / 10000000) true quiet_world) = Ok false /\
  fst (gradient_consistency_check zero_gradient [1; 2] (-1)
         (1 / 10000000) true quiet_world) =
    Raise (ValueError
      "zero-size array to reduction operation maximum which has no identity").
Proof.
  split.
  - apply (proj1 (gradient_consistency_check_zero_gradient zero_gradient
                    [1; 2] 10 (1 / 10000000) true quiet_world eq_refl
                    (fun v Hv => eq_trans (length_replicate _ _) Hv))).
    lia.
  - apply (proj2 (gradient_consistency_check_zero_gradient zero_gradient
                    [1; 2] (-1) (1 / 10000000) true quiet_world eq_refl
                    (fun v Hv => eq_trans (length_replicate _ _) Hv))).
    lia.
Defined.

(** C10, as stated, fails at [n_samples = 0]: the gradient is the zero
    vector at [x] and the call raises instead of returning [False]. *)
Lemma gradient_consistency_check_zero_gradient_counterexample :
  zero_gradient [1; 2] = [0; 0] /\
  fst (gradient_consistency_check zero_gradient [1; 2] 0
         (1 / 10000000) false quiet_world) =
    Raise (ValueError
      "zero-size array to reduction operation maximum which has no identity").
Proof. split; reflexivity. Qed.

(** ** Default step sizes *)

Lemma quartic_hessian eps :
  eps <> 0 ->
  fst (finite_difference_hessian quartic [1] eps quiet_world) =
    Ok [[12 + 2 * eps ^ 2]].
Proof.
  intros Heps. unfold finite_difference_hessian.
  rewrite bind_call_real. unfold range. simpl seq. simpl for_in.
  erewrite bind_ok.
  2: { erewrite bind_ok.
       2: { erewrite bind_ok by (apply iadd_item_perturbed; simpl; lia).
            erewrite bind_ok by (apply isub_item_perturbed; simpl; lia).
            rewrite !bind_call_real.
            apply (setitem2_ok 1); [apply square_zeros2 | lia | lia]. }
       reflexivity. }
  rewrite bind_ret. unfold ret. simpl. do 3 f_equal. field. exact Heps.
Qed.

Lemma subtract2_world A B w :
  snd (np.subtract2 A B w) = w.
Proof.
  unfold np.subtract2, np.broadcast2.
  destruct (np.broadcast_dim (length A) (length B));
    [destruct (np.broadcast_dim (np.ncols A) (np.ncols B))|]; reflexivity.
Qed.

Lemma check_hessian_evals f hess_f x eps tol verbose w :
  evals (snd (check_hessian f hess_f x eps tol verbose w)) =
  evals (snd (finite_difference_hessian f x eps w)).
Proof.
  unfold check_hessian.
  destruct (finite_difference_hessian f x eps w) as [[hn|e] w1] eqn:E.
  2: { now rewrite (bind_raise _ _ _ _ _ E). }
  rewrite (bind_ok _ _ _ _ _ E). simpl.
  pose proof (subtract2_world (hess_f x) hn w1) as Hw.
  destruct (np.subtract2 (hess_f x) hn w1) as [[diff|e] w2] eqn:E2;
    simpl in Hw; subst w2.
  2: { now rewrite (bind_raise _ _ _ _ _ E2). }
  rewrite (bind_ok _ _ _ _ _ E2).
  match goal with
  | |- evals (snd (bind ?inner _ _)) = _ =>
      assert (Hinner : total inner (fun _ => True))
        by (destruct verbose; report)
  end.
  destruct (Hinner w1) as (u & w3 & Einner & _ & Hw3).
  now rewrite (bind_ok _ _ _ _ _ Einner).
Qed.

(** C4, as the code has it. Without an explicit step,
    [finite_difference_gradient] uses [1e-5], and so does
    [finite_difference_hessian] when it is called directly; only
    [check_hessian] defaults to [1e-4], which it passes to the Hessian
    estimator explicitly (the function evaluations it causes are those
    of the estimate at step [1e-4]). *)
Theorem default_step_sizes
    (f : ScalarFunction) (hess_f : list R -> list (list R)) (x : list R)
    (method : option string) (tol : option R) (verbose : option bool)
    (w : world) :
  finite_difference_gradient_opt f x None method w =
    finite_difference_gradient f x (1 / 100000)
      (default "central"%string method) w /\
  finite_difference_hessian_opt f x None w =
    finite_difference_hessian f x (1 / 100000) w /\
  evals (snd (check_hessian_opt f hess_f x None tol verbose w)) =
    evals (snd (finite_difference_hessian f x (1 / 10000) w)).
Proof.
  split; [reflexivity|]. split; [reflexivity|].
  unfold check_hessian_opt. simpl default at 1. apply check_hessian_evals.
Qed.

(** C4, as stated, fails for the Hessian estimator called directly:
    for [f(x) = x^4] at [x = 1] the estimate without an explicit step
    is [12 + 2 * (1e-5)^2], not the [12 + 2 * (1e-4)^2] of step [1e-4]. *)
Lemma default_step_sizes_counterexample :
  fst (finite_difference_hessian_opt quartic [1] None quiet_world) =
    Ok [[12 + 2 * (1 / 100000) ^ 2]] /\
  fst (finite_difference_hessian quartic [1] (1 / 10000) quiet_world) =
    Ok [[12 + 2 * (1 / 10000) ^ 2]] /\
  12 + 2 * (1 / 100000) ^ 2 <> 12 + 2 * (1 / 10000) ^ 2.
Proof.
  split; [|split].
  - unfold finite_difference_hessian_opt. simpl default.
    apply quartic_hessian. lra.
  - apply quartic_hessian. lra.
  - lra.
Qed.

(** ** Parsing the complexity descriptor *)

Lemma prefix_occurs (p s : string) :
  String.prefix p s = true <-> exists v, s = String.append p v.
Proof.
  revert s. induction p as [|c p IH]; intros s; simpl.
  - split; [intros _; now exists s | intros _; now destruct s].
  - destruct s as [|d s]; simpl.
    + split; [discriminate | intros [v Hv]; discriminate].
    + destruct (Ascii.ascii_dec c d) as [->|Hne].
      * rewrite IH. split; intros [v Hv]; exists v; congruence.
      * split; [discriminate | intros [v Hv]; congruence].
Qed.

Lemma str_in_occurs (p s : string) : str_in p s = true <-> occurs p s.
Proof.
  unfold occurs. induction s as [|d s IH].
  - cbn [str_in]. rewrite orb_false_r, prefix_occurs. split.
    + intros [v Hv]. now exists EmptyString, v.
    + intros (u & v & Huv). destruct u; [now exists v | discriminate].
  - cbn [str_in]. rewrite orb_true_iff, prefix_occurs, IH. split.
    + intros [[v Hv]|(u & v & Huv)].
      * now exists EmptyString, v.
      * exists (String d u), v. simpl. congruence.
    + intros (u & v & Huv). destruct u as [|e u]; simpl in Huv.
      * left. now exists v.
      * right. exists u, v. congruence.
Qed.

Lemma str_in_absent (p s : string) : str_in p s = false <-> ~ occurs p s.
Proof.
  rewrite <- str_in_occurs. destruct (str_in p s); split; congruence.
Qed.

(** C5. [verify_complexity] takes the expected exponent to be 3 when
    ["n^3"] occurs in the descriptor, otherwise 2 when ["n^2"] occurs,
    otherwise 1 when ["n"] occurs and no caret does; any other
    descriptor makes it raise the cannot-parse [ValueError], before any
    timing is done. *)
Theorem verify_complexity_parsing {P : Type}
    (func : P -> unit) (sizes : list Z) (setup_func : Z -> P)
    (descr : string) (tol : R) (w : world) :
  (occurs "n^3" descr ->
     verify_complexity func sizes setup_func descr tol w =
       verify_against func sizes setup_func 3 tol w) /\
  (~ occurs "n^3" descr -> occurs "n^2" descr ->
     verify_complexity func sizes setup_func descr tol w =
       verify_against func sizes setup_func 2 tol w) /\
  (~ occurs "n^3" descr -> ~ occurs "n^2" descr ->
   occurs "n" descr -> ~ occurs "^" descr ->
     verify_complexity func sizes setup_func descr tol w =
       verify_against func sizes setup_func 1 tol w) /\
  (~ occurs "n^3" descr -> ~ occurs "n^2" descr ->
   ~ (occurs "n" descr /\ ~ occurs "^" descr) ->
     verify_complexity func sizes setup_func descr tol w =
       (Raise (ValueError (String.append "Cannot parse complexity: " descr)),
        w)).
Proof.
  unfold verify_complexity, parse_expected_complexity.
  repeat split.
  - intros H3. apply str_in_occurs in H3. now rewrite H3.
  - intros H3 H2. apply str_in_absent in H3. apply str_in_occurs in H2.
    now rewrite H3, H2.
  - intros H3 H2 H1 Hc. apply str_in_absent in H3, H2, Hc.
    apply str_in_occurs in H1. now rewrite H3, H2, H1, Hc.
  - intros H3 H2 Hnone. apply str_in_absent in H3, H2. rewrite H3, H2.
    destruct (str_in "n" descr) eqn:H1, (str_in "^" descr) eqn:Hc;
      try reflexivity.
    exfalso. apply Hnone. split.
    + now apply str_in_occurs.
    + now apply str_in_absent.
Qed.

Lemma verify_complexity_parsing_witness :
  verify_complexity (fun _ : unit => tt) [8; 16]%Z (fun _ => tt)
    "O(n^2)" (3 / 10) quiet_world =
    verify_against (fun _ : unit => tt) [8; 16]%Z (fun _ => tt)
      2 (3 / 10) quiet_world /\
  verify_complexity (fun _ : unit => tt) [8; 16]%Z (fun _ => tt)
    "n log n" (3 / 10) quiet_world =
    verify_against (fun _ : unit => tt) [8; 16]%Z (fun _ => tt)
      1 (3 / 10) quiet_world /\
  verify_complexity (fun _ : unit => tt) [8; 16]%Z (fun _ => tt)
    "n^4" (3 / 10) quiet_world =
    (Raise (ValueError "Cannot parse complexity: n^4"), quiet_world).
Proof.
  split; [|split].
  - apply (verify_complexity_parsing (fun _ : unit => tt) [8; 16]%Z
             (fun _ => tt) "O(n^2)" (3 / 10) quiet_world).
    + now apply str_in_absent.
    + now apply str_in_occurs.
  - apply (verify_complexity_parsing (fun _ : unit => tt) [8; 16]%Z
             (fun _ => tt) "n log n" (3 / 10) quiet_world).
    + now apply str_in_absent.
    + now apply str_in_absent.
    + now apply str_in_occurs.
    + now apply str_in_absent.
  - apply (verify_complexity_parsing (fun _ : unit => tt) [8; 16]%Z
             (fun _ => tt) "n^4" (3 / 10) quiet_world).
    + now apply str_in_absent.
    + now apply str_in_absent.
    + intros [_ Hc]. apply Hc. now apply str_in_occurs.
Defined.

(** ** The complexity regression *)

Lemma timing_loop_positive {P : Type} (func : P -> unit) (setup_func : Z -> P)
    (size : Z) (runs : list nat) :
  forall (acc : list R) (w : world),
    increasing_clock w -> Forall (fun e => 0 < e) acc ->
    exists run_times w',
      for_in runs (fun _ run_times =>
        let problem := setup_func size in
        start <- perf_counter ;;
        let _ := func problem in
        stop <- perf_counter ;;
        let elapsed := stop - start in
        ret (run_times ++ [elapsed])) acc w = (Ok run_times, w') /\
      Forall (fun e => 0 < e) run_times /\
      length run_times = (length acc + length runs)%nat.
Proof.
  induction runs as [|r runs IH]; intros acc w Hclock Hacc.
  - exists acc, w. simpl. repeat split; [assumption | lia].
  - cbn [for_in]. cbv zeta. unfold bind at 1 2. unfold perf_counter at 1 2.
    cbn [ticks perf]. unfold bind at 1, ret at 1.
    edestruct (IH (acc ++ [perf w (S (ticks w)) - perf w (ticks w)]))
      as (rt & w' & E & Hpos & Hlen); [ | | rewrite E ].
    + exact Hclock.
    + apply Forall_app. split; [exact Hacc|]. constructor; [|constructor].
      specialize (Hclock (ticks w)). lra.
    + exists rt, w'. repeat split; [assumption|].
      rewrite Hlen, length_app. simpl. lia.
Qed.

Lemma insert_sorted_Forall (Q : R -> Prop) v a :
  Q v -> Forall Q a -> Forall Q (np.insert_sorted v a).
Proof.
  intros Hv. induction 1 as [|u a Hu Ha IH]; simpl.
  - now repeat constructor.
  - destruct (Rle_dec v u); repeat constructor; assumption.
Qed.

Lemma length_insert_sorted v a :
  length (np.insert_sorted v a) = S (length a).
Proof.
  induction a as [|u a IH]; simpl; [reflexivity|].
  destruct (Rle_dec v u); simpl; congruence.
Qed.

Lemma sort_Forall (Q : R -> Prop) a : Forall Q a -> Forall Q (np.sort a).
Proof.
  unfold np.sort. induction 1; simpl; [constructor|].
  now apply insert_sorted_Forall.
Qed.

Lemma length_sort a : length (np.sort a) = length a.
Proof.
  unfold np.sort. induction a as [|v a IH]; simpl; [reflexivity|].
  now rewrite length_insert_sorted, IH.
Qed.

Lemma nth_Forall (Q : R -> Prop) (a : list R) :
  Forall Q a -> forall k, (k < length a)%nat -> Q (nth k a 0).
Proof.
  induction 1 as [|v a Hv Ha IH]; intros k Hk; simpl in *; [lia|].
  destruct k; [exact Hv | apply IH; lia].
Qed.

Lemma median_positive (a : list R) :
  a <> [] -> Forall (fun e => 0 < e) a -> 0 < np.median a.
Proof.
  intros Hne Hpos. unfold np.median.
  pose proof (sort_Forall _ a Hpos) as Hs.
  pose proof (length_sort a) as Hlen.
  assert (Hn : (0 < length (np.sort a))%nat).
  { rewrite Hlen. destruct a; [congruence | simpl; lia]. }
  pose proof (Nat.div_lt (length (np.sort a)) 2 Hn ltac:(lia)) as Hhalf.
  destruct (Nat.even (length (np.sort a))) eqn:Heven.
  - pose proof (nth_Forall _ _ Hs (length (np.sort a) / 2 - 1)%nat ltac:(lia)).
    pose proof (nth_Forall _ _ Hs (length (np.sort a) / 2)%nat Hhalf).
    simpl in *. lra.
  - exact (nth_Forall _ _ Hs _ Hhalf).
Qed.

Lemma lstsq_single (L y : R) (w : world) :
  exists c0,
    np.linalg.lstsq [[1; L]] [y] w = (Ok [c0; L * y / (1 + L ^ 2)], w).
Proof.
  unfold np.linalg.lstsq. cbn [length Nat.eqb negb map nth].
  assert (Hmean : forall v, np.mean [v] = v).
  { intros v. unfold np.mean, np.sum. simpl. field. }
  rewrite !Hmean. cbn [map zip_with].
  replace (np.sumsq [L - L]) with 0
    by (unfold np.sumsq, np.sum; simpl; ring).
  rewrite Reqb_true.
  replace (L * y / (1 + L ^ 2)) with (y / (1 + L * L) * L) by (field; nra).
  eexists. reflexivity.
Qed.

Lemma estimate_complexity_empty {P : Type} (func : P -> unit)
    (setup_func : Z -> P) (n_runs : Z) (w : world) :
  estimate_complexity func [] setup_func n_runs w = (Ok (0, [], []), w).
Proof. reflexivity. Qed.

Lemma estimate_complexity_single {P : Type} (func : P -> unit)
    (setup_func : Z -> P) (n n_runs : Z) (w : world) :
  increasing_clock w -> (1 <= n_runs)%Z ->
  exists t w',
    0 < t /\
    estimate_complexity func [n] setup_func n_runs w =
      (Ok (ln (IZR n) * ln t / (1 + ln (IZR n) ^ 2), [n], [t]), w').
Proof.
  intros Hclock Hruns. unfold estimate_complexity, enumerate.
  cbn [length seq zip zip_with for_in fst snd].
  destruct (timing_loop_positive func setup_func n
              (range 0 (Z.to_nat n_runs)) [] w Hclock ltac:(constructor))
    as (rt & w1 & Ert & Hpos & Hlen).
  erewrite bind_ok.
  2: { erewrite bind_ok.
       2: { rewrite (bind_ok _ _ _ _ _ Ert).
            apply setitem_ok. unfold np.zeros. simpl. lia. }
       reflexivity. }
  unfold np.zeros, np.log.
  cbn [replicate insert list_insert map length zip_with].
  destruct (lstsq_single (ln (IZR n)) (ln (np.median rt)) w1) as (c0 & Efit).
  rewrite (bind_ok _ _ _ _ _ Efit).
  exists (np.median rt), w1. split; [|reflexivity].
  apply median_positive; [|exact Hpos].
  unfold range in Hlen. rewrite length_seq in Hlen.
  destruct rt; [simpl in Hlen; lia | discriminate].
Qed.

Lemma quiet_world_clock : increasing_clock quiet_world.
Proof. intros k. unfold quiet_world. cbn [perf]. rewrite S_INR. lra. Qed.

(** C6, as the code has it. [estimate_complexity] does not look at the
    number of size/time pairs and raises no error of its own when there
    are fewer than two. With no size at all it returns the exponent
    [0.0] (the solution [lstsq] gives for an empty system); with a single
    size [n], timed at least once on a clock that advances, it returns
    the slope [ln n * ln t / (1 + (ln n)^2)] of the minimum-norm
    solution, [t > 0] being the median time. *)
Theorem estimate_complexity_no_sample_check {P : Type}
    (func : P -> unit) (setup_func : Z -> P) (n n_runs : Z) (w : world) :
  estimate_complexity func [] setup_func n_runs w = (Ok (0, [], []), w) /\
  (increasing_clock w -> (1 <= n)%Z -> (1 <= n_runs)%Z ->
     exists t w',
       0 < t /\
       estimate_complexity func [n] setup_func n_runs w =
         (Ok (ln (IZR n) * ln t / (1 + ln (IZR n) ^ 2), [n], [t]), w')).
Proof.
  split.
  - apply estimate_complexity_empty.
  - intros Hclock _ Hruns. now apply estimate_complexity_single.
Qed.

Lemma estimate_complexity_no_sample_check_witness :
  exists t w',
    0 < t /\
    estimate_complexity (fun _ : unit => tt) [8%Z] (fun _ => tt) 3
      quiet_world =
      (Ok (ln 8 * ln t / (1 + ln 8 ^ 2), [8%Z], [t]), w').
Proof.
  apply (proj2 (estimate_complexity_no_sample_check
                  (fun _ : unit => tt) (fun _ => tt) 8 3 quiet_world)).
  - exact quiet_world_clock.
  - lia.
  - lia.
Defined.

(** C6, as stated, fails: with an empty list of sizes, and with a single
    size, [estimate_complexity] returns an exponent instead of raising. *)
Lemma estimate_complexity_no_sample_check_counterexample :
  fst (estimate_complexity (fun _ : unit => tt) [] (fun _ => tt) 3
         quiet_world) = Ok (0, [], []) /\
  exists t,
    0 < t /\
    fst (estimate_complexity (fun _ : unit => tt) [8%Z] (fun _ => tt) 3
           quiet_world) = Ok (ln 8 * ln t / (1 + ln 8 ^ 2), [8%Z], [t]).
Proof.
  split; [reflexivity|].
  destruct (estimate_complexity_single (fun _ : unit => tt) (fun _ => tt)
              8 3 quiet_world quiet_world_clock ltac:(lia))
    as (t & w' & Ht & E).
  exists t. split; [exact Ht | now rewrite E].
Qed.

(** ** The report and an analytic gradient of another length *)





(** A 1 by 1 matrix is repeated along both axes before the
    subtraction, as numpy does. *)
Lemma subtract2_broadcasts_scalar_matrix (w : world) :
  np.subtract2 [[7]] [[0; 1]; [1; 0]] w =
    (Ok [[7 - 0; 7 - 1]; [7 - 1; 7 - 0]], w) /\
  np.subtract2 [[1; 2]] [[0; 1]; [1; 0]] w =
    (Ok [[1 - 0; 2 - 1]; [1 - 1; 2 - 0]], w) /\
  np.subtract2 [[1; 2; 3]] [[0; 1]; [1; 0]] w =
    (Raise (ValueError "operands could not be broadcast together"), w).
Proof. repeat split. Qed.

(** * Further properties *)

(** ** The FLOP model *)

Lemma zrange_nil lo hi : (hi <= lo)%Z -> zrange lo hi = [].
Proof.
  intros H. unfold zrange. replace (Z.to_nat (hi - lo)) with 0%nat by lia.
  reflexivity.
Qed.

Lemma zrange_snoc lo hi :
  (lo <= hi)%Z -> zrange lo (hi + 1) = zrange lo hi ++ [hi].
Proof.
  intros H. unfold zrange.
  replace (Z.to_nat (hi + 1 - lo)) with (Z.to_nat (hi - lo) + 1)%nat by lia.
  rewrite seq_app, map_app. simpl. do 2 f_equal. lia.
Qed.

Lemma triangular_solve_closed_form_nat (k : nat) :
  count_triangular_solve_flops (Z.of_nat k) = (Z.of_nat k ^ 2)%Z.
Proof.
  unfold count_triangular_solve_flops. induction k as [|k IH].
  - reflexivity.
  - replace (Z.of_nat (S k) + 1)%Z with ((Z.of_nat k + 1) + 1)%Z by lia.
    rewrite zrange_snoc by lia. rewrite fold_left_app, IH. simpl. lia.
Qed.

(** X1. [count_triangular_solve_flops(n)] is [n^2] for every [n >= 0],
    and [0] for a negative [n] (the loop body never runs). *)
Theorem count_triangular_solve_flops_closed_form (n : Z) :
  ((0 <= n)%Z -> count_triangular_solve_flops n = (n ^ 2)%Z) /\
  ((n < 0)%Z -> count_triangular_solve_flops n = 0%Z).
Proof.
  split; intros Hn.
  - rewrite <- (Z2Nat.id n Hn). apply triangular_solve_closed_form_nat.
  - unfold count_triangular_solve_flops. now rewrite zrange_nil by lia.
Qed.

Lemma count_triangular_solve_flops_closed_form_witness :
  count_triangular_solve_flops 7 = (7 ^ 2)%Z /\
  count_triangular_solve_flops (-3) = 0%Z.
Proof.
  split.
  - apply (proj1 (count_triangular_solve_flops_closed_form 7)). lia.
  - apply (proj2 (count_triangular_solve_flops_closed_form (-3))). lia.
Defined.

Lemma lu_prefix_sum (n : Z) (j : nat) :
  (6 * fold_left (fun total k => (total + (n - k) + 2 * (n - k) ^ 2)%Z)
         (zrange 0 (Z.of_nat j)) 0
   = n * (n + 1) * (4 * n + 5)
     - (n - Z.of_nat j) * (n - Z.of_nat j + 1) * (4 * (n - Z.of_nat j) + 5))%Z.
Proof.
  induction j as [|j IH].
  - simpl. lia.
  - replace (Z.of_nat (S j)) with (Z.of_nat j + 1)%Z by lia.
    rewrite zrange_snoc by lia. rewrite fold_left_app. simpl.
    set (s := fold_left _ _ _) in *. nia.
Qed.

Lemma lu_closed (n : Z) :
  (1 <= n)%Z -> (6 * count_lu_flops n = n * (n + 1) * (4 * n + 5) - 18)%Z.
Proof.
  intros Hn. unfold count_lu_flops.
  replace (n - 1)%Z with (Z.of_nat (Z.to_nat (n - 1))) by lia.
  rewrite lu_prefix_sum. rewrite Z2Nat.id by lia. ring.
Qed.

(** X2. [count_lu_flops(n)] has the closed form
    [(n (n + 1) (4 n + 5) - 18) / 6] for every [n >= 1], and is [0] for
    [n <= 1] (no elimination step). *)
Theorem count_lu_flops_closed_form (n : Z) :
  ((1 <= n)%Z ->
     (6 * count_lu_flops n = n * (n + 1) * (4 * n + 5) - 18)%Z) /\
  ((n <= 1)%Z -> count_lu_flops n = 0%Z).
Proof.
  split; intros Hn.
  - now apply lu_closed.
  - unfold count_lu_flops. now rewrite zrange_nil by lia.
Qed.

Lemma count_lu_flops_closed_form_witness :
  (6 * count_lu_flops 4 = 4 * (4 + 1) * (4 * 4 + 5) - 18)%Z /\
  count_lu_flops 0 = 0%Z.
Proof.
  split.
  - apply (proj1 (count_lu_flops_closed_form 4)). lia.
  - apply (proj2 (count_lu_flops_closed_form 0)). lia.
Defined.

(** X3. The Cholesky count, half the LU count rounded down, is the
    classical [n^3 / 3] up to a quadratic term: for every [n >= 2],
    [n^3 <= 3 * count_cholesky_flops(n) <= n^3 + 3 n^2]. *)
Theorem count_cholesky_flops_cubic (n : Z) :
  (2 <= n)%Z ->
  (n ^ 3 <= 3 * count_cholesky_flops n <= n ^ 3 + 3 * n ^ 2)%Z.
Proof.
  intros Hn. unfold count_cholesky_flops.
  pose proof (lu_closed n ltac:(lia)) as Hlu.
  pose proof (Z.div_mod (count_lu_flops n) 2 ltac:(lia)) as Hdiv.
  pose proof (Z.mod_pos_bound (count_lu_flops n) 2 ltac:(lia)) as Hmod.
  set (q := (count_lu_flops n / 2)%Z) in *.
  set (r := (count_lu_flops n mod 2)%Z) in *.
  set (lu := count_lu_flops n) in *.
  replace (n ^ 3)%Z with (n * n * n)%Z by ring.
  replace (n ^ 2)%Z with (n * n)%Z by ring.
  split; nia.
Qed.

Lemma count_cholesky_flops_cubic_witness :
  (5 ^ 3 <= 3 * count_cholesky_flops 5 <= 5 ^ 3 + 3 * 5 ^ 2)%Z.
Proof. apply (count_cholesky_flops_cubic 5). lia. Defined.

(** X4. [count_qr_flops(m, n)] is [2 m n^2 - 2 n^3 / 3] with the
    division rounded down, so three times the count lies within 2 of
    [6 m n^2 - 2 n^3]; for a matrix with at least as many rows as
    columns ([0 <= n <= m]) the count is at least [4 n^3 / 3], hence
    never negative. *)
Theorem count_qr_flops_bounds (m n : Z) :
  (6 * m * n ^ 2 - 2 * n ^ 3 <= 3 * count_qr_flops m n
     <= 6 * m * n ^ 2 - 2 * n ^ 3 + 2)%Z /\
  ((0 <= n <= m)%Z ->
     (4 * n ^ 3 <= 3 * count_qr_flops m n)%Z /\ (0 <= count_qr_flops m n)%Z).
Proof.
  unfold count_qr_flops.
  pose proof (Z.div_mod (2 * n ^ 3) 3 ltac:(lia)) as Hdiv.
  pose proof (Z.mod_pos_bound (2 * n ^ 3) 3 ltac:(lia)) as Hmod.
  set (q := ((2 * n ^ 3) / 3)%Z) in *.
  set (r := ((2 * n ^ 3) mod 3)%Z) in *.
  split; [lia|]. intros [Hn Hm].
  assert (Hcube : (0 <= n ^ 3)%Z) by (apply Z.pow_nonneg; lia).
  assert (Hmn : (n * n ^ 2 <= m * n ^ 2)%Z).
  { apply Z.mul_le_mono_nonneg_r; [apply Z.pow_nonneg|]; lia. }
  replace (n * n ^ 2)%Z with (n ^ 3)%Z in Hmn by ring.
  split; lia.
Qed.

Lemma count_qr_flops_bounds_witness :
  (4 * 3 ^ 3 <= 3 * count_qr_flops 5 3)%Z /\ (0 <= count_qr_flops 5 3)%Z.
Proof.
  apply (proj2 (count_qr_flops_bounds 5 3)). lia.
Defined.

(** X5. On a [FlopCounter], [m] calls of [dot(n)] advance the count
    exactly as one call of [matvec(m, n)] does; each [dot(n)] is charged
    [2 n], one more than [count_dot_product_flops(n)]. *)
Theorem FlopCounter_dot_matvec (fc : FlopCounter) (m : nat) (n : Z) :
  Nat.iter m (fun self => FlopCounter_.dot self n) fc =
    FlopCounter_.matvec fc (Z.of_nat m) n /\
  count (FlopCounter_.dot fc n) =
    (count fc + count_dot_product_flops n + 1)%Z.
Proof.
  split.
  - induction m as [|m IH].
    + destruct fc as [c]. unfold FlopCounter_.matvec, count_matvec_flops.
      simpl. f_equal. lia.
    + simpl Nat.iter. rewrite IH.
      unfold FlopCounter_.dot, FlopCounter_.matvec, count_matvec_flops.
      simpl count. f_equal. lia.
  - unfold FlopCounter_.dot, count_dot_product_flops. simpl. lia.
Qed.

(** ** Memory counts *)

Lemma wrap64_small z : (- 2 ^ 63 <= z < 2 ^ 63)%Z -> wrap64 z = z.
Proof.
  intros Hz. unfold wrap64. rewrite Z.mod_small by lia. lia.
Qed.

Lemma wrap64_mul_l a d : wrap64 (wrap64 a * d) = wrap64 (a * d).
Proof.
  unfold wrap64. f_equal.
  replace ((a + 2 ^ 63) mod 2 ^ 64 - 2 ^ 63)%Z
    with (a + (- ((a + 2 ^ 63) / 2 ^ 64)) * 2 ^ 64)%Z.
  2: { pose proof (Z.div_mod (a + 2 ^ 63) (2 ^ 64) ltac:(lia)). lia. }
  replace ((a + - ((a + 2 ^ 63) / 2 ^ 64) * 2 ^ 64) * d + 2 ^ 63)%Z
    with (a * d + 2 ^ 63 + (- ((a + 2 ^ 63) / 2 ^ 64) * d) * 2 ^ 64)%Z by ring.
  apply Z.mod_add. lia.
Qed.

Lemma prod_int64_wrap (shape : list Z) : forall acc,
  fold_left (fun acc d => wrap64 (acc * d)) shape (wrap64 acc) =
    wrap64 (fold_left Z.mul shape acc).
Proof.
  induction shape as [|d shape IH]; intros acc; simpl; [reflexivity|].
  rewrite wrap64_mul_l. apply IH.
Qed.

(** X6. [count_memory_bytes] raises the unknown-dtype [ValueError] for
    any dtype outside its four-entry table; for a known dtype and
    dimensions that fit 64 bits it returns the number of elements times
    the element size whenever that product fits a signed 64-bit integer
    (whatever the intermediate products do). *)
Theorem count_memory_bytes_exact (dtype : string) (shape : list Z) (w : world) :
  (dict_get bytes_per_element dtype = None ->
     count_memory_bytes dtype shape w =
       (Raise (ValueError (String.append "Unknown dtype: " dtype)), w)) /\
  (forall size,
     dict_get bytes_per_element dtype = Some size ->
     Forall (fun d => (- 2 ^ 63 <= d < 2 ^ 63)%Z) shape ->
     (- 2 ^ 63 <= fold_left Z.mul shape 1 * size < 2 ^ 63)%Z ->
     count_memory_bytes dtype shape w =
       (Ok (fold_left Z.mul shape 1 * size)%Z, w)).
Proof.
  unfold count_memory_bytes. split.
  - now intros ->.
  - intros size -> _ Hfit. unfold prod_int64, ret.
    rewrite <- (wrap64_small 1) at 1 by lia.
    rewrite prod_int64_wrap, wrap64_mul_l. now rewrite wrap64_small.
Qed.

Lemma count_memory_bytes_exact_witness :
  count_memory_bytes "float16" [3; 4]%Z quiet_world =
    (Raise (ValueError "Unknown dtype: float16"), quiet_world) /\
  count_memory_bytes "float64" [3; 4]%Z quiet_world =
    (Ok 96%Z, quiet_world).
Proof.
  split.
  - apply (proj1 (count_memory_bytes_exact "float16" [3; 4]%Z quiet_world)).
    reflexivity.
  - apply (proj2 (count_memory_bytes_exact "float64" [3; 4]%Z quiet_world)
             8%Z).
    + reflexivity.
    + repeat constructor; lia.
    + simpl. lia.
Defined.

(** ** Benchmarks *)

Lemma randn_shape_ok (dims : list Z) (w : world) :
  Forall (fun d => (0 <= d)%Z) dims ->
  exists z,
    randn_shape dims w =
      (Ok z, mkWorld (evals w) (stdout w) (perf w) (ticks w) (gauss w)
               (drawn w + Z.to_nat (fold_right Z.mul 1%Z dims))).
Proof.
  intros Hdims. unfold randn_shape.
  replace (existsb (fun d => (d <? 0)%Z) dims) with false.
  - eexists. reflexivity.
  - symmetry. induction Hdims as [|d dims Hd _ IH]; simpl; [reflexivity|].
    rewrite IH. destruct (Z.ltb_spec d 0); [lia | reflexivity].
Qed.

Lemma randn_shape_negative (dims : list Z) (w : world) :
  Exists (fun d => (d < 0)%Z) dims ->
  randn_shape dims w =
    (Raise (ValueError "negative dimensions are not allowed"), w).
Proof.
  intros Hdims. unfold randn_shape.
  replace (existsb (fun d => (d <? 0)%Z) dims) with true; [reflexivity|].
  symmetry. induction Hdims as [d dims Hd|d dims _ IH]; simpl.
  - destruct (Z.ltb_spec d 0); [reflexivity | lia].
  - rewrite IH. apply orb_true_r.
Qed.

Lemma benchmark_loop (runs : list nat) :
  forall (acc : list R) (w : world),
    exists times w',
      for_in runs (fun _ times =>
        start <- perf_counter ;;
        (ret tt : M unit) ;;;
        stop <- perf_counter ;;
        let elapsed := stop - start in
        ret (times ++ [elapsed])) acc w = (Ok times, w') /\
      ticks w' = (ticks w + 2 * length runs)%nat /\
      drawn w' = drawn w.
Proof.
  induction runs as [|r runs IH]; intros acc w.
  - exists acc, w. simpl. repeat split; lia.
  - cbn [for_in]. unfold bind at 1 2 3 4. unfold perf_counter at 1 2.
    unfold ret at 1 2. cbn [ticks perf].
    edestruct IH as (times & w' & E & Hticks & Hdrawn). rewrite E.
    exists times, w'. split; [reflexivity|].
    rewrite Hticks, Hdrawn. simpl. split; lia.
Qed.

Lemma randn_shape_twice (dims1 dims2 : list Z) (v : Z) (w : world) :
  Forall (fun d => (0 <= d)%Z) dims1 ->
  Forall (fun d => (0 <= d)%Z) dims2 ->
  (z1 <- randn_shape dims1 ;; z2 <- randn_shape dims2 ;; ret v) w =
    (Ok v, mkWorld (evals w) (stdout w) (perf w) (ticks w) (gauss w)
             (drawn w + Z.to_nat (fold_right Z.mul 1%Z dims1)
                      + Z.to_nat (fold_right Z.mul 1%Z dims2))).
Proof.
  intros H1 H2. destruct (randn_shape_ok dims1 w H1) as (z1 & E1).
  rewrite (bind_ok _ _ _ _ _ E1).
  match goal with |- bind _ _ ?w1 = _ =>
    destruct (randn_shape_ok dims2 w1 H2) as (z2 & E2) end.
  rewrite (bind_ok _ _ _ _ _ E2). reflexivity.
Qed.

Lemma randn_shape_first_negative (dims1 dims2 : list Z) (v : Z) (w : world) :
  Exists (fun d => (d < 0)%Z) dims1 ->
  (z1 <- randn_shape dims1 ;; z2 <- randn_shape dims2 ;; ret v) w =
    (Raise (ValueError "negative dimensions are not allowed"), w).
Proof.
  intros H1. erewrite bind_raise; [reflexivity|].
  now apply randn_shape_negative.
Qed.

(** X7. [benchmark_operation] raises the unknown-operation
    [ValueError] for every name other than its three, before drawing a
    random number or reading the clock. For one of the three names a
    negative size raises numpy's negative-dimensions [ValueError]; a
    size [n >= 0] gives a report whose [flops] is the FLOP model's count
    for that operation and size, after [2 n], [n^2 + n] or [2 n^2]
    random draws and two clock readings per timed run (none for the
    warm-up call). *)
Theorem benchmark_operation_report
    (op : string) (n n_runs : Z) (w : world) :
  (dict_get (benchmark_flops n) op = None ->
     benchmark_operation op n n_runs w =
       (Raise (ValueError (String.append "Unknown operation: " op)), w)) /\
  (forall fl dr,
     dict_get (benchmark_flops n) op = Some fl ->
     dict_get (benchmark_draws n) op = Some dr ->
     ((n < 0)%Z ->
        benchmark_operation op n n_runs w =
          (Raise (ValueError "negative dimensions are not allowed"), w)) /\
     ((0 <= n)%Z ->
        exists r w',
          benchmark_operation op n n_runs w = (Ok r, w') /\
          bench_operation r = op /\ bench_size r = n /\
          bench_flops r = fl /\
          drawn w' = (drawn w + Z.to_nat dr)%nat /\
          ticks w' = (ticks w + 2 * Z.to_nat n_runs)%nat)).
Proof.
  unfold benchmark_operation, benchmark_flops, benchmark_draws.
  cbn [dict_get].
  destruct (String.eqb_spec op "dot_product") as [->|_];
    [|destruct (String.eqb_spec op "matvec") as [->|_];
      [|destruct (String.eqb_spec op "matmul") as [->|_]]].
  4: { split; [reflexivity | discriminate]. }
  all: split; [discriminate|]; intros fl dr [= <-] [= <-]; split; intros Hn.
  all: try (erewrite bind_raise; [reflexivity|];
            apply randn_shape_first_negative; constructor; exact Hn).
  all: erewrite bind_ok
         by (apply randn_shape_twice; repeat constructor; lia).
  all: cbv zeta; rewrite bind_ret.
  all: match goal with |- context [bind (for_in ?runs _ ?acc) _ ?w1] =>
         destruct (benchmark_loop runs acc w1)
           as (times & w2 & Eloop & Hticks & Hdrawn) end.
  all: rewrite (bind_ok _ _ _ _ _ Eloop).
  all: eexists _, _; split; [reflexivity|]; cbn [bench_operation bench_size
         bench_flops bench_gflops bench_time_seconds].
  all: repeat split.
  all: rewrite ?Hticks, ?Hdrawn; cbn [drawn ticks];
       unfold range; rewrite ?length_seq; cbn [fold_right]; lia.
Qed.

Lemma benchmark_operation_report_witness :
  benchmark_operation "solve" 4 10 quiet_world =
    (Raise (ValueError "Unknown operation: solve"), quiet_world) /\
  exists r w',
    benchmark_operation "matvec" 4 10 quiet_world = (Ok r, w') /\
    bench_operation r = "matvec"%string /\ bench_size r = 4%Z /\
    bench_flops r = 32%Z /\
    drawn w' = 20%nat /\ ticks w' = 20%nat.
Proof.
  split.
  - apply (proj1 (benchmark_operation_report "solve" 4 10 quiet_world)).
    reflexivity.
  - apply (proj2 (benchmark_operation_report "matvec" 4 10 quiet_world)
             32%Z 20%Z eq_refl eq_refl).
    lia.
Defined.

(** ** The scaled 2-norm *)

Lemma sumsq_scaled (a : list R) (m : R) :
  m <> 0 ->
  np.sumsq (map (fun v => v / m) (np.abs a)) = np.sumsq a / (m * m).
Proof.
  intros Hm. induction a as [|v a IH].
  - unfold np.sumsq, np.sum. simpl. field. exact Hm.
  - unfold np.abs in *. cbn [map]. rewrite !sumsq_cons, IH.
    replace (Rabs v / m * (Rabs v / m)) with (Rsqr (Rabs v) / (m * m))
      by (unfold Rsqr; field; exact Hm).
    rewrite <- Rsqr_abs. unfold Rsqr. field. exact Hm.
Qed.

Lemma vector_norm_euclidean (x : list R) (w : world) :
  vector_norm x w = (Ok (np.linalg.norm x), w).
Proof.
  destruct (Req_dec_T (np.linalg.norm x) 0) as [Hz|Hnz].
  - rewrite Hz. apply norm_zero_iff in Hz. rewrite Hz.
    apply vector_norm_zeros.
  - unfold vector_norm. destruct x as [|v x]; [now rewrite norm_nil in Hnz|].
    change (length (v :: x) =? 0)%nat with false. cbv iota.
    set (m := np.max_from (Rabs v) (np.abs x)).
    assert (Hall : Forall (fun u => u <= m) (np.abs (v :: x))).
    { constructor; [apply max_from_ge_best | apply max_from_ge]. }
    assert (Hm : 0 < m).
    { destruct (Rlt_le_dec 0 m) as [|Hle]; [assumption|].
      exfalso. apply Hnz, norm_zero_iff. now apply (all_zero_of_bound _ m). }
    erewrite bind_ok by (unfold np.abs, np.max; simpl; reflexivity).
    fold (np.abs x). fold m. rewrite Reqb_false by lra.
    unfold ret. do 2 f_equal.
    change (Rabs v :: np.abs x) with (np.abs (v :: x)).
    rewrite sumsq_scaled by lra. unfold np.linalg.norm.
    rewrite sqrt_div_alt by nra.
    rewrite sqrt_square by lra. field. lra.
Qed.

(** X8. [vector_norm(x)] (order 2), which divides by the largest entry
    before squaring so as not to overflow, returns the Euclidean norm
    [sqrt(sum(x_i^2))] of [x], for every [x], the empty and the zero
    vector included. *)
Theorem vector_norm_is_euclidean (x : list R) (w : world) :
  vector_norm x w = (Ok (sqrt (np.sum (map (fun v => v * v) x))), w).
Proof. apply vector_norm_euclidean. Qed.

(** ** Relative errors *)

Lemma minus_eq_zeros : forall (x ref : list R),
  length x = length ref ->
  (zip_with Rminus x ref = np.zeros (length (zip_with Rminus x ref)) <->
   x = ref).
Proof.
  unfold np.zeros. induction x as [|v x IH]; intros [|r ref] Hlen;
    try discriminate; simpl; [tauto|].
  injection Hlen as Hlen. specialize (IH ref Hlen). split.
  - intros [= Hv Hrest]. f_equal; [lra | now apply IH].
  - intros [= -> ->]. f_equal; [lra | now apply IH].
Qed.

Lemma norm_minus_zero_iff (x ref : list R) :
  length x = length ref ->
  (np.linalg.norm (zip_with Rminus x ref) = 0 <-> x = ref).
Proof.
  intros Hlen. rewrite norm_zero_iff. now apply minus_eq_zeros.
Qed.

Lemma relative_error_value (x ref : list R) (w : world) :
  length x = length ref ->
  relative_error x ref w =
    (Ok (if Reqb (np.linalg.norm ref) 0
         then if Rltb 0 (np.linalg.norm (zip_with Rminus x ref))
              then Infinity else Finite 0
         else Finite (np.linalg.norm (zip_with Rminus x ref)
                      / np.linalg.norm ref)), w).
Proof.
  intros Hlen. unfold relative_error.
  rewrite (bind_ok _ _ _ _ _ (subtract_same_length x ref w Hlen)).
  rewrite (bind_ok _ _ _ _ _ (vector_norm_euclidean _ w)).
  rewrite (bind_ok _ _ _ _ _ (vector_norm_euclidean _ w)).
  now destruct (Reqb (np.linalg.norm ref) 0).
Qed.

(** X9. For arrays of one length, [relative_error(x, x_ref)] returns
    [0.0] exactly when [x] equals [x_ref], returns infinity exactly when
    [x_ref] is the zero vector and [x] is not, and otherwise returns the
    non-negative quotient [||x - x_ref|| / ||x_ref||]. *)
Theorem relative_error_zero_iff_equal (x ref : list R) (w : world) :
  length x = length ref ->
  exists v,
    relative_error x ref w = (Ok v, w) /\
    (v = Finite 0 <-> x = ref) /\
    (v = Infinity <-> ref = np.zeros (length ref) /\ x <> ref) /\
    (forall r, v = Finite r ->
       0 <= r /\
       (ref <> np.zeros (length ref) ->
          r = np.linalg.norm (zip_with Rminus x ref) / np.linalg.norm ref)).
Proof.
  intros Hlen. rewrite (relative_error_value x ref w Hlen).
  eexists. split; [reflexivity|].
  pose proof (norm_nonneg (zip_with Rminus x ref)) as Hd.
  pose proof (norm_nonneg ref) as Hr.
  pose proof (norm_minus_zero_iff x ref Hlen) as Heq.
  pose proof (norm_zero_iff ref) as Hzero.
  destruct (Req_dec_T (np.linalg.norm ref) 0) as [Hz|Hnz].
  - rewrite Hz, Reqb_true.
    destruct (Req_dec_T (np.linalg.norm (zip_with Rminus x ref)) 0)
      as [Hdz|Hdnz].
    + rewrite Hdz, Rltb_irrefl. split; [|split].
      * tauto.
      * split; [discriminate | tauto].
      * intros r [= <-]. split; [lra | tauto].
    + rewrite Rltb_true by lra. split; [|split].
      * split; [discriminate | tauto].
      * tauto.
      * discriminate.
  - rewrite Reqb_false by exact Hnz. split; [|split].
    + split.
      * intros [= H0]. apply Heq. unfold Rdiv in H0.
        apply Rmult_integral in H0 as [H0|H0]; [exact H0|].
        exfalso. revert H0. apply Rinv_neq_0_compat. exact Hnz.
      * intros Hxr. apply Heq in Hxr. rewrite Hxr. f_equal. field. exact Hnz.
    + split; [discriminate | tauto].
    + intros r [= <-]. split; [|reflexivity].
      apply Rmult_le_pos; [exact Hd|].
      left. apply Rinv_0_lt_compat. lra.
Qed.

Lemma relative_error_zero_iff_equal_witness :
  exists v,
    relative_error [1; 2] [1; 3] quiet_world = (Ok v, quiet_world) /\
    (v = Finite 0 <-> [1; 2] = [1; 3]).
Proof.
  destruct (relative_error_zero_iff_equal [1; 2] [1; 3] quiet_world eq_refl)
    as (v & E & H0 & _).
  exists v. split; [exact E | exact H0].
Defined.

Lemma sumsq_scale (c : R) (a : list R) :
  np.sumsq (np.scale c a) = c * c * np.sumsq a.
Proof.
  unfold np.scale. induction a as [|v a IH].
  - unfold np.sumsq, np.sum. simpl. ring.
  - cbn [map]. rewrite !sumsq_cons, IH. ring.
Qed.

Lemma norm_scale (c : R) (a : list R) :
  np.linalg.norm (np.scale c a) = Rabs c * np.linalg.norm a.
Proof.
  unfold np.linalg.norm. rewrite sumsq_scale.
  rewrite sqrt_mult_alt by nra.
  f_equal. fold (Rsqr c). apply sqrt_Rsqr_abs.
Qed.

Lemma scale_minus (c : R) : forall (x ref : list R),
  zip_with Rminus (np.scale c x) (np.scale c ref) =
    np.scale c (zip_with Rminus x ref).
Proof.
  unfold np.scale. induction x as [|v x IH]; intros [|r ref]; simpl;
    try reflexivity.
  rewrite IH. f_equal. ring.
Qed.

(** X10. In exact arithmetic (floats as real numbers, no rounding),
    [relative_error] does not depend on the unit: multiplying both
    arrays by one nonzero factor leaves the result unchanged (zero,
    infinite or finite). In floating point the two results can differ
    by rounding. *)
Theorem relative_error_scale_invariant (c : R) (x ref : list R) (w : world) :
  c <> 0 -> length x = length ref ->
  relative_error (np.scale c x) (np.scale c ref) w = relative_error x ref w.
Proof.
  intros Hc Hlen.
  rewrite (relative_error_value x ref w Hlen).
  rewrite relative_error_value
    by (unfold np.scale; rewrite !length_map; exact Hlen).
  rewrite scale_minus, !norm_scale.
  pose proof (Rabs_pos_lt c Hc) as Habs.
  pose proof (norm_nonneg (zip_with Rminus x ref)) as Hd.
  pose proof (norm_nonneg ref) as Hr.
  destruct (Req_dec_T (np.linalg.norm ref) 0) as [Hz|Hnz].
  - rewrite Hz, Rmult_0_r, Reqb_true.
    destruct (Req_dec_T (np.linalg.norm (zip_with Rminus x ref)) 0)
      as [Hdz|Hdnz].
    + now rewrite Hdz, Rmult_0_r, Rltb_irrefl.
    + rewrite !Rltb_true; [reflexivity | lra | nra].
  - rewrite !Reqb_false; [|exact Hnz|nra].
    do 3 f_equal. field. split; [exact Hnz | lra].
Qed.

Lemma relative_error_scale_invariant_witness :
  relative_error (np.scale 1000 [1; 2]) (np.scale 1000 [1; 3]) quiet_world =
    relative_error [1; 2] [1; 3] quiet_world.
Proof.
  apply (relative_error_scale_invariant 1000 [1; 2] [1; 3] quiet_world).
  - lra.
  - reflexivity.
Defined.

(** ** The orders 1, 2, infinity and 0 *)

Lemma sum_abs_nonneg (x : list R) : 0 <= np.sum (np.abs x).
Proof.
  unfold np.sum, np.abs. induction x as [|v x IH]; simpl; [lra|].
  pose proof (Rabs_pos v). lra.
Qed.

Lemma sum_abs_zero_iff (x : list R) :
  np.sum (np.abs x) = 0 <-> x = np.zeros (length x).
Proof.
  unfold np.zeros. induction x as [|v x IH]; simpl; [tauto|].
  pose proof (sum_abs_nonneg x) as Hx. pose proof (Rabs_pos v) as Hv.
  unfold np.sum, np.abs in *. simpl. split.
  - intros H. assert (Rabs v = 0) as Hv0 by lra.
    assert (v = 0) as ->.
    { destruct (Req_dec v 0) as [|Hne]; [assumption|].
      apply Rabs_pos_lt in Hne. lra. }
    f_equal. apply IH. lra.
  - intros [= -> Hrest]. apply IH in Hrest. rewrite Rabs_R0. lra.
Qed.

Lemma sumsq_le_sum_abs (x : list R) :
  np.sumsq x <= np.sum (np.abs x) * np.sum (np.abs x).
Proof.
  induction x as [|v x IH].
  - unfold np.sumsq, np.sum. simpl. lra.
  - rewrite sumsq_cons. pose proof (sum_abs_nonneg x) as Hx.
    unfold np.abs in *. cbn [map]. unfold np.sum in *. cbn [fold_right].
    pose proof (Rabs_pos v) as Hv.
    assert (v * v = Rabs v * Rabs v) as ->.
    { fold (Rsqr v) (Rsqr (Rabs v)). apply Rsqr_abs. }
    nra.
Qed.

Lemma abs_le_norm (x : list R) : Forall (fun u => u <= np.linalg.norm x) (np.abs x).
Proof.
  unfold np.linalg.norm, np.abs. induction x as [|v x IH]; simpl; constructor.
  - rewrite sumsq_cons. rewrite <- sqrt_Rsqr_abs.
    apply sqrt_le_1_alt. pose proof (sumsq_nonneg x). unfold Rsqr. lra.
  - eapply Forall_impl; [exact IH|]. intros u Hu. simpl in Hu.
    eapply Rle_trans; [exact Hu|]. apply sqrt_le_1_alt.
    rewrite sumsq_cons. nra.
Qed.

Lemma max_from_lub (a : list R) : forall best B,
  best <= B -> Forall (fun u => u <= B) a -> np.max_from best a <= B.
Proof.
  induction a as [|v a IH]; intros best B Hb Ha; simpl; [exact Hb|].
  inversion Ha; subst. apply IH; [|assumption].
  now destruct (Rlt_dec best v).
Qed.

Lemma vector_norm_p_value (x : list R) (p : vector_order) (w : world) :
  vector_norm_p x p w =
    (Ok (match p with
         | P1 => np.sum (np.abs x)
         | P2 => np.linalg.norm x
         | PInf => match np.abs x with
                   | [] => 0
                   | v :: a => np.max_from v a
                   end
         | P0 => count_nonzero x
         end), w).
Proof.
  unfold vector_norm_p. destruct x as [|v x].
  - destruct p; try reflexivity.
    + now rewrite norm_nil.
  - change (length (v :: x) =? 0)%nat with false. cbv iota.
    destruct p; try reflexivity. apply vector_norm_euclidean.
Qed.

(** X11. The three genuine norms of [vector_norm] are ordered: for
    every [x], [vector_norm(x, inf) <= vector_norm(x, 2) <=
    vector_norm(x, 1)]. *)
Theorem vector_norm_orders (x : list R) (w : world) :
  exists n1 n2 ninf,
    vector_norm_p x P1 w = (Ok n1, w) /\
    vector_norm_p x P2 w = (Ok n2, w) /\
    vector_norm_p x PInf w = (Ok ninf, w) /\
    ninf <= n2 <= n1.
Proof.
  rewrite !vector_norm_p_value. eexists _, _, _.
  split; [reflexivity|]. split; [reflexivity|]. split; [reflexivity|].
  split.
  - pose proof (abs_le_norm x) as Hall.
    destruct (np.abs x) as [|v a]; [apply norm_nonneg|].
    inversion Hall; subst. now apply max_from_lub.
  - unfold np.linalg.norm.
    rewrite <- (sqrt_square (np.sum (np.abs x))) by apply sum_abs_nonneg.
    apply sqrt_le_1_alt, sumsq_le_sum_abs.
Qed.

Lemma count_nonzero_zero_iff (x : list R) :
  count_nonzero x = 0 <-> x = np.zeros (length x).
Proof.
  unfold count_nonzero, np.zeros. split.
  - intros H. apply (INR_eq _ 0) in H.
    induction x as [|v x IH]; simpl in *; [reflexivity|].
    destruct (Req_dec_T v 0) as [->|Hne].
    + rewrite Reqb_true in H. simpl in H. f_equal. now apply IH.
    + rewrite Reqb_false in H by exact Hne. discriminate.
  - intros H. replace (List.filter _ x) with (@nil R); [reflexivity|].
    induction x as [|v x IH]; simpl in *; [reflexivity|].
    injection H as -> H. rewrite Reqb_true. simpl. now apply IH.
Qed.

(** X12. For each of the orders 1, 2, infinity and 0, [vector_norm]
    returns a non-negative number that is [0] exactly when every entry
    of [x] is zero (in particular for the empty array). *)
Theorem vector_norm_p_definite (x : list R) (p : vector_order) (w : world) :
  exists r,
    vector_norm_p x p w = (Ok r, w) /\
    0 <= r /\
    (r = 0 <-> x = np.zeros (length x)).
Proof.
  rewrite vector_norm_p_value. eexists. split; [reflexivity|].
  destruct p.
  - split; [apply sum_abs_nonneg | apply sum_abs_zero_iff].
  - split; [apply norm_nonneg | apply norm_zero_iff].
  - destruct x as [|v x]; [simpl; split; [lra | tauto]|].
    change (np.abs (v :: x)) with (Rabs v :: np.abs x).
    pose proof (max_from_ge_best (np.abs x) (Rabs v)) as Hbest.
    pose proof (Rabs_pos v) as Hv. split; [lra|]. split.
    + intros H0. apply (all_zero_of_bound (v :: x) 0); [|lra].
      rewrite <- H0. constructor; [exact Hbest | apply max_from_ge].
    + intros Hz. apply Rle_antisym; [|lra].
      apply max_from_lub.
      * unfold np.zeros in Hz. simpl in Hz. injection Hz as -> _.
        rewrite Rabs_R0. lra.
      * unfold np.zeros in Hz. simpl in Hz. injection Hz as _ Hx.
        rewrite Hx. fold (np.zeros (length x)). rewrite abs_zeros.
        unfold np.zeros. apply Forall_forall. intros u Hu.
        apply elem_of_replicate in Hu as [-> _]. lra.
  - split; [apply pos_INR | apply count_nonzero_zero_iff].
Qed.

(** ** Matrix norms and residuals *)

Lemma sumsq_app (a b : list R) : np.sumsq (a ++ b) = np.sumsq a + np.sumsq b.
Proof.
  induction a as [|v a IH].
  - unfold np.sumsq at 2, np.sum. simpl. lra.
  - simpl app. rewrite !sumsq_cons, IH. lra.
Qed.

Lemma sumsq_abs_pow (row : list R) :
  np.sumsq row = np.sum (map (fun v => Rabs v ^ 2) row).
Proof.
  unfold np.sumsq, np.sum. induction row as [|v row IH]; simpl; [reflexivity|].
  rewrite IH. f_equal.
  replace (Rabs v * (Rabs v * 1)) with (Rsqr (Rabs v)) by (unfold Rsqr; ring).
  rewrite <- Rsqr_abs. reflexivity.
Qed.

Lemma sumsq_concat (A : list (list R)) :
  np.sumsq (concat A) =
    np.sum (map (fun row => np.sum (map (fun v => Rabs v ^ 2) row)) A).
Proof.
  induction A as [|row A IH]; [reflexivity|].
  simpl concat. rewrite sumsq_app, IH, sumsq_abs_pow. reflexivity.
Qed.

(** X13. In exact arithmetic (floats as real numbers, no rounding
    and no overflow), [matrix_norm(A, 'fro')] and [vector_norm] of the
    flattened matrix return the same number, for every matrix, the
    empty one included. In floating point the two can differ by
    rounding, and only [vector_norm] scales against overflow. *)
Theorem matrix_norm_fro_is_vector_norm
    (singular_values : list (list R) -> list R) (A : list (list R))
    (w : world) :
  matrix_norm singular_values A OrdFro w = vector_norm (concat A) w.
Proof.
  rewrite vector_norm_euclidean. unfold matrix_norm, matrix_size.
  destruct (Nat.eqb_spec (length (concat A)) 0) as [Hz|Hnz].
  - apply length_zero_iff_nil in Hz. rewrite Hz. now rewrite norm_nil.
  - unfold ret, np.linalg.norm. now rewrite sumsq_concat.
Qed.

(** X14. [matrix_norm] returns [0.0] for a matrix without entries
    whatever the order asked for, an unsupported one included; for a
    matrix with entries an unsupported order raises [ValueError]. *)
Theorem matrix_norm_empty_and_unsupported
    (singular_values : list (list R) -> list R) (A : list (list R))
    (ord : matrix_order) (w : world) :
  (matrix_size A = 0%nat ->
     matrix_norm singular_values A ord w = (Ok 0, w)) /\
  (matrix_size A <> 0%nat ->
     forall text,
       matrix_norm singular_values A (OrdOther text) w =
         (Raise (ValueError (String.append "Unsupported matrix norm: " text)),
          w)).
Proof.
  unfold matrix_norm. split.
  - intros ->. reflexivity.
  - intros Hne text. now destruct (Nat.eqb_spec (matrix_size A) 0).
Qed.

Lemma matrix_norm_empty_and_unsupported_witness :
  matrix_norm (fun _ => []) [[]; []] (OrdOther "nuc") quiet_world =
    (Ok 0, quiet_world) /\
  matrix_norm (fun _ => []) [[1; 2]] (OrdOther "nuc") quiet_world =
    (Raise (ValueError "Unsupported matrix norm: nuc"), quiet_world).
Proof.
  split.
  - apply (proj1 (matrix_norm_empty_and_unsupported (fun _ => []) [[]; []]
                    (OrdOther "nuc") quiet_world)).
    reflexivity.
  - apply (proj2 (matrix_norm_empty_and_unsupported (fun _ => []) [[1; 2]]
                    OrdFro quiet_world)).
    discriminate.
Defined.

Lemma matmul_vec_ok (A : list (list R)) (x : list R) (w : world) :
  Forall (fun row => length row = length x) A ->
  matmul_vec A x w =
    (Ok (map (fun row => np.sum (zip_with Rmult row x)) A), w).
Proof.
  intros Hrows. unfold matmul_vec.
  replace (forallb _ A) with true; [reflexivity|].
  symmetry. induction Hrows as [|row A Hrow _ IH]; simpl; [reflexivity|].
  now rewrite Hrow, Nat.eqb_refl.
Qed.

(** X15. For a matrix whose rows are as long as [x], a right-hand side
    [b] with one entry per row and not identically zero,
    [relative_residual(A, x, b)] returns [||A x - b|| / ||b||], which is
    non-negative and is [0] exactly when [A x = b]; a row of another
    length makes the product raise [ValueError]. *)
Theorem relative_residual_zero_iff_solved
    (A : list (list R)) (x b : list R) (w : world) :
  (Forall (fun row => length row = length x) A ->
   length A = length b ->
   b <> np.zeros (length b) ->
   let Ax := map (fun row => np.sum (zip_with Rmult row x)) A in
   exists r,
     relative_residual A x b w = (Ok r, w) /\
     r = np.linalg.norm (zip_with Rminus Ax b) / np.linalg.norm b /\
     0 <= r /\
     (r = 0 <-> Ax = b)) /\
  (Exists (fun row => length row <> length x) A ->
   exists msg, relative_residual A x b w = (Raise (ValueError msg), w)).
Proof.
  split.
  - intros Hrows Hlen Hb Ax. unfold relative_residual.
    rewrite (bind_ok _ _ _ _ _ (matmul_vec_ok A x w Hrows)). fold Ax.
    assert (HlenAx : length Ax = length b)
      by (unfold Ax; now rewrite length_map).
    rewrite (bind_ok _ _ _ _ _ (subtract_same_length Ax b w HlenAx)).
    rewrite (bind_ok _ _ _ _ _ (vector_norm_euclidean _ w)).
    rewrite (bind_ok _ _ _ _ _ (vector_norm_euclidean _ w)).
    eexists. split; [reflexivity|]. split; [reflexivity|].
    pose proof (norm_nonneg (zip_with Rminus Ax b)) as Hd.
    pose proof (norm_nonneg b) as Hnb.
    assert (Hpos : 0 < np.linalg.norm b).
    { destruct Hnb as [|Hz]; [assumption|]. exfalso. apply Hb.
      now apply norm_zero_iff. }
    split.
    + apply Rmult_le_pos; [exact Hd|]. left. now apply Rinv_0_lt_compat.
    + rewrite <- (norm_minus_zero_iff Ax b HlenAx). split.
      * intros H0. unfold Rdiv in H0.
        apply Rmult_integral in H0 as [H0|H0]; [exact H0|].
        exfalso. revert H0. apply Rinv_neq_0_compat. lra.
      * intros ->. field. lra.
  - intros Hbad. unfold relative_residual, matmul_vec.
    replace (forallb _ A) with false.
    + eexists. reflexivity.
    + symmetry. induction Hbad as [row A Hrow|row A _ IH]; simpl.
      * destruct (Nat.eqb_spec (length row) (length x)); [contradiction|].
        reflexivity.
      * rewrite IH. apply andb_false_r.
Qed.

Lemma relative_residual_zero_iff_solved_witness :
  exists r,
    relative_residual [[2; 0]; [0; 4]] [1; 1] [2; 4] quiet_world =
      (Ok r, quiet_world) /\
    r = np.linalg.norm
          (zip_with Rminus
             (map (fun row => np.sum (zip_with Rmult row [1; 1]))
                [[2; 0]; [0; 4]]) [2; 4]) / np.linalg.norm [2; 4] /\
    0 <= r /\
    (r = 0 <->
     map (fun row => np.sum (zip_with Rmult row [1; 1])) [[2; 0]; [0; 4]]
       = [2; 4]).
Proof.
  apply (proj1 (relative_residual_zero_iff_solved
                  [[2; 0]; [0; 4]] [1; 1] [2; 4] quiet_world)).
  - repeat constructor.
  - reflexivity.
  - unfold np.zeros. simpl. intros [= H _]. lra.
Defined.

(** ** Affine functions, all schemes *)

Lemma fill_zeros_eq (q : nat -> R) (a : list R) :
  (forall i ai, a !! i = Some ai -> q i = ai) ->
  fill q (np.zeros (length a)) (seq 0 (length a)) = a.
Proof.
  intros Hq. apply list_eq. intros i.
  destruct (a !! i) as [ai|] eqn:Ha.
  - rewrite lookup_fill_zeros by (eapply lookup_lt_Some; eauto).
    f_equal. now apply Hq.
  - apply lookup_ge_None. rewrite length_fill_zeros.
    now apply lookup_ge_None in Ha.
Qed.

Lemma sum_zip_unit : forall (a : list R) (n i lo : nat) (ai c : R),
  a !! i = Some ai -> length a = n ->
  np.sum (zip_with Rmult a
            (map (fun j => if (j =? lo + i)%nat then c else 0) (seq lo n)))
  = ai * c.
Proof.
  induction a as [|a0 a IH]; intros n i lo ai c Ha Hlen; [discriminate|].
  destruct n as [|n]; [discriminate|]. injection Hlen as Hlen.
  cbn [seq map zip_with]. unfold np.sum in *. cbn [fold_right].
  destruct i as [|i].
  - injection Ha as ->. rewrite Nat.add_0_r, Nat.eqb_refl.
    assert (Hrest : forall k, (lo < k)%nat ->
      fold_right Rplus 0 (zip_with Rmult a
        (map (fun j => if (j =? lo)%nat then c else 0) (seq k n))) = 0).
    { clear. revert n. induction a as [|a1 a IH]; intros n k Hk;
        [reflexivity|]. destruct n as [|n]; [reflexivity|].
      cbn [seq map zip_with fold_right].
      destruct (Nat.eqb_spec k lo); [lia|]. rewrite IH by lia. lra. }
    rewrite Hrest by lia. lra.
  - destruct (Nat.eqb_spec lo (lo + S i)); [lia|].
    replace (lo + S i)%nat with (S lo + i)%nat by lia.
    rewrite (IH n i (S lo) ai c Ha Hlen). lra.
Qed.

Lemma affine_c_perturbed a b x i ai eps :
  a !! i = Some ai -> length a = length x ->
  snd (affine_c a b (perturbed_c x i eps)) = ai * eps.
Proof.
  intros Ha Hlen. unfold affine_c, perturbed_c. cbn [snd].
  assert (Hsnd : forall (u v : list R), length u = length v ->
            map snd (zip_with (fun re im => (re, im)) u v) = v).
  { induction u as [|u0 u IH]; intros [|v0 v] Huv; try discriminate;
      [reflexivity|]. simpl. f_equal. apply IH. now injection Huv. }
  rewrite Hsnd by (rewrite length_map, length_unit_vector; reflexivity).
  unfold unit_vector. rewrite map_map.
  rewrite <- (sum_zip_unit a (length x) i 0 ai eps Ha Hlen).
  do 2 f_equal. apply map_ext. intros j. simpl.
  destruct (j =? i)%nat; lra.
Qed.

Lemma affine_gradient_run (a : list R) (b : R) (x : list R) (eps : R)
    (method : string) (w : world) :
  eps <> 0 -> length a = length x -> In method recognised_schemes ->
  fst (finite_difference_gradient (affine_function a b) x eps method w)
  = Ok a.
Proof.
  intros Heps Hlen Hin. simpl in Hin.
  destruct Hin as [<-|[<-|[<-|[]]]].
  - rewrite forward_run. simpl. f_equal. rewrite <- Hlen.
    apply fill_zeros_eq. intros i ai Ha.
    unfold forward_quotient. simpl.
    rewrite (affine_perturbed a b x i ai)
      by (try assumption; rewrite <- Hlen; eapply lookup_lt_Some; eauto).
    field. exact Heps.
  - rewrite central_run. simpl. f_equal. rewrite <- Hlen.
    apply fill_zeros_eq. intros i ai Ha.
    unfold central_quotient. simpl.
    rewrite !(affine_perturbed a b x i ai)
      by (try assumption; rewrite <- Hlen; eapply lookup_lt_Some; eauto).
    field. exact Heps.
  - rewrite complex_run. simpl. f_equal. rewrite <- Hlen.
    apply fill_zeros_eq. intros i ai Ha.
    unfold complex_quotient. cbn [on_complex affine_function].
    rewrite (affine_c_perturbed a b x i ai eps Ha Hlen).
    field. exact Heps.
Qed.

(** X16. For an affine [f(x) = a . x + b] (extended to complex arrays
    by the same formula) the forward, central and complex-step
    gradients all equal the coefficient vector [a], in exact
    arithmetic, for every nonzero step. *)
Theorem affine_gradient_exact_every_scheme
    (a : list R) (b : R) (x : list R) (eps : R) (method : string)
    (w : world) :
  eps <> 0 -> length a = length x -> In method recognised_schemes ->
  fst (finite_difference_gradient (affine_function a b) x eps method w)
  = Ok a.
Proof. apply affine_gradient_run. Qed.

Lemma affine_gradient_exact_every_scheme_witness :
  fst (finite_difference_gradient (affine_function [3; -2] 7) [1; 5]
         (1 / 100000) "complex" quiet_world) = Ok [3; -2].
Proof.
  apply (affine_gradient_exact_every_scheme [3; -2] 7 [1; 5] (1 / 100000)
           "complex" quiet_world).
  - lra.
  - reflexivity.
  - simpl. auto.
Defined.

(** X17. In exact arithmetic (floats as real numbers, no rounding):
    on an affine function whose analytic gradient is coded correctly,
    [check_gradient] reports a relative error of exactly [0] with every
    scheme and every nonzero step, so it passes for every positive
    tolerance. The schemes have no truncation error there; what a
    floating-point run reports is rounding alone. *)
Theorem check_gradient_affine_passes
    (a : list R) (b : R) (x : list R) (eps tol : R) (method : string)
    (verbose : bool) (w : world) :
  eps <> 0 -> length a = length x -> In method recognised_schemes ->
  fst (check_gradient (affine_function a b) (fun _ => a) x eps tol method
         verbose w) = Ok (Rltb 0 tol, 0) /\
  (0 < tol ->
   fst (check_gradient (affine_function a b) (fun _ => a) x eps tol method
          verbose w) = Ok (true, 0)).
Proof.
  intros Heps Hlen Hin.
  pose proof (affine_gradient_run a b x eps method w Heps Hlen Hin) as Hrun.
  destruct (finite_difference_gradient (affine_function a b) x eps method w)
    as [[gn|e] w1] eqn:E; [|discriminate].
  simpl in Hrun. injection Hrun as ->.
  pose proof (check_gradient_value (affine_function a b) (fun _ => a) x eps
                tol method verbose w a w1 E Hlen) as Hval.
  simpl in Hval.
  rewrite (proj2 (norm_minus_zero_iff a a eq_refl) eq_refl) in Hval.
  assert (Hrel : (if Rltb 0 (np.linalg.norm a)
                  then 0 / np.linalg.norm a else 0) = 0).
  { destruct (Rltb 0 (np.linalg.norm a)); [|reflexivity].
    unfold Rdiv. apply Rmult_0_l. }
  rewrite Hrel in Hval. split; [exact Hval|].
  intros Htol. now rewrite Hval, Rltb_true.
Qed.

Lemma check_gradient_affine_passes_witness :
  fst (check_gradient (affine_function [3; -2] 7) (fun _ => [3; -2]) [1; 5]
         (1 / 100000) (1 / 10000) "forward" true quiet_world) =
    Ok (true, 0).
Proof.
  apply (proj2 (check_gradient_affine_passes [3; -2] 7 [1; 5]
                  (1 / 100000) (1 / 10000) "forward" true quiet_world
                  ltac:(lra) eq_refl ltac:(simpl; auto))).
  lra.
Defined.

(** ** Evaluation counts *)

Lemma evals_add_evals_app c w : evals (add_evals c w) = evals w ++ c.
Proof. reflexivity. Qed.

Lemma length_concat_pairs {A B} (f g : A -> B) (l : list A) :
  length (concat (map (fun i => [f i; g i]) l)) = (2 * length l)%nat.
Proof. induction l as [|a l IH]; simpl; [reflexivity | rewrite IH; lia]. Qed.

Lemma length_concat_singletons {A B} (f : A -> B) (l : list A) :
  length (concat (map (fun i => [f i]) l)) = length l.
Proof. induction l as [|a l IH]; simpl; [reflexivity | now rewrite IH]. Qed.

(** X18. For a point of dimension [n] and a nonzero step,
    [finite_difference_gradient] evaluates [f] exactly [n + 1] times
    with the forward scheme, [2 n] times with the central scheme and
    [n] times with the complex-step scheme. *)
Theorem finite_difference_gradient_cost
    (f : ScalarFunction) (x : list R) (eps : R) (w : world) :
  eps <> 0 ->
  length (evals (snd (finite_difference_gradient f x eps "forward" w))) =
    (length (evals w) + (length x + 1))%nat /\
  length (evals (snd (finite_difference_gradient f x eps "central" w))) =
    (length (evals w) + 2 * length x)%nat /\
  length (evals (snd (finite_difference_gradient f x eps "complex" w))) =
    (length (evals w) + length x)%nat.
Proof.
  intros _. rewrite forward_run, central_run, complex_run. cbn [snd].
  rewrite !evals_add_evals_app.
  rewrite !length_app, length_concat_pairs, length_concat_singletons.
  cbn [length]. rewrite length_map, !length_seq. lia.
Qed.

Lemma finite_difference_gradient_cost_witness :
  length (evals (snd (finite_difference_gradient product_function [1; 2]
                        (1 / 100000) "forward" quiet_world))) = 3%nat /\
  length (evals (snd (finite_difference_gradient product_function [1; 2]
                        (1 / 100000) "central" quiet_world))) = 4%nat /\
  length (evals (snd (finite_difference_gradient product_function [1; 2]
                        (1 / 100000) "complex" quiet_world))) = 2%nat.
Proof.
  apply (finite_difference_gradient_cost product_function [1; 2]
           (1 / 100000) quiet_world).
  lra.
Defined.

(** ** The consistency probe, in general *)

Lemma consistency_loop (grad_f : list R -> list R) (x : list R) (eps : R) :
  (forall v, length v = length x -> length (grad_f v) = length x) ->
  forall (runs : list nat) (acc : list R) (w : world),
    exists vars w',
      for_in runs (fun _ variations =>
        z <- np.random.randn (length x) ;;
        x_perturbed <- np.add x (np.scale eps z) ;;
        d <- np.subtract (grad_f x_perturbed) (grad_f x) ;;
        ret (variations ++ [np.linalg.norm d])) acc w
        = (Ok (acc ++ vars), w') /\
      length vars = length runs /\
      Forall (fun v => exists xp, length xp = length x /\
                v = np.linalg.norm (zip_with Rminus (grad_f xp) (grad_f x)))
             vars /\
      drawn w' = (drawn w + length runs * length x)%nat /\
      evals w' = evals w /\ stdout w' = stdout w.
Proof.
  intros Hshape. induction runs as [|r runs IH]; intros acc w.
  - exists [], w. simpl. rewrite app_nil_r.
    repeat split; [constructor | lia].
  - cbn [for_in]. unfold bind at 1 2. unfold np.random.randn at 1.
    set (z := map (gauss w) (seq (drawn w) (length x))).
    assert (Hz : length (np.scale eps z) = length x).
    { unfold np.scale, z. now rewrite !length_map, length_seq. }
    set (xp := zip_with Rplus x (np.scale eps z)).
    assert (Hxp : length xp = length x).
    { unfold xp. rewrite length_zip_with, Hz. lia. }
    erewrite bind_ok by (apply add_same_length; now rewrite Hz).
    fold xp.
    erewrite bind_ok
      by (apply subtract_same_length; rewrite !Hshape; auto).
    unfold ret at 1.
    edestruct (IH (acc ++ [np.linalg.norm
                             (zip_with Rminus (grad_f xp) (grad_f x))]))
      as (vars & w' & E & Hlen & Hall & Hdrawn & Hevals & Hout).
    rewrite E.
    exists (np.linalg.norm (zip_with Rminus (grad_f xp) (grad_f x)) :: vars), w'.
    split; [now rewrite <- app_assoc|]. split; [simpl; lia|].
    split; [constructor; [now exists xp | exact Hall]|].
    rewrite Hdrawn, Hevals, Hout. simpl. repeat split; lia.
Qed.

Lemma add_stdout_nil w : add_stdout [] w = w.
Proof. destruct w; unfold add_stdout; simpl. now rewrite app_nil_r. Qed.

Lemma add_stdout_app o1 o2 w :
  add_stdout o2 (add_stdout o1 w) = add_stdout (o1 ++ o2) w.
Proof. unfold add_stdout; simpl. now rewrite app_assoc. Qed.

Lemma prints_only_ret {A} (P : A -> Prop) (a : A) :
  P a -> prints_only (ret a) P.
Proof. intros Ha w. exists a, []. now rewrite add_stdout_nil. Qed.

Lemma prints_only_bind {A B} (P : A -> Prop) (Q : B -> Prop)
    (m : M A) (k : A -> M B) :
  prints_only m P -> (forall a, P a -> prints_only (k a) Q) ->
  prints_only (bind m k) Q.
Proof.
  intros Hm Hk w. destruct (Hm w) as (a & o1 & E & Ha).
  rewrite (bind_ok _ _ _ _ _ E).
  destruct (Hk a Ha (add_stdout o1 w)) as (b & o2 & E2 & Hb).
  exists b, (o1 ++ o2). now rewrite E2, add_stdout_app.
Qed.

Lemma prints_only_print l : prints_only (print l) (fun _ => True).
Proof. intros w. now exists tt, [l]. Qed.

Ltac report_only :=
  repeat first
    [ apply prints_only_print
    | apply (prints_only_ret (fun _ => True)); exact I
    | apply (prints_only_bind (fun _ => True)); [ | intros ? _ ] ].

Lemma consistency_check_run (grad_f : list R -> list R) (x : list R)
    (n_samples : Z) (eps : R) (verbose : bool) (w : world) :
  (forall v, length v = length x -> length (grad_f v) = length x) ->
  (1 <= n_samples)%Z ->
  exists vars m w',
    gradient_consistency_check grad_f x n_samples eps verbose w =
      (Ok (Rltb m (10 * (eps * np.linalg.norm (grad_f x)))), w') /\
    np.max vars w = (Ok m, w) /\
    length vars = Z.to_nat n_samples /\
    Forall (fun v => exists xp, length xp = length x /\
              v = np.linalg.norm (zip_with Rminus (grad_f xp) (grad_f x)))
           vars /\
    drawn w' = (drawn w + Z.to_nat n_samples * length x)%nat.
Proof.
  intros Hshape Hn. unfold gradient_consistency_check.
  destruct (consistency_loop grad_f x eps Hshape
              (range 0 (Z.to_nat n_samples)) [] w)
    as (vars & w1 & Eloop & Hlen & Hall & Hdrawn & _ & _).
  simpl app in Eloop. rewrite (bind_ok _ _ _ _ _ Eloop).
  unfold range in Hlen. rewrite length_seq, Nat.sub_0_r in Hlen.
  unfold range in Hdrawn. rewrite length_seq, Nat.sub_0_r in Hdrawn.
  destruct vars as [|v vars]; [simpl in Hlen; lia|].
  erewrite bind_ok by reflexivity.
  match goal with
  | |- context [bind ?inner (fun _ => ret ?b) w1] =>
      assert (Hinner : prints_only inner (fun _ => True))
        by (destruct verbose; report_only)
  end.
  destruct (Hinner w1) as (u & out & Einner & _).
  rewrite (bind_ok _ _ _ _ _ Einner).
  exists (v :: vars), (np.max_from v vars), (add_stdout out w1).
  split; [reflexivity|]. split; [reflexivity|]. split; [exact Hlen|].
  split; [exact Hall | exact Hdrawn].
Qed.

(** X19. When the analytic gradient is one and the same nonzero vector
    at every point (the gradient of an affine function),
    [gradient_consistency_check] returns [True] for every
    [n_samples >= 1] and every perturbation size [eps > 0], whatever
    the random draws. *)
Theorem gradient_consistency_check_constant_gradient
    (grad_f : list R -> list R) (g x : list R) (n_samples : Z) (eps : R)
    (verbose : bool) (w : world) :
  (forall v, grad_f v = g) -> length g = length x ->
  g <> np.zeros (length g) ->
  0 < eps -> (1 <= n_samples)%Z ->
  fst (gradient_consistency_check grad_f x n_samples eps verbose w) = Ok true.
Proof.
  intros Hconst Hlen Hg Heps Hn.
  destruct (consistency_check_run grad_f x n_samples eps verbose w)
    as (vars & m & w' & E & Emax & _ & Hall & _); [|exact Hn|].
  { intros v _. now rewrite Hconst. }
  rewrite E. cbn [fst]. f_equal. apply Rltb_true.
  assert (Hvars : Forall (fun v => v = 0) vars).
  { eapply Forall_impl; [exact Hall|]. intros v (xp & _ & ->).
    rewrite !Hconst. now apply norm_minus_zero_iff. }
  assert (Hm : m = 0).
  { destruct vars as [|v vars]; [discriminate|].
    injection Emax as <-. inversion Hvars as [|? ? Hv Hrest]; subst.
    apply Rle_antisym; [|apply max_from_ge_best].
    apply max_from_lub; [lra|].
    eapply Forall_impl; [exact Hrest|]. intros u ->. lra. }
  rewrite Hm, Hconst.
  assert (0 < np.linalg.norm g).
  { pose proof (norm_nonneg g) as [Hpos|Hz]; [exact Hpos|].
    exfalso. apply Hg. now apply norm_zero_iff. }
  nra.
Qed.

Lemma gradient_consistency_check_constant_gradient_witness :
  fst (gradient_consistency_check (fun _ => [3; -2]) [1; 5] 10
         (1 / 10000000) true quiet_world) = Ok true.
Proof.
  apply (gradient_consistency_check_constant_gradient
           (fun _ => [3; -2]) [3; -2] [1; 5] 10 (1 / 10000000) true
           quiet_world).
  - reflexivity.
  - reflexivity.
  - unfold np.zeros. simpl. intros [= H _]. lra.
  - lra.
  - lia.
Defined.

(** X20. A call of [gradient_consistency_check] with [n_samples >= 1]
    takes exactly [n_samples * len(x)] numbers from numpy's global
    generator, with or without the report. *)
Theorem gradient_consistency_check_draws
    (grad_f : list R -> list R) (x : list R) (n_samples : Z) (eps : R)
    (verbose : bool) (w : world) :
  (forall v, length v = length x -> length (grad_f v) = length x) ->
  (1 <= n_samples)%Z ->
  drawn (snd (gradient_consistency_check grad_f x n_samples eps verbose w)) =
    (drawn w + Z.to_nat n_samples * length x)%nat.
Proof.
  intros Hshape Hn.
  destruct (consistency_check_run grad_f x n_samples eps verbose w Hshape Hn)
    as (vars & m & w' & E & _ & _ & _ & Hdrawn).
  now rewrite E.
Qed.

Lemma gradient_consistency_check_draws_witness :
  drawn (snd (gradient_consistency_check (fun _ => [3; -2]) [1; 5] 10
                (1 / 10000000) true quiet_world)) = 20%nat.
Proof.
  apply (gradient_consistency_check_draws (fun _ => [3; -2]) [1; 5] 10
           (1 / 10000000) true quiet_world).
  - reflexivity.
  - lia.
Defined.

(** ** The entries of the Hessian estimate *)

Lemma for_in_seq_invariant {S : Type} (I : nat -> S -> world -> Prop)
    (body : nat -> S -> M S) :
  forall k a,
    (forall i s w, (a <= i < a + k)%nat -> I i s w ->
       exists s' w', body i s w = (Ok s', w') /\ I (Datatypes.S i) s' w') ->
    forall s w, I a s w ->
      exists s' w', for_in (seq a k) body s w = (Ok s', w') /\
                    I (a + k)%nat s' w'.
Proof.
  induction k as [|k IH]; intros a Hbody s w Hs.
  - exists s, w. rewrite Nat.add_0_r. split; [reflexivity | exact Hs].
  - cbn [seq for_in].
    destruct (Hbody a s w ltac:(lia) Hs) as (s1 & w1 & E1 & Hs1).
    rewrite (bind_ok _ _ _ _ _ E1).
    destruct (IH (Datatypes.S a)
                (fun i s w Hi => Hbody i s w ltac:(lia)) s1 w1 Hs1)
      as (s2 & w2 & E2 & Hs2).
    exists s2, w2. split; [exact E2|].
    now replace (a + Datatypes.S k)%nat with (Datatypes.S a + k)%nat by lia.
Qed.

Lemma length_evals_add c w :
  length (evals (add_evals c w)) = (length (evals w) + length c)%nat.
Proof. unfold add_evals. simpl. apply length_app. Qed.

Ltac index_cases :=
  repeat match goal with
  | |- context [(?a =? ?b)%nat] => destruct (Nat.eqb_spec a b)
  | |- context [(?a <? ?b)%nat] => destruct (Nat.ltb_spec a b)
  end; simpl; subst; try reflexivity; try lia.

Lemma hessian_diagonal_loop (f : ScalarFunction) (x : list R) (eps : R)
    (w : world) :
  exists H w',
    for_in (range 0 (length x)) (fun i H =>
      let x_plus := x in
      let x_minus := x in
      x_plus <- iadd_item x_plus i eps ;;
      x_minus <- isub_item x_minus i eps ;;
      fp <- call_real f x_plus ;;
      fm <- call_real f x_minus ;;
      setitem2 H i i ((fp - 2 * on_real f x + fm) / (eps ^ 2)))
      (np.zeros2 (length x) (length x)) w = (Ok H, w') /\
    square (length x) H /\
    (forall a b, (a < length x)%nat -> (b < length x)%nat ->
       entry H a b =
         Some (if (a =? b)%nat then hess_diag f x eps a else 0)) /\
    length (evals w') = (length (evals w) + 2 * length x)%nat.
Proof.
  set (n := length x).
  set (I := fun (k : nat) (H : list (list R)) (w' : world) =>
    square n H /\
    (forall a b, (a < n)%nat -> (b < n)%nat ->
       entry H a b =
         Some (if ((a =? b) && (a <? k))%nat then hess_diag f x eps a else 0)) /\
    length (evals w') = (length (evals w) + 2 * k)%nat).
  rewrite range_0.
  destruct (for_in_seq_invariant I
    (fun i H =>
      let x_plus := x in
      let x_minus := x in
      x_plus <- iadd_item x_plus i eps ;;
      x_minus <- isub_item x_minus i eps ;;
      fp <- call_real f x_plus ;;
      fm <- call_real f x_minus ;;
      setitem2 H i i ((fp - 2 * on_real f x + fm) / (eps ^ 2)))
    n 0%nat) with (s := np.zeros2 n n) (w := w)
    as (H & w' & E & Hsq & Hent & Hcount).
  - intros i H w1 Hi (Hsq & Hent & Hcount). cbv zeta.
    erewrite bind_ok by (apply iadd_item_perturbed; fold n; lia).
    erewrite bind_ok by (apply isub_item_perturbed; fold n; lia).
    rewrite !bind_call_real.
    rewrite (setitem2_ok n) by (auto; lia).
    eexists _, _. split; [reflexivity|]. split; [now apply square_mset|].
    split.
    + intros a b Ha Hb. rewrite (entry_mset n) by (auto; lia).
      rewrite Hent by assumption. unfold hess_diag.
      index_cases.
    + rewrite !length_evals_add, Hcount. simpl. lia.
  - split; [apply square_zeros2|]. split.
    + intros a b Ha Hb. unfold entry, np.zeros2, np.zeros.
      rewrite lookup_replicate_2 by lia. simpl.
      rewrite lookup_replicate_2 by lia. f_equal. index_cases.
    + lia.
  - exists H, w'. split; [exact E|]. split; [exact Hsq|]. split.
    + intros a b Ha Hb. rewrite Hent by assumption. f_equal.
      fold n in Ha. index_cases.
    + rewrite Hcount. lia.
Qed.

Lemma for_in_seq_invariant_post {S : Type} (I : nat -> S -> world -> Prop)
    (Post : S -> world -> Prop) (body : nat -> S -> M S) (k a : nat)
    (s : S) (w : world) :
  (forall i s w, (a <= i < a + k)%nat -> I i s w ->
     exists s' w', body i s w = (Ok s', w') /\ I (Datatypes.S i) s' w') ->
  I a s w ->
  (forall s' w', I (a + k)%nat s' w' -> Post s' w') ->
  exists s' w', for_in (seq a k) body s w = (Ok s', w') /\ Post s' w'.
Proof.
  intros Hbody Hs Hpost.
  destruct (for_in_seq_invariant I body k a Hbody s w Hs) as (s' & w' & E & Hs').
  exists s', w'. split; [exact E | now apply Hpost].
Qed.

Ltac pair_cases :=
  repeat match goal with
  | |- context [(?a =? ?b)%nat] => destruct (Nat.eqb_spec a b)
  | |- context [(?a <? ?b)%nat] => destruct (Nat.ltb_spec a b)
  end; simpl; subst;
  try reflexivity; try lia;
  try (rewrite ?Nat.min_l, ?Nat.min_r, ?Nat.max_l, ?Nat.max_r by lia;
       reflexivity).

Lemma hessian_run (f : ScalarFunction) (x : list R) (eps : R) (w : world) :
  exists H w',
    finite_difference_hessian f x eps w = (Ok H, w') /\
    square (length x) H /\
    (forall a b, (a < length x)%nat -> (b < length x)%nat ->
       entry H a b = Some (hessian_entry f x eps a b)) /\
    length (evals w') =
      (length (evals w) + (2 * (length x * length x) + 1))%nat.
Proof.
  unfold finite_difference_hessian. rewrite bind_call_real.
  destruct (hessian_diagonal_loop f x eps (add_evals [EvalReal x] w))
    as (H1 & w1 & E1 & Hsq1 & Hent1 & Hcount1).
  rewrite (bind_ok _ _ _ _ _ E1). clear E1.
  rewrite length_evals_add in Hcount1. simpl length in Hcount1.
  set (n := length x) in *.
  set (O := fun (k : nat) (H : list (list R)) (w' : world) =>
    (k <= n)%nat /\ square n H /\
    (forall a b, (a < n)%nat -> (b < n)%nat ->
       entry H a b =
         Some (if (a =? b)%nat then hess_diag f x eps a
               else if (Nat.min a b <? k)%nat
                    then hess_off f x eps (Nat.min a b) (Nat.max a b)
                    else 0)) /\
    (length (evals w') + 2 * (k * (k + 1)) =
       length (evals w1) + 4 * (k * n))%nat).
  rewrite range_0.
  apply (for_in_seq_invariant_post O).
  - (* one row of pairs *)
    intros i H w2 Hi (_ & Hsq & Hent & Hcount).
    set (N := fun (m : nat) (H : list (list R)) (w' : world) =>
      (i + 1 <= m <= n)%nat /\ square n H /\
      (forall a b, (a < n)%nat -> (b < n)%nat ->
         entry H a b =
           Some (if (a =? b)%nat then hess_diag f x eps a
                 else if ((Nat.min a b <? i)
                          || ((Nat.min a b =? i) && (Nat.max a b <? m)))%nat
                      then hess_off f x eps (Nat.min a b) (Nat.max a b)
                      else 0)) /\
      (length (evals w') + 2 * (i * (i + 1)) + 4 * (i + 1) =
         length (evals w1) + 4 * (i * n) + 4 * m)%nat).
    unfold range.
    apply (for_in_seq_invariant_post N).
    + (* one pair *)
      intros j H' w3 Hj (_ & Hsq' & Hent' & Hcount').
      erewrite bind_ok by (apply iadd_item_perturbed; fold n; lia).
      erewrite bind_ok
        by (apply iadd_item_perturbed; rewrite length_perturbed; fold n; lia).
      erewrite bind_ok by (apply iadd_item_perturbed; fold n; lia).
      erewrite bind_ok
        by (apply isub_item_perturbed; rewrite length_perturbed; fold n; lia).
      erewrite bind_ok by (apply isub_item_perturbed; fold n; lia).
      erewrite bind_ok
        by (apply iadd_item_perturbed; rewrite length_perturbed; fold n; lia).
      erewrite bind_ok by (apply isub_item_perturbed; fold n; lia).
      erewrite bind_ok
        by (apply isub_item_perturbed; rewrite length_perturbed; fold n; lia).
      rewrite !bind_call_real.
      erewrite bind_ok by (apply (setitem2_ok n); [exact Hsq' | lia | lia]).
      erewrite bind_ok.
      2: { apply getitem2_ok. rewrite (entry_mset n) by (auto; lia).
           now rewrite !Nat.eqb_refl. }
      rewrite (setitem2_ok n) by (try apply square_mset; auto; lia).
      eexists _, _. split; [reflexivity|].
      split; [lia|]. split; [now do 2 apply square_mset|]. split.
      * intros a b Ha Hb.
        rewrite !(entry_mset n) by (try apply square_mset; auto; lia).
        rewrite Hent' by assumption.
        fold (hess_off f x eps i j).
        pair_cases.
      * rewrite !length_evals_add. simpl length. lia.
    + split; [lia|]. split; [exact Hsq|]. split.
      * intros a b Ha Hb. rewrite Hent by assumption. f_equal; pair_cases.
      * lia.
    + intros H' w3 (Hm & Hsq' & Hent' & Hcount').
      replace (i + 1 + (n - (i + 1)))%nat with n in * by lia.
      split; [lia|]. split; [exact Hsq'|]. split.
      * intros a b Ha Hb. rewrite Hent' by assumption. f_equal; pair_cases.
      * lia.
  - split; [lia|]. split; [exact Hsq1|]. split.
    + intros a b Ha Hb. rewrite Hent1 by assumption. f_equal; pair_cases.
    + lia.
  - intros H w2 (_ & Hsq & Hent & Hcount). simpl in Hcount.
    split; [exact Hsq|]. split.
    + intros a b Ha Hb. rewrite Hent by assumption. f_equal.
      unfold hessian_entry. pair_cases.
    + lia.
Qed.

(** X21. For a step [eps > 0], entry [(i, i)] of the matrix returned by
    [finite_difference_hessian] is the central second difference
    [(f(x + eps e_i) - 2 f(x) + f(x - eps e_i)) / eps^2] and entry
    [(i, j)], [i <> j], is the four-point mixed difference
    [(f(x + eps e_p + eps e_q) - f(x + eps e_p - eps e_q)
      - f(x - eps e_p + eps e_q) + f(x - eps e_p - eps e_q)) / (4 eps^2)]
    of the pair [p = min(i, j)], [q = max(i, j)]. *)
Theorem finite_difference_hessian_entries
    (f : ScalarFunction) (x : list R) (eps : R) (w : world) (i j : nat) :
  0 < eps -> (i < length x)%nat -> (j < length x)%nat ->
  exists H w',
    finite_difference_hessian f x eps w = (Ok H, w') /\
    entry H i j =
      Some (if (i =? j)%nat
            then (on_real f (perturbed x i eps) - 2 * on_real f x
                  + on_real f (perturbed x i (- eps))) / eps ^ 2
            else
              let p := Nat.min i j in
              let q := Nat.max i j in
              (on_real f (perturbed (perturbed x p eps) q eps)
               - on_real f (perturbed (perturbed x p eps) q (- eps))
               - on_real f (perturbed (perturbed x p (- eps)) q eps)
               + on_real f (perturbed (perturbed x p (- eps)) q (- eps)))
              / (4 * eps ^ 2)).
Proof.
  intros _ Hi Hj.
  destruct (hessian_run f x eps w) as (H & w' & E & _ & Hent & _).
  exists H, w'. split; [exact E|]. now rewrite Hent.
Qed.

Lemma finite_difference_hessian_entries_witness :
  exists H w',
    finite_difference_hessian cubic_function [1; 2] (1 / 10000) quiet_world
      = (Ok H, w') /\
    entry H 1 0 =
      Some ((on_real cubic_function
               (perturbed (perturbed [1; 2] 0 (1 / 10000)) 1 (1 / 10000))
             - on_real cubic_function
                 (perturbed (perturbed [1; 2] 0 (1 / 10000)) 1 (- (1 / 10000)))
             - on_real cubic_function
                 (perturbed (perturbed [1; 2] 0 (- (1 / 10000))) 1 (1 / 10000))
             + on_real cubic_function
                 (perturbed (perturbed [1; 2] 0 (- (1 / 10000))) 1
                    (- (1 / 10000))))
            / (4 * (1 / 10000) ^ 2)).
Proof.
  apply (finite_difference_hessian_entries cubic_function [1; 2]
           (1 / 10000) quiet_world 1 0).
  - lra.
  - simpl. lia.
  - simpl. lia.
Defined.

(** X22. For a point of dimension [n] and a nonzero step,
    [finite_difference_hessian] evaluates [f] exactly [2 n^2 + 1]
    times: once at [x], twice per diagonal entry and four times per
    pair of distinct coordinates. *)
Theorem finite_difference_hessian_cost
    (f : ScalarFunction) (x : list R) (eps : R) (w : world) :
  eps <> 0 ->
  length (evals (snd (finite_difference_hessian f x eps w))) =
    (length (evals w) + (2 * (length x * length x) + 1))%nat.
Proof.
  intros _.
  destruct (hessian_run f x eps w) as (H & w' & E & _ & _ & Hcount).
  now rewrite E.
Qed.

Lemma finite_difference_hessian_cost_witness :
  length (evals (snd (finite_difference_hessian cubic_function [1; 2]
                        (1 / 10000) quiet_world))) = 9%nat.
Proof.
  apply (finite_difference_hessian_cost cubic_function [1; 2] (1 / 10000)
           quiet_world).
  lra.
Defined.

(** ** Quadratic functions *)

Lemma vdot_add_l : forall (u h v : list R),
  length u = length h ->
  vdot (zip_with Rplus u h) v = vdot u v + vdot h v.
Proof.
  unfold vdot, np.sum.
  induction u as [|u0 u IH]; intros [|h0 h] v Hlen; try discriminate.
  - simpl. lra.
  - destruct v as [|v0 v]; simpl; [lra|].
    rewrite IH by (now injection Hlen). lra.
Qed.

Lemma vdot_add_r : forall (u v k : list R),
  length v = length k ->
  vdot u (zip_with Rplus v k) = vdot u v + vdot u k.
Proof.
  unfold vdot, np.sum.
  induction u as [|u0 u IH]; intros v k Hlen; [simpl; lra|].
  destruct v as [|v0 v], k as [|k0 k]; try discriminate; simpl; [lra|].
  rewrite IH by (now injection Hlen). lra.
Qed.

Lemma vdot_scale_l (e : R) : forall (h v : list R),
  vdot (map (Rmult e) h) v = e * vdot h v.
Proof.
  unfold vdot, np.sum.
  induction h as [|h0 h IH]; intros v; [simpl; lra|].
  destruct v as [|v0 v]; simpl; [lra|]. rewrite IH. lra.
Qed.

Lemma vdot_scale_r (e : R) : forall (u k : list R),
  vdot u (map (Rmult e) k) = e * vdot u k.
Proof.
  unfold vdot, np.sum.
  induction u as [|u0 u IH]; intros k; [simpl; lra|].
  destruct k as [|k0 k]; simpl; [lra|]. rewrite IH. lra.
Qed.

Lemma length_mat_vec Q v : length (mat_vec Q v) = length Q.
Proof. unfold mat_vec. apply length_map. Qed.

Lemma mat_vec_add (Q : list (list R)) (v k : list R) :
  length v = length k ->
  mat_vec Q (zip_with Rplus v k) =
    zip_with Rplus (mat_vec Q v) (mat_vec Q k).
Proof.
  intros Hlen. unfold mat_vec. induction Q as [|row Q IH]; [reflexivity|].
  simpl. rewrite IH. f_equal. now apply vdot_add_r.
Qed.

Lemma mat_vec_scale (Q : list (list R)) (e : R) (k : list R) :
  mat_vec Q (map (Rmult e) k) = map (Rmult e) (mat_vec Q k).
Proof.
  unfold mat_vec. induction Q as [|row Q IH]; [reflexivity|].
  simpl. rewrite IH. f_equal. apply vdot_scale_r.
Qed.

Lemma vdot_unit_r (a : list R) (n i : nat) (ai : R) :
  a !! i = Some ai -> length a = n -> vdot a (unit_vector n i) = ai.
Proof.
  intros Ha Hlen. unfold vdot, unit_vector.
  pose proof (sum_zip_unit a n i 0 ai 1 Ha Hlen) as H.
  change (0 + i)%nat with i in H. rewrite H. lra.
Qed.

Lemma vdot_comm : forall (u v : list R), vdot u v = vdot v u.
Proof.
  unfold vdot, np.sum. induction u as [|u0 u IH]; intros [|v0 v];
    simpl; try reflexivity.
  rewrite IH. lra.
Qed.

Lemma bilinear_unit (Q : list (list R)) (n i j : nat) (q : R) :
  square n Q -> entry Q i j = Some q ->
  vdot (unit_vector n i) (mat_vec Q (unit_vector n j)) = q.
Proof.
  intros [Hlen Hrows] Hq. unfold entry in Hq.
  destruct (Q !! i) as [row|] eqn:Hrow; [|discriminate].
  rewrite vdot_comm. apply vdot_unit_r; [|now rewrite length_mat_vec].
  unfold mat_vec. rewrite map_fmap, list_lookup_fmap, Hrow. simpl. f_equal.
  apply vdot_unit_r; [exact Hq|].
  eapply (proj1 (Forall_lookup _ _) Hrows); eauto.
Qed.

Lemma quadratic_two_steps (Q : list (list R)) (c : list R) (d : R)
    (x : list R) (i j : nat) (a b : R) :
  let n := length x in
  let B := fun u v => vdot u (mat_vec Q v) in
  let ui := unit_vector n i in
  let uj := unit_vector n j in
  length Q = n ->
  quadratic Q c d (perturbed (perturbed x i a) j b) =
    (B x x + a * (B x ui + B ui x) + b * (B x uj + B uj x)
     + a * a * B ui ui + a * b * (B ui uj + B uj ui) + b * b * B uj uj) / 2
    + (vdot c x + a * vdot c ui + b * vdot c uj) + d.
Proof.
  intros n B ui uj HQ. unfold quadratic, perturbed.
  rewrite !length_zip_with, !length_map, !length_unit_vector.
  replace (length x `min` length x)%nat with n by (unfold n; lia).
  fold n ui uj.
  assert (Hui : length ui = n) by apply length_unit_vector.
  assert (Huj : length uj = n) by apply length_unit_vector.
  assert (Hx : length x = n) by reflexivity.
  repeat first
    [ rewrite mat_vec_add
        by (rewrite ?length_zip_with, ?length_map; lia)
    | rewrite mat_vec_scale
    | rewrite vdot_add_l
        by (rewrite ?length_zip_with, ?length_map, ?length_mat_vec; lia)
    | rewrite vdot_add_r
        by (rewrite ?length_zip_with, ?length_map, ?length_mat_vec; lia)
    | rewrite vdot_scale_l
    | rewrite vdot_scale_r ].
  unfold B. field.
Qed.

Lemma perturbed_zero (x : list R) (j : nat) : perturbed x j 0 = x.
Proof.
  unfold perturbed. apply list_eq. intros k.
  rewrite lookup_zip_with.
  destruct (x !! k) as [v|] eqn:Hv; [|reflexivity]. simpl.
  rewrite map_fmap, list_lookup_fmap.
  rewrite lookup_unit_vector by (eapply lookup_lt_Some; eauto).
  simpl. f_equal. lra.
Qed.

Lemma quadratic_hessian_entry (Q : list (list R)) (c : list R) (d : R)
    (x : list R) (eps : R) (i j : nat) (qij qji : R) :
  eps <> 0 -> square (length x) Q ->
  entry Q i j = Some qij -> entry Q j i = Some qji ->
  hessian_entry (quadratic_function Q c d) x eps i j = (qij + qji) / 2.
Proof.
  intros Heps Hsq Hij Hji. pose proof Hsq as [HQ _].
  unfold hessian_entry.
  destruct (Nat.eqb_spec i j) as [<-|Hne].
  - unfold hess_diag. cbn [on_real quadratic_function].
    rewrite <- (perturbed_zero (perturbed x i eps) i).
    rewrite <- (perturbed_zero (perturbed x i (- eps)) i).
    rewrite <- (perturbed_zero x i) at 2.
    rewrite <- (perturbed_zero (perturbed x i 0) i).
    rewrite !quadratic_two_steps by exact HQ.
    rewrite (bilinear_unit Q (length x) i i qij Hsq Hij).
    assert (qji = qij) as -> by congruence.
    field. exact Heps.
  - unfold hess_off. cbn [on_real quadratic_function].
    rewrite !quadratic_two_steps by exact HQ.
    destruct (Nat.le_gt_cases i j) as [Hle|Hgt].
    + rewrite Nat.min_l, Nat.max_r by lia.
      rewrite (bilinear_unit Q (length x) i j qij Hsq Hij).
      rewrite (bilinear_unit Q (length x) j i qji Hsq Hji).
      field. exact Heps.
    + rewrite Nat.min_r, Nat.max_l by lia.
      rewrite (bilinear_unit Q (length x) i j qij Hsq Hij).
      rewrite (bilinear_unit Q (length x) j i qji Hsq Hji).
      field. exact Heps.
Qed.

Lemma square_ext (n : nat) (A B : list (list R)) :
  square n A -> square n B ->
  (forall i j, (i < n)%nat -> (j < n)%nat -> entry A i j = entry B i j) ->
  A = B.
Proof.
  intros HA HB Hent. apply list_eq. intros i.
  destruct (Nat.lt_ge_cases i n) as [Hi|Hi].
  - destruct (square_row n A i HA Hi) as (ra & Hra & Hla).
    destruct (square_row n B i HB Hi) as (rb & Hrb & Hlb).
    rewrite Hra, Hrb. f_equal. apply list_eq. intros j.
    destruct (Nat.lt_ge_cases j n) as [Hj|Hj].
    + specialize (Hent i j Hi Hj). unfold entry in Hent.
      now rewrite Hra, Hrb in Hent.
    + rewrite !(proj2 (lookup_ge_None _ _)); auto; lia.
  - destruct HA as [HlA _], HB as [HlB _].
    rewrite !(proj2 (lookup_ge_None _ _)); auto; lia.
Qed.

Lemma quadratic_hessian_run (Q : list (list R)) (c : list R) (d : R)
    (x : list R) (eps : R) (w : world) :
  eps <> 0 -> square (length x) Q ->
  exists H w',
    finite_difference_hessian (quadratic_function Q c d) x eps w
      = (Ok H, w') /\
    (forall i j qij qji,
       entry Q i j = Some qij -> entry Q j i = Some qji ->
       entry H i j = Some ((qij + qji) / 2)) /\
    (symmetric (length x) Q -> H = Q).
Proof.
  intros Heps Hsq.
  destruct (hessian_run (quadratic_function Q c d) x eps w)
    as (H & w' & E & HsqH & Hent & _).
  exists H, w'. split; [exact E|].
  assert (Hformula : forall i j qij qji,
    entry Q i j = Some qij -> entry Q j i = Some qji ->
    entry H i j = Some ((qij + qji) / 2)).
  { intros i j qij qji Hij Hji.
    assert (Hi : (i < length x)%nat).
    { unfold entry in Hij. destruct (Q !! i) as [row|] eqn:Hrow; [|discriminate].
      destruct Hsq as [<- _]. eapply lookup_lt_Some; eauto. }
    assert (Hj : (j < length x)%nat).
    { unfold entry in Hji. destruct (Q !! j) as [row|] eqn:Hrow; [|discriminate].
      destruct Hsq as [<- _]. eapply lookup_lt_Some; eauto. }
    rewrite Hent by assumption. f_equal.
    now apply quadratic_hessian_entry. }
  split; [exact Hformula|].
  intros Hsym. apply (square_ext (length x)); [exact HsqH | exact Hsq|].
  intros i j Hi Hj. destruct (Hsym i j Hi Hj) as (v & Hij & Hji).
  rewrite (Hformula i j v v Hij Hji), Hij. f_equal. field.
Qed.

(** X23. For a quadratic [f(x) = x . Q x / 2 + c . x + d] and every
    nonzero step, the finite-difference Hessian is exact: its entry
    [(i, j)] is [(Q[i][j] + Q[j][i]) / 2], so for a symmetric [Q] the
    matrix returned is [Q] itself. *)
Theorem finite_difference_hessian_of_quadratic
    (Q : list (list R)) (c : list R) (d : R) (x : list R) (eps : R)
    (w : world) :
  eps <> 0 -> square (length x) Q ->
  exists H w',
    finite_difference_hessian (quadratic_function Q c d) x eps w
      = (Ok H, w') /\
    (forall i j qij qji,
       entry Q i j = Some qij -> entry Q j i = Some qji ->
       entry H i j = Some ((qij + qji) / 2)) /\
    (symmetric (length x) Q -> H = Q).
Proof. apply quadratic_hessian_run. Qed.

Lemma finite_difference_hessian_of_quadratic_witness :
  exists H w',
    finite_difference_hessian
      (quadratic_function [[2; 1]; [3; 4]] [5; 6] 7) [1; 2] (1 / 10000)
      quiet_world = (Ok H, w') /\
    entry H 0 1 = Some ((1 + 3) / 2).
Proof.
  destruct (finite_difference_hessian_of_quadratic
              [[2; 1]; [3; 4]] [5; 6] 7 [1; 2] (1 / 10000) quiet_world
              ltac:(lra) ltac:(split; [reflexivity | repeat constructor]))
    as (H & w' & E & Hent & _).
  exists H, w'. split; [exact E|].
  apply (Hent 0%nat 1%nat 1 3); reflexivity.
Defined.

Lemma broadcast_dim_refl n : np.broadcast_dim n n = Some n.
Proof. unfold np.broadcast_dim. now rewrite Nat.eqb_refl. Qed.

Lemma stretch_length {A} (n : nat) (l : list A) :
  length l = n -> np.stretch n l = l.
Proof.
  destruct l as [|v [|u l]]; simpl; intros <-; reflexivity.
Qed.

Lemma ncols_square n A : square n A -> np.ncols A = n.
Proof.
  intros [Hlen Hrows]. destruct A as [|row A]; [exact Hlen|].
  now apply Forall_cons in Hrows as [Hrow _].
Qed.

Lemma zip_with_stretch_rows (op : R -> R -> R) n : forall A B,
  Forall (fun row => length row = n) A ->
  Forall (fun row => length row = n) B ->
  zip_with (fun ra rb => zip_with op (np.stretch n ra) (np.stretch n rb)) A B
  = zip_with (zip_with op) A B.
Proof.
  induction A as [|ra A IH]; intros [|rb B] HA HB; try reflexivity.
  apply Forall_cons in HA as [Ha HA]. apply Forall_cons in HB as [Hb HB].
  cbn [zip_with].
  rewrite (stretch_length n ra Ha), (stretch_length n rb Hb).
  f_equal. now apply IH.
Qed.

(** Two matrices of one shape are subtracted entry by entry. *)
Lemma subtract2_same_shape n A B w :
  square n A -> square n B ->
  np.subtract2 A B w = (Ok (zip_with (zip_with Rminus) A B), w).
Proof.
  intros HA HB. unfold np.subtract2, np.broadcast2.
  rewrite (ncols_square n A HA), (ncols_square n B HB).
  destruct HA as [HlenA HrowsA], HB as [HlenB HrowsB].
  rewrite HlenA, HlenB, broadcast_dim_refl.
  rewrite (stretch_length n A HlenA), (stretch_length n B HlenB).
  now rewrite zip_with_stretch_rows.
Qed.

Lemma norm_fro_self_difference (A : list (list R)) :
  np.linalg.norm_fro (zip_with (zip_with Rminus) A A) = 0.
Proof.
  unfold np.linalg.norm_fro.
  replace (np.sum (map np.sumsq (zip_with (zip_with Rminus) A A))) with 0;
    [apply sqrt_0|].
  induction A as [|row A IH]; [reflexivity|].
  cbn [zip_with map]. unfold np.sum in *. cbn [fold_right]. rewrite <- IH.
  assert (Hrow : np.sumsq (zip_with Rminus row row) = 0).
  { unfold np.sumsq, np.sum. induction row as [|v row IHr]; simpl; [reflexivity|].
    unfold np.sumsq, np.sum in IHr. rewrite IHr. ring. }
  rewrite Hrow. lra.
Qed.

(** X24. In exact arithmetic (floats as real numbers, no rounding):
    on a quadratic function with a symmetric matrix [Q], [check_hessian]
    given the true Hessian [Q] reports a relative error of exactly [0]
    for every nonzero step, so it passes for every positive tolerance.
    The second differences have no truncation error there; what a
    floating-point run reports is rounding alone. *)
Theorem check_hessian_quadratic_passes
    (Q : list (list R)) (c : list R) (d : R) (x : list R) (eps tol : R)
    (verbose : bool) (w : world) :
  eps <> 0 -> square (length x) Q -> symmetric (length x) Q ->
  fst (check_hessian (quadratic_function Q c d) (fun _ => Q) x eps tol
         verbose w) = Ok (Rltb 0 tol, 0) /\
  (0 < tol ->
   fst (check_hessian (quadratic_function Q c d) (fun _ => Q) x eps tol
          verbose w) = Ok (true, 0)).
Proof.
  intros Heps Hsq Hsym.
  assert (Hval :
    fst (check_hessian (quadratic_function Q c d) (fun _ => Q) x eps tol
           verbose w) = Ok (Rltb 0 tol, 0)).
  { assert (Hquiet :
      fst (check_hessian (quadratic_function Q c d) (fun _ => Q) x eps tol
             verbose w) =
      fst (check_hessian (quadratic_function Q c d) (fun _ => Q) x eps tol
             false w)).
    { destruct verbose; [apply hessian_report_independent | reflexivity]. }
    rewrite Hquiet. unfold check_hessian.
    destruct (quadratic_hessian_run Q c d x eps w Heps Hsq)
      as (H & w' & E & _ & HQ).
    rewrite (HQ Hsym) in E. rewrite (bind_ok _ _ _ _ _ E).
    rewrite (bind_ok _ _ _ _ _ (subtract2_same_shape _ Q Q w' Hsq Hsq)).
    rewrite !bind_ret. unfold ret. cbn [fst].
    rewrite norm_fro_self_difference.
    assert (Hrel : (if Rltb 0 (np.linalg.norm_fro Q)
                    then 0 / np.linalg.norm_fro Q else 0) = 0).
    { destruct (Rltb 0 (np.linalg.norm_fro Q)); [|reflexivity].
      unfold Rdiv. apply Rmult_0_l. }
    now rewrite Hrel. }
  split; [exact Hval|]. intros Htol. now rewrite Hval, Rltb_true.
Qed.

Lemma check_hessian_quadratic_passes_witness :
  fst (check_hessian (quadratic_function [[2; 1]; [1; 4]] [5; 6] 7)
         (fun _ => [[2; 1]; [1; 4]]) [1; 2] (1 / 10000) (1 / 1000) true
         quiet_world) = Ok (true, 0).
Proof.
  apply (proj2 (check_hessian_quadratic_passes [[2; 1]; [1; 4]] [5; 6] 7
                  [1; 2] (1 / 10000) (1 / 1000) true quiet_world
                  ltac:(lra)
                  ltac:(split; [reflexivity | repeat constructor])
                  ltac:(intros [|[|i]] [|[|j]] Hi Hj; simpl in *;
                        try lia; eexists; split; reflexivity))).
  lra.
Defined.

(** ** The directional derivative check *)

Lemma prints_only_for_in {A} (body : A -> unit -> M unit) (l : list A) :
  (forall a s, prints_only (body a s) (fun _ => True)) ->
  forall s, prints_only (for_in l body s) (fun _ => True).
Proof.
  intros Hbody. induction l as [|a l IH]; intros s; cbn [for_in].
  - now apply prints_only_ret.
  - apply (prints_only_bind (fun _ => True)); [apply Hbody|].
    intros s' _. apply IH.
Qed.

Lemma directional_loop (f : ScalarFunction) (x d : list R) (f0 dd : R) :
  length x = length d ->
  forall (alphas acc : list R) (w : world),
    for_in alphas (fun alpha errors =>
      x_alpha <- np.add x (np.scale alpha d) ;;
      f_alpha <- call_real f x_alpha ;;
      let predicted := f0 + alpha * dd in
      let error := Rabs (f_alpha - predicted) in
      let diff := Rabs (f_alpha - f0) in
      let relative_error := if Rltb 0 diff then error / diff else error in
      ret (errors ++ [relative_error])) acc w =
    (Ok (acc ++ map (fun alpha =>
           let f_alpha := on_real f (zip_with Rplus x (np.scale alpha d)) in
           let error := Rabs (f_alpha - (f0 + alpha * dd)) in
           let diff := Rabs (f_alpha - f0) in
           if Rltb 0 diff then error / diff else error) alphas),
     add_evals (map (fun alpha =>
                  EvalReal (zip_with Rplus x (np.scale alpha d))) alphas) w).
Proof.
  intros Hlen. induction alphas as [|alpha alphas IH]; intros acc w.
  - cbn [for_in map]. unfold ret. now rewrite app_nil_r, add_evals_nil.
  - cbn [for_in map].
    erewrite bind_ok.
    2: { erewrite bind_ok
           by (apply add_same_length; unfold np.scale;
               now rewrite length_map).
         rewrite bind_call_real. reflexivity. }
    rewrite IH, <- app_assoc, add_evals_app. reflexivity.
Qed.

Lemma directional_check_run (f : ScalarFunction) (grad_f : list R -> list R)
    (x d alphas : list R) (verbose : bool) (w : world) :
  length (grad_f x) = length d -> length x = length d ->
  exists out,
    directional_derivative_check f grad_f x d (Some alphas) verbose w =
      (Ok (map (taylor_error f grad_f x d) alphas),
       add_stdout out
         (add_evals (EvalReal x ::
            map (fun alpha => EvalReal (zip_with Rplus x (np.scale alpha d)))
                alphas) w)).
Proof.
  intros Hg Hx. unfold directional_derivative_check.
  rewrite bind_call_real.
  erewrite bind_ok by (unfold np_dot; rewrite Hg, Nat.eqb_refl; reflexivity).
  rewrite (bind_ok _ _ _ _ _
             (directional_loop f x d (on_real f x) (vdot (grad_f x) d) Hx
                alphas [] _)).
  rewrite add_evals_app. cbn [app].
  match goal with
  | |- context [bind ?inner (fun _ => ret ?b) ?w1] =>
      assert (Hinner : prints_only inner (fun _ => True))
  end.
  { destruct verbose; [|report_only].
    report_only. apply prints_only_for_in. intros pr st. report_only. }
  match goal with
  | |- context [bind _ _ ?w1] =>
      destruct (Hinner w1) as (u & out & Einner & _)
  end.
  rewrite (bind_ok _ _ _ _ _ Einner). exists out. reflexivity.
Qed.

(** X25. When the gradient, the point and the direction have one
    length, [directional_derivative_check] raises nothing and returns
    one error per step size [alpha], in order: [|f(x + alpha d) -
    (f(x) + alpha grad_f(x) . d)|] divided by [|f(x + alpha d) - f(x)|]
    when that is positive, and undivided otherwise. Each error is
    non-negative, [f] is evaluated once at [x] and once per [alpha],
    and the report changes none of this. *)
Theorem directional_derivative_check_errors
    (f : ScalarFunction) (grad_f : list R -> list R)
    (x d alphas : list R) (verbose : bool) (w : world) :
  length (grad_f x) = length d -> length x = length d ->
  fst (directional_derivative_check f grad_f x d (Some alphas) verbose w) =
    Ok (map (fun alpha =>
          let f_alpha := on_real f (zip_with Rplus x (np.scale alpha d)) in
          let predicted := on_real f x + alpha * vdot (grad_f x) d in
          let error := Rabs (f_alpha - predicted) in
          let diff := Rabs (f_alpha - on_real f x) in
          if Rltb 0 diff then error / diff else error) alphas) /\
  Forall (fun e => 0 <= e) (map (taylor_error f grad_f x d) alphas) /\
  length (evals (snd (directional_derivative_check f grad_f x d
                        (Some alphas) verbose w))) =
    (length (evals w) + (1 + length alphas))%nat.
Proof.
  intros Hg Hx.
  destruct (directional_check_run f grad_f x d alphas verbose w Hg Hx)
    as (out & E).
  rewrite E. cbn [fst snd]. split; [reflexivity|]. split.
  - apply Forall_forall. intros e He.
    apply list_elem_of_In, in_map_iff in He as (alpha & <- & _).
    unfold taylor_error. cbv zeta.
    match goal with |- context [Rltb 0 ?dv] =>
      pose proof (Rabs_pos dv) as _; destruct (Rlt_dec 0 dv) as [Hpos|Hnpos];
      [rewrite (Rltb_true 0 dv Hpos) | rewrite (Rltb_false 0 dv) by lra]
    end.
    + apply Rmult_le_pos; [apply Rabs_pos|].
      left. now apply Rinv_0_lt_compat.
    + apply Rabs_pos.
  - unfold add_stdout. cbn [evals]. rewrite length_evals_add.
    cbn [length]. rewrite length_map. lia.
Qed.

Lemma directional_derivative_check_errors_witness :
  length (evals (snd (directional_derivative_check sum_of_squares
                        sum_of_squares_gradient [1; 1] [1; 0]
                        (Some [1 / 10; 1 / 100]) true quiet_world))) = 3%nat.
Proof.
  apply (directional_derivative_check_errors sum_of_squares
           sum_of_squares_gradient [1; 1] [1; 0] [1 / 10; 1 / 100] true
           quiet_world); reflexivity.
Defined.

(** X26. In exact arithmetic (floats as real numbers, no rounding):
    for an affine function with its true gradient the first-order
    Taylor prediction is exact, and [directional_derivative_check]
    returns an error of [0] for every step size, in every direction. *)
Theorem directional_derivative_check_affine
    (a : list R) (b : R) (x d alphas : list R) (verbose : bool) (w : world) :
  length a = length d -> length x = length d ->
  fst (directional_derivative_check (affine_function a b) (fun _ => a) x d
         (Some alphas) verbose w) = Ok (map (fun _ => 0) alphas).
Proof.
  intros Ha Hx.
  destruct (directional_check_run (affine_function a b) (fun _ => a) x d
              alphas verbose w Ha Hx) as (out & E).
  rewrite E. cbn [fst]. f_equal. apply map_ext. intros alpha.
  unfold taylor_error. cbn [on_real affine_function]. unfold affine.
  fold (vdot a (zip_with Rplus x (np.scale alpha d))) (vdot a x).
  unfold np.scale.
  rewrite vdot_add_r by (rewrite length_map; exact Hx).
  rewrite vdot_scale_r.
  replace (vdot a x + alpha * vdot a d + b - (vdot a x + b + alpha * vdot a d))
    with 0 by ring.
  rewrite Rabs_R0. destruct (Rltb 0 _); [|reflexivity].
  unfold Rdiv. apply Rmult_0_l.
Qed.

Lemma directional_derivative_check_affine_witness :
  fst (directional_derivative_check (affine_function [3; -2] 7)
         (fun _ => [3; -2]) [1; 5] [1; 1] (Some [1 / 10; 1 / 100]) true
         quiet_world) = Ok [0; 0].
Proof.
  apply (directional_derivative_check_affine [3; -2] 7 [1; 5] [1; 1]
           [1 / 10; 1 / 100] true quiet_world); reflexivity.
Defined.

Lemma sumsq_step : forall (x d : list R) (alpha : R),
  length x = length d ->
  np.sumsq (zip_with Rplus x (np.scale alpha d)) =
    np.sumsq x + 2 * alpha * vdot x d + alpha * alpha * np.sumsq d.
Proof.
  unfold np.scale. induction x as [|x0 x IH]; intros [|d0 d] alpha Hlen;
    try discriminate.
  - unfold np.sumsq, vdot, np.sum. simpl. ring.
  - cbn [map zip_with]. rewrite !sumsq_cons, IH by (now injection Hlen).
    unfold vdot, np.sum. cbn [zip_with fold_right]. ring.
Qed.

Lemma sum_of_squares_error (x d : list R) (alpha : R) :
  length x = length d -> 0 < vdot x d -> 0 < alpha ->
  taylor_error sum_of_squares sum_of_squares_gradient x d alpha =
    alpha * np.sumsq d / (2 * vdot x d + alpha * np.sumsq d).
Proof.
  intros Hlen Hxd Halpha. unfold taylor_error.
  cbn [on_real sum_of_squares]. unfold sum_of_squares_gradient.
  rewrite sumsq_step by exact Hlen.
  unfold np.scale at 1. rewrite vdot_scale_l.
  pose proof (sumsq_nonneg d) as Hd.
  replace (np.sumsq x + 2 * alpha * vdot x d + alpha * alpha * np.sumsq d
           - (np.sumsq x + alpha * (2 * vdot x d)))
    with (alpha * alpha * np.sumsq d) by ring.
  replace (np.sumsq x + 2 * alpha * vdot x d + alpha * alpha * np.sumsq d
           - np.sumsq x)
    with (alpha * (2 * vdot x d + alpha * np.sumsq d)) by ring.
  assert (Hden : 0 < 2 * vdot x d + alpha * np.sumsq d) by nra.
  rewrite (Rabs_pos_eq (alpha * alpha * np.sumsq d)) by nra.
  rewrite (Rabs_pos_eq (alpha * (2 * vdot x d + alpha * np.sumsq d))) by nra.
  rewrite Rltb_true by nra.
  field. split; lra.
Qed.

(** X27. In exact arithmetic (floats as real numbers, no rounding):
    for [f(x) = sum(x_i^2)] with its gradient [2 x], a direction [d]
    with [x . d > 0] and positive step sizes,
    [directional_derivative_check] returns for each [alpha] the error
    [alpha |d|^2 / (2 x . d + alpha |d|^2)]: it is at most
    [alpha |d|^2 / (2 x . d)] and never grows when [alpha] shrinks.
    The rounding that takes over in floating point for very small
    [alpha] is outside this statement. *)
Theorem directional_derivative_check_sum_of_squares
    (x d alphas : list R) (verbose : bool) (w : world) :
  length x = length d -> 0 < vdot x d ->
  Forall (fun alpha => 0 < alpha) alphas ->
  let e := fun alpha =>
    alpha * np.sumsq d / (2 * vdot x d + alpha * np.sumsq d) in
  fst (directional_derivative_check sum_of_squares sum_of_squares_gradient
         x d (Some alphas) verbose w) = Ok (map e alphas) /\
  (forall alpha, 0 < alpha -> 0 <= e alpha <= alpha * np.sumsq d / (2 * vdot x d)) /\
  (forall alpha1 alpha2, 0 < alpha1 <= alpha2 -> e alpha1 <= e alpha2).
Proof.
  intros Hlen Hxd Hpos e.
  pose proof (sumsq_nonneg d) as Hd.
  split; [|split].
  - destruct (directional_check_run sum_of_squares sum_of_squares_gradient
                x d alphas verbose w) as (out & E).
    { unfold sum_of_squares_gradient, np.scale. rewrite length_map. exact Hlen. }
    { exact Hlen. }
    rewrite E. cbn [fst]. f_equal. clear E.
    induction Hpos as [|alpha alphas Halpha _ IH]; [reflexivity|].
    cbn [map]. rewrite IH. f_equal.
    now apply sum_of_squares_error.
  - intros alpha Halpha. unfold e.
    assert (Hden : 0 < 2 * vdot x d + alpha * np.sumsq d) by nra.
    split.
    + apply Rmult_le_pos; [nra|]. left. now apply Rinv_0_lt_compat.
    + unfold Rdiv. apply Rmult_le_compat_l; [nra|].
      apply Rinv_le_contravar; nra.
  - intros alpha1 alpha2 [H1 H12]. unfold e.
    assert (Hden1 : 0 < 2 * vdot x d + alpha1 * np.sumsq d) by nra.
    assert (Hden2 : 0 < 2 * vdot x d + alpha2 * np.sumsq d) by nra.
    assert (Hdiff :
      0 <= alpha2 * np.sumsq d / (2 * vdot x d + alpha2 * np.sumsq d)
           - alpha1 * np.sumsq d / (2 * vdot x d + alpha1 * np.sumsq d)).
    { replace (alpha2 * np.sumsq d / (2 * vdot x d + alpha2 * np.sumsq d)
               - alpha1 * np.sumsq d / (2 * vdot x d + alpha1 * np.sumsq d))
        with (2 * vdot x d * np.sumsq d * (alpha2 - alpha1)
              / ((2 * vdot x d + alpha1 * np.sumsq d)
                 * (2 * vdot x d + alpha2 * np.sumsq d)))
        by (field; split; lra).
      apply Rmult_le_pos.
      - apply Rmult_le_pos; [|lra]. apply Rmult_le_pos; lra.
      - left. apply Rinv_0_lt_compat. now apply Rmult_lt_0_compat. }
    lra.
Qed.

Lemma directional_derivative_check_sum_of_squares_witness :
  fst (directional_derivative_check sum_of_squares sum_of_squares_gradient
         [1; 1] [1; 0] (Some [1 / 10; 1 / 100]) true quiet_world) =
    Ok (map (fun alpha =>
          alpha * np.sumsq [1; 0]
          / (2 * vdot [1; 1] [1; 0] + alpha * np.sumsq [1; 0]))
        [1 / 10; 1 / 100]).
Proof.
  apply (directional_derivative_check_sum_of_squares [1; 1] [1; 0]
           [1 / 10; 1 / 100] true quiet_world).
  - reflexivity.
  - unfold vdot, np.sum. simpl. lra.
  - repeat constructor; lra.
Defined.
